(** * The self-healing build loop and the nucleus of learned fix patterns

    A shallow embedding of [vscode-extension/src/dynamicPatterns.ts]
    (class [DynamicPatterns]) and [vscode-extension/src/buildLoop.ts]
    (class [BuildLoop]), with the properties of the specification stated
    over it, and of the part of [vscode-extension/src/knowledgeSharing.ts]
    that the build loop reads (the known fixes), with further properties
    of the three.

    Conventions of the embedding.
    - A JavaScript string is a [string]; the text handled here (compiler
      diagnostics, source files, the texts of the patterns) is taken to
      be ASCII, so a character is a code unit and [toLowerCase] only
      touches [A-Z].
    - A JavaScript number holding a count is a [Z].  A number holding a
      confidence or a score is a binary64 floating-point value.  It is
      held as a rational [Q]: a field holds the rational that was
      written for it ([0.7] is [7 # 10]) or that was computed, and an
      operation reads each operand as the double nearest to it and
      rounds its result to the nearest double ([Js.double]).  No
      operation here overflows: the confidences are at most 1 and the
      counts are counts.
    - An object reference into an array is the index of the object.
    - [new Date()] is an argument ([now]) of the operations that read the
      clock.
    - The file system below a widget folder is a record of finite maps. *)

From Stdlib Require Import Ascii QArith Qminmax Qround Qpower Lqa Permutation Sorted.
From stdpp Require Import base option list strings gmap pretty.

Local Open Scope Z_scope.

(** ** JavaScript primitives *)

Module Js.

(** The line feed written [\n] in the source. *)
Definition nl : string := String "010"%char "".

(** The double quote. *)
Definition dq : string := String "034"%char "".

(** [s.startsWith(p)] *)
Fixpoint startsWith (s p : string) {struct p} : bool :=
  match p, s with
  | "", _ => true
  | String _ _, "" => false
  | String a p', String b s' => if decide (a = b) then startsWith s' p' else false
  end.

(** [s.includes(sub)] *)
Fixpoint includes (s sub : string) : bool :=
  match s with
  | "" => startsWith "" sub
  | String _ s' => startsWith s sub || includes s' sub
  end.

(** [s.slice(n)] for [0 <= n] *)
Fixpoint drop (n : nat) (s : string) : string :=
  match n, s with
  | O, _ => s
  | S _, "" => ""
  | S n', String _ s' => drop n' s'
  end.

(** [s.substring(0, n)] *)
Fixpoint substring0 (n : nat) (s : string) : string :=
  match n, s with
  | O, _ => ""
  | S _, "" => ""
  | S n', String c s' => String c (substring0 n' s')
  end.

(** [s.endsWith(suffix)] *)
Definition endsWith (s suffix : string) : bool :=
  startsWith (String.rev s) (String.rev suffix).

(** [s.replace(search, rep)] with a string pattern: the first occurrence
    only; an empty pattern matches at position 0.  The replacement text
    is taken to hold no [$] sequence, which [replace] would expand. *)
Fixpoint replace (s search rep : string) : string :=
  if startsWith s search then rep +:+ drop (String.length search) s
  else match s with
       | "" => ""
       | String c s' => String c (replace s' search rep)
       end.

Definition lowerChar (c : ascii) : ascii :=
  let n := Ascii.N_of_ascii c in
  if ((65 <=? n) && (n <=? 90))%N then Ascii.ascii_of_N (n + 32) else c.

(** [s.toLowerCase()] *)
Fixpoint toLowerCase (s : string) : string :=
  match s with
  | "" => ""
  | String c s' => String (lowerChar c) (toLowerCase s')
  end.

(** [s.split(/\s+/)]: a run of white space separates two pieces, so white
    space at either end yields an empty piece there. *)
Fixpoint splitWs_go (cur : string) (inWs : bool) (s : string) : list string :=
  match s with
  | "" => [String.rev cur]
  | String c s' =>
      if Ascii.is_space c
      then (if inWs then splitWs_go "" true s'
            else String.rev cur :: splitWs_go "" true s')
      else splitWs_go (String c cur) false s'
  end.
Definition splitWs : string → list string := splitWs_go "" false.

(** [arr.join(sep)] *)
Fixpoint join (sep : string) (l : list string) : string :=
  match l with
  | [] => ""
  | [x] => x
  | x :: l' => x +:+ sep +:+ join sep l'
  end.


(** *** Numbers

    A number is a binary64 floating-point value.  A finite one is a
    rational and is held as a [Q].  [double q] is the number nearest to
    the rational [q]: of its two neighbours the nearer one and, half way
    between them, the one whose significand is even.  It is what a
    numeral denotes, and what an operation yields when [q] is its exact
    result.  A significand has 53 bits; below [2^-1022] the numbers are
    [2^-1074] apart.  The exponent is not bounded above: a result of
    magnitude [2^1024] or more, which is [Infinity] in JavaScript, is
    beyond the confidences and the counts of this program. *)

(** The exponent [e] with [2^e <= q < 2^(e+1)], for [0 < q]. *)
Definition ilog2 (q : Q) : Z :=
  let e := Z.log2 (Qnum q) - Z.log2 (Zpos (Qden q)) in
  if Qle_bool (2 ^ e) q then e else e - 1.

(** The whole number nearest to [q], the even one half way. *)
Definition rne (q : Q) : Z :=
  let f := Qfloor q in
  match (q - inject_Z f ?= 1 # 2)%Q with
  | Lt => f
  | Gt => f + 1
  | Eq => if Z.even f then f else f + 1
  end.

(** The numbers next to [q] are [2^-scale q] apart. *)
Definition scale (q : Q) : Z := Z.min (52 - ilog2 q) 1074.

Definition nearest (q : Q) : Q :=
  let s := scale q in (inject_Z (rne (q * 2 ^ s)) * 2 ^ (- s))%Q.

Definition double (q : Q) : Q :=
  Qred (if Qnum q <? 0 then - nearest (- q) else nearest q)%Q.

(** [x + y], [x - y], [x * y] and [x / y].  An operand is read as the
    number it denotes, which is the operand itself when it is a number
    already (a result of [double]). *)
Definition add (x y : Q) : Q := double (double x + double y).
Definition sub (x y : Q) : Q := double (double x - double y).
Definition mul (x y : Q) : Q := double (double x * double y).
Definition div (x y : Q) : Q := double (double x / double y).

(** [x >= y] *)
Definition geb (x y : Q) : bool := Qle_bool (double y) (double x).

End Js.

(** ** Array primitives *)

(** [arr.findIndex(f)]: the position of the first element satisfying [f];
    [arr.find(f)] is the object at that position. *)
Fixpoint findIndex {A} (f : A → bool) (l : list A) : option nat :=
  match l with
  | [] => None
  | x :: l' => if f x then Some O else S <$> findIndex f l'
  end.

(** Strict comparison of two JavaScript numbers. *)
Definition Qltb (x y : Q) : bool := negb (Qle_bool y x).

(** [arr.sort(cmp)]: the specification of [Array.prototype.sort] is a
    stable sort, [a] staying before [b] unless [cmp(a, b) > 0].  It is
    written here as an insertion sort; [insertBy] puts [x], which comes
    from the left of every element of [l], behind the elements that must
    precede it and before the first one that need not. *)
Fixpoint insertBy {A} (cmp : A → A → Q) (x : A) (l : list A) : list A :=
  match l with
  | [] => [x]
  | y :: l' => if Qltb 0 (cmp x y) then y :: insertBy cmp x l' else x :: l
  end.
Definition sortBy {A} (cmp : A → A → Q) (l : list A) : list A :=
  foldr (insertBy cmp) [] l.

(** ** The nucleus: [DynamicPatterns] *)

Module DynamicPatterns.

Inductive FixType := FileEdit | ConfigChange | DependencyAdd | Manual.
Inductive Source := Builtin | Learned | User.

(** The [fix] member of [ErrorFixPattern]. *)
Record Fix := {
  type : FixType;
  file : option string;
  search : option string;
  replace : option string;
  description : string;
  commands : option (list string);
}.

(** [Partial<ErrorFixPattern['fix']>] *)
Record PartialFix := {
  p_type : option FixType;
  p_file : option string;
  p_search : option string;
  p_replace : option string;
  p_description : option string;
  p_commands : option (list string);
}.

Record ErrorFixPattern := {
  id : string;
  errorPattern : string;
  errorKeywords : list string;
  fix_ : Fix;
  confidence : Q;
  successCount : Z;
  failureCount : Z;
  lastUsed : string;
  source : Source;
}.

(** The state of a [DynamicPatterns] object that the error-fix operations
    read and write is [this.patterns.errorFixes]; the other three
    collections and the copy on disk written by [save] are left out. *)
Abbreviation Store := (list ErrorFixPattern).

(** The first four entries of [getDefaultPatterns().errorFixes]. *)
Definition defaultErrorFixes (now : string) : Store :=
  [ {| id := "missing-react-import";
       errorPattern := "Cannot find name 'React'";
       errorKeywords := ["React"; "cannot find"; "name"];
       fix_ := {| type := FileEdit; file := Some "src/*.tsx"; search := Some "";
                  replace := Some ("import * as React from 'react';" +:+ Js.nl);
                  description := "Add missing React import"; commands := None |};
       confidence := 95 # 100; successCount := 10; failureCount := 0;
       lastUsed := now; source := Builtin |};
    {| id := "classname-type-error";
       errorPattern := "Type 'string | undefined' is not assignable";
       errorKeywords := ["className"; "undefined"; "not assignable"];
       fix_ := {| type := FileEdit; file := None;
                  search := Some "className={props.class}";
                  replace := Some ("className={props.class ?? " +:+ Js.dq +:+ Js.dq +:+ "}");
                  description := "Add nullish coalescing for className";
                  commands := None |};
       confidence := 9 # 10; successCount := 5; failureCount := 1;
       lastUsed := now; source := Builtin |};
    {| id := "missing-build-script";
       errorPattern := "missing script: build";
       errorKeywords := ["missing"; "script"; "build"];
       fix_ := {| type := ConfigChange; file := Some "package.json"; search := None;
                  replace := None;
                  description := "Add missing build scripts to package.json";
                  commands := None |};
       confidence := 95 # 100; successCount := 8; failureCount := 0;
       lastUsed := now; source := Builtin |};
    {| id := "strict-null-checks";
       errorPattern := "Object is possibly";
       errorKeywords := ["possibly"; "undefined"; "null"];
       fix_ := {| type := Manual; file := None; search := None; replace := None;
                  description := "Add null safety checks - use optional chaining (?.) or nullish coalescing (??)";
                  commands := None |};
       confidence := 7 # 10; successCount := 3; failureCount := 2;
       lastUsed := now; source := Builtin |} ].

(** *** [getMatchingErrorFixes] *)

(** The loop over [pattern.errorKeywords]. *)
Definition keywordScore (errorLower : string) (keywords : list string) (score : Z) : Z :=
  fold_left
    (λ score keyword,
       if Js.includes errorLower (Js.toLowerCase keyword) then score + 2 else score)
    keywords score.

(** [score] as it stands before the test [score > 0]. *)
Definition rawScore (errorText : string) (p : ErrorFixPattern) : Z :=
  let errorLower := Js.toLowerCase errorText in
  let score := if Js.includes errorText (errorPattern p) then 0 + 10 else 0 in
  keywordScore errorLower (errorKeywords p) score.

(** [score *= pattern.confidence; score *= 1 + pattern.successCount / 10] *)
Definition boost (p : ErrorFixPattern) (score : Z) : Q :=
  Js.mul (Js.mul (inject_Z score) (confidence p))
         (Js.add 1 (Js.div (inject_Z (successCount p)) 10)).

Definition finalScore (errorText : string) (p : ErrorFixPattern) : Q :=
  boost p (rawScore errorText p).

(** An element [{ pattern, score }] of [matches]; [ref] is the position
    in [errorFixes] of the object [pattern] refers to. *)
Record Match := {
  ref : nat;
  pattern : ErrorFixPattern;
  score : Q;
}.

(** [for (const pattern of this.patterns.errorFixes) { ... }], [i] being
    the position of the head of [l] in the array. *)
Fixpoint collectMatches (errorText : string) (i : nat) (l : list ErrorFixPattern)
  : list Match :=
  match l with
  | [] => []
  | p :: l' =>
      let score := rawScore errorText p in
      if 0 <? score
      then {| ref := i; pattern := p; score := boost p score |}
             :: collectMatches errorText (S i) l'
      else collectMatches errorText (S i) l'
  end.

(** [(a, b) => b.score - a.score] *)
Definition byScoreDesc (a b : Match) : Q := Js.sub (score b) (score a).

Definition sortedMatches (errorText : string) (store : Store) : list Match :=
  sortBy byScoreDesc (collectMatches errorText O store).

Definition getMatchingErrorFixes (errorText : string) (store : Store)
  : list ErrorFixPattern :=
  pattern <$> sortedMatches errorText store.

(** The same result as references into [errorFixes]. *)
Definition getMatchingErrorFixRefs (errorText : string) (store : Store) : list nat :=
  ref <$> sortedMatches errorText store.

(** *** Helper methods *)

Definition stopWords : list string :=
  [ "the"; "a"; "an"; "is"; "are"; "was"; "were"; "be"; "been"; "being";
    "have"; "has"; "had"; "do"; "does"; "did"; "will"; "would"; "could";
    "should"; "may"; "might"; "must"; "shall"; "can"; "need"; "to"; "of";
    "in"; "for"; "on"; "with"; "at"; "by"; "from"; "as"; "into"; "through";
    "during"; "before"; "after"; "above"; "below"; "between"; "under";
    "again"; "further"; "then"; "once"; "and"; "but"; "or"; "nor"; "so";
    "yet"; "both"; "either"; "neither"; "not"; "only"; "own"; "same";
    "than"; "too"; "very"; "just" ].

(** [[a-z0-9\s]] *)
Definition isKeywordChar (c : ascii) : bool :=
  let n := Ascii.N_of_ascii c in
  ((97 <=? n) && (n <=? 122) || (48 <=? n) && (n <=? 57))%N || Ascii.is_space c.

(** [.replace(/[^a-z0-9\s]/g, ' ')] *)
Fixpoint blankOthers (s : string) : string :=
  match s with
  | "" => ""
  | String c s' => String (if isKeywordChar c then c else " "%char) (blankOthers s')
  end.

Definition extractKeywords (text : string) : list string :=
  take 10
    (filter (λ word, (2 < String.length word)%nat ∧ word ∉ stopWords)
       (Js.splitWs (blankOthers (Js.toLowerCase text)))).

Definition lowerSet (arr : list string) : gset string :=
  list_to_set (Js.toLowerCase <$> arr).

(** [similarity(arr1, arr2)]: the quotient of the two sizes.  The code
    has the double nearest to it, and only compares it with [0.7] and
    with [0.6]; the quotient is kept here as it is, the comparisons
    being the same on both ([similarity_threshold]). *)
Definition similarity (arr1 arr2 : list string) : Q :=
  match arr1, arr2 with
  | [], _ | _, [] => 0
  | _, _ =>
      let set1 := lowerSet arr1 in
      let set2 := lowerSet arr2 in
      let intersection := size (set1 ∩ set2) in
      inject_Z (Z.of_nat intersection)
        / inject_Z (Z.of_nat (Nat.max (size set1) (size set2)))
  end%Q.

(** *** Learning methods *)

(** The update of a pattern after a use, common to [learnErrorFix] and
    [recordFixUsage]: [Math.min(1, confidence + 0.05)] after a success
    and [Math.max(0.1, confidence - 0.1)] after a failure. *)
Definition nudge (success : bool) (now : string) (p : ErrorFixPattern)
  : ErrorFixPattern :=
  if success
  then {| id := id p; errorPattern := errorPattern p;
          errorKeywords := errorKeywords p; fix_ := fix_ p;
          confidence := Qmin 1 (Js.add (confidence p) (5 # 100));
          successCount := successCount p + 1;
          failureCount := failureCount p;
          lastUsed := now; source := source p |}
  else {| id := id p; errorPattern := errorPattern p;
          errorKeywords := errorKeywords p; fix_ := fix_ p;
          confidence := Qmax (Js.double (1 # 10)) (Js.sub (confidence p) (1 # 10));
          successCount := successCount p;
          failureCount := failureCount p + 1;
          lastUsed := now; source := source p |}.

(** The predicate of the [find] in [learnErrorFix]. *)
Definition similarTo (errorText : string) (keywords : list string)
    (p : ErrorFixPattern) : bool :=
  bool_decide (errorPattern p = errorText)
  || Qltb (7 # 10) (similarity (errorKeywords p) keywords).

(** [nowIso] is [new Date().toISOString()] and [nowMs] is [Date.now()]. *)
Definition learnErrorFix (errorText fixDescription : string)
    (fixDetails : PartialFix) (success : bool) (nowIso : string) (nowMs : Z)
    (store : Store) : Store :=
  let keywords := extractKeywords errorText in
  match findIndex (similarTo errorText keywords) store with
  | Some existing => alter (nudge success nowIso) existing store
  | None =>
      if success
      then store ++
           [ {| id := "learned-" +:+ pretty nowMs;
                errorPattern := Js.substring0 200 errorText;
                errorKeywords := keywords;
                fix_ := {| type := default Manual (p_type fixDetails);
                           file := p_file fixDetails;
                           search := p_search fixDetails;
                           replace := p_replace fixDetails;
                           description := fixDescription;
                           commands := p_commands fixDetails |};
                confidence := 7 # 10;
                successCount := 1;
                failureCount := 0;
                lastUsed := nowIso;
                source := Learned |} ]
      else store
  end.

Definition recordFixUsage (patternId : string) (success : bool) (now : string)
    (store : Store) : Store :=
  match findIndex (λ p, bool_decide (id p = patternId)) store with
  | Some i => alter (nudge success now) i store
  | None => store
  end.

End DynamicPatterns.

(** ** The orchestrator: [BuildLoop] *)

Module BuildLoop.

Module DP := DynamicPatterns.

(** A number as a caller may pass it for [maxAttempts]: a whole number or
    [NaN].  A bound with a fraction and an infinite bound are left out. *)
Inductive JsNumber := JsInt (z : Z) | JsNaN.

(** [WidgetConfig]: the loop reads [name] and sets [mendixProjectPath];
    the other members travel with the record untouched. *)
Record WidgetConfig := {
  name : string;
  mendixProjectPath : option string;
}.

Record GenerationResult := {
  success : bool;
  outputPath : option string;
  mpkPath : option string;
  deployedTo : option string;
  errors : list string;
  warnings : list string;
}.

(** [BuildLoopResult extends GenerationResult] *)
Record BuildLoopResult := {
  base : GenerationResult;
  attempts : Z;
  fixesApplied : list string;
}.

Record BuildLoopOptions := {
  workFolder : option string;
  mendixProject : option string;
  autoDeploy : option bool;
  maxAttempts : option JsNumber;
}.

(** [{ applied, description }] *)
Record FixResult := {
  applied : bool;
  description : string;
}.

(** What the loop does to its surroundings, in order: an update handed
    to [progressCallback], a call of [generator.generate] with its
    result, a call of [analyzeAndFix] with its result. *)
Inductive Event :=
| Progress (update : string)
| Generate (config : WidgetConfig) (folder : string) (r : GenerationResult)
| AnalyzeAndFix (errs : list string) (widgetPath : string) (f : FixResult).

(** The results of the calls of the generator, in order. *)
Definition generated (e : Event) : option GenerationResult :=
  match e with Generate _ _ r => Some r | _ => None end.

(** The descriptions of the fixes that were applied, in the order of
    the consultations. *)
Definition appliedFix (e : Event) : option string :=
  match e with
  | AnalyzeAndFix _ _ f => if applied f then Some (description f) else None
  | _ => None
  end.

(** [x || d] for a string that may be undefined. *)
Definition orString (x : option string) (d : string) : string :=
  match x with
  | Some (String c s) => String c s
  | _ => d
  end.

Definition truthy (x : option JsNumber) : bool :=
  match x with
  | Some (JsInt z) => negb (z =? 0)
  | Some JsNaN | None => false
  end.

(** [x || d] for a number that may be undefined. *)
Definition orNumber (x : option JsNumber) (d : Z) : Z :=
  match x with
  | Some (JsInt z) => if truthy x then z else d
  | Some JsNaN | None => d
  end.

Definition cancelledResult (attempt : Z) (fixes : list string) : BuildLoopResult :=
  {| base := {| success := false; outputPath := None; mpkPath := None;
                deployedTo := None; errors := ["Operation cancelled"];
                warnings := [] |};
     attempts := attempt;
     fixesApplied := fixes |}.

Definition failedResult (attempt : Z) (fixes : list string) : BuildLoopResult :=
  {| base := {| success := false; outputPath := None; mpkPath := None;
                deployedTo := None;
                errors := ["Build failed after " +:+ pretty attempt +:+ " attempts"];
                warnings := [] |};
     attempts := attempt;
     fixesApplied := fixes |}.

(** The block of code fences in which a failed attempt's diagnostics
    are shown. *)
Definition diagnosticsUpdate (errs : list string) : string :=
  "```" +:+ Js.nl +:+ Js.join Js.nl errs +:+ Js.nl +:+ "```" +:+ Js.nl +:+ Js.nl.

(** The updates that follow a successful build. *)
Definition successUpdates (r : GenerationResult) : list Event :=
  [Progress ("**Build successful!**" +:+ Js.nl +:+ Js.nl)]
  ++ match mpkPath r with
     | Some (String c s) => [Progress ("MPK: `" +:+ String c s +:+ "`" +:+ Js.nl)]
     | _ => []
     end
  ++ match deployedTo r with
     | Some (String c s) =>
         [Progress ("Deployed to: `" +:+ String c s +:+ "`" +:+ Js.nl)]
     | _ => []
     end.

(** *** [execute]

    The collaborators of the loop are parameters: [World] is whatever
    they read and change (the disk, the nucleus, the editor, the state of
    the cancellation token); none of them throws.  The pictographs that
    open some progress updates are left out of the texts. *)
Section Execute.
Context {World : Type}.
(** [token.isCancellationRequested] *)
Variable isCancellationRequested : World → bool.
(** [this.getDefaultWorkFolder()] *)
Variable getDefaultWorkFolder : World → string.
(** [if (!fs.existsSync(f)) fs.mkdirSync(f, { recursive: true })] *)
Variable ensureFolder : string → World → World.
(** [path.join(a, b)] *)
Variable pathJoin : string → string → string.
(** [this.generator.generate(fullConfig, { workFolder, install, build })] *)
Variable generate : WidgetConfig → string → World → GenerationResult * World.
(** [this.analyzeAndFix(errors, config, widgetPath, progressCallback)],
    with the updates it hands to [progressCallback]. *)
Variable analyzeAndFix :
  list string → WidgetConfig → string → World → FixResult * list string * World.

Variable config : WidgetConfig.
Variable options : BuildLoopOptions.

(** The state of a run: the surroundings and what was observed so far. *)
Definition Run : Type := World * list Event.

(** The [while (attempt < maxAttempts)] loop with the [return] that
    follows it; [fuel] bounds the number of iterations, [None] meaning
    that the bound was reached. *)
Fixpoint attemptLoop (maxAttempts : Z) (fuel : nat) (attempt : Z)
    (fixesApplied : list string) (run : Run) : option (BuildLoopResult * Run) :=
  if negb (attempt <? maxAttempts)
  then Some (failedResult attempt fixesApplied, run)
  else
    match fuel with
    | O => None
    | S fuel' =>
        let '(w, tr) := run in
        let attempt := attempt + 1 in
        if isCancellationRequested w
        then Some (cancelledResult attempt fixesApplied, (w, tr))
        else
          let tr := tr ++ [Progress (Js.nl +:+ "### Build Attempt " +:+ pretty attempt
                                       +:+ "/" +:+ pretty maxAttempts +:+ Js.nl +:+ Js.nl)] in
          let workFolder := orString (workFolder options) (getDefaultWorkFolder w) in
          let w := ensureFolder workFolder w in
          let fullConfig :=
            {| name := name config;
               mendixProjectPath :=
                 if default false (autoDeploy options)
                 then mendixProject options else None |} in
          let tr := tr ++ [Progress ("Work folder: `" +:+ workFolder +:+ "`" +:+ Js.nl);
                           Progress ("Generating " +:+ name config +:+ "..."
                                       +:+ Js.nl +:+ Js.nl)] in
          let '(result, w) := generate fullConfig workFolder w in
          let tr := tr ++ [Generate fullConfig workFolder result] in
          if success result
          then
            Some ({| base := result; attempts := attempt;
                     fixesApplied := fixesApplied |},
                  (w, tr ++ successUpdates result))
          else
            let tr := tr ++ [Progress (Js.nl +:+ "**Build failed**" +:+ Js.nl +:+ Js.nl);
                             Progress (diagnosticsUpdate (errors result))] in
            if attempt <? maxAttempts
            then
              let tr := tr ++ [Progress ("**Analyzing errors and applying fixes...**"
                                           +:+ Js.nl +:+ Js.nl)] in
              let widgetPath :=
                orString (outputPath result)
                  (pathJoin workFolder (Js.toLowerCase (name config))) in
              let '(fix_, updates, w) :=
                analyzeAndFix (errors result) config widgetPath w in
              let tr := tr ++ (Progress <$> updates)
                           ++ [AnalyzeAndFix (errors result) widgetPath fix_] in
              if applied fix_
              then
                attemptLoop maxAttempts fuel' attempt
                  (fixesApplied ++ [description fix_])
                  (w, tr ++ [Progress (Js.nl +:+ "Fix applied: " +:+ description fix_
                                         +:+ Js.nl);
                             Progress (Js.nl +:+ "Retrying build..." +:+ Js.nl)])
              else
                Some (failedResult attempt fixesApplied,
                      (w, tr ++ [Progress (Js.nl +:+ "Could not determine automatic fix."
                                             +:+ Js.nl)]))
            else attemptLoop maxAttempts fuel' attempt fixesApplied (w, tr)
    end.

(** [execute(config, options, progressCallback, token)], started in
    the surroundings [w].  The loop runs at most [maxAttempts] times,
    which is the fuel it is given. *)
Definition execute (w : World) : option (BuildLoopResult * Run) :=
  let maxAttempts := orNumber (maxAttempts options) 3 in
  attemptLoop maxAttempts (Z.to_nat maxAttempts) 0 [] (w, []).

End Execute.

(** *** The fix strategies

    What lies below the widget folder: the files of [src] by name (when
    the folder exists; its entries are regular files) and the manifest
    [package.json] (when the file exists; it parses, and of the parsed
    object only [scripts] is read or written). *)
Record PackageJson := {
  scripts : option (gmap string string);
}.

Record WidgetDir := {
  src : option (gmap string string);
  packageJson : option PackageJson;
}.

(** [!scripts[key]] *)
Definition scriptMissing (key : string) (scripts : gmap string string) : bool :=
  match scripts !! key with
  | Some (String _ _) => false
  | _ => true
  end.

(** A loop that reads each file of a folder and writes back those for
    which [edit] yields a new content: the names written, in the order
    of the listing, and the folder afterwards. *)
Definition editFiles (edit : string → string → option string)
    (files : gmap string string) : list string * gmap string string :=
  (omap (λ '(file, content), const file <$> edit file content) (map_to_list files),
   map_imap (λ file content, Some (default content (edit file content))) files).

(** The test on the name of a file in the [file-edit] case. *)
Definition fileMatches (fixFile file : string) : bool :=
  if Js.includes fixFile "*"
  then Js.endsWith file (Js.replace (Js.replace fixFile "*" "") "src/" "")
  else Js.includes fixFile file.

(** The two ways of editing a file in the [file-edit] case: the content
    to write, if any. *)
Definition editContent (search replace content : string) : option string :=
  if bool_decide (search = "") && negb (bool_decide (replace = ""))
  then (if negb (Js.includes content replace)
        then Some (replace +:+ content) else None)
  else if negb (bool_decide (search = "")) && Js.includes content search
       then Some (Js.replace content search replace)
       else None.

Definition nucleusEdit (fixFile search replace file content : string)
  : option string :=
  if fileMatches fixFile file then editContent search replace content else None.

(** [applyNucleusFix(pattern, widgetPath, progressCallback)]: whether the
    fix was applied, the progress updates, and the widget folder
    afterwards.  The [catch] of the method, which reports [false] when a
    read, a parse or a write throws, has no counterpart here: on a
    folder as described above none of them throws. *)
Definition applyNucleusFix (pattern : DP.ErrorFixPattern) (d : WidgetDir)
  : bool * list string * WidgetDir :=
  let fix_ := DP.fix_ pattern in
  match DP.type fix_ with
  | DP.FileEdit =>
      match DP.file fix_, DP.search fix_, DP.replace fix_ with
      | Some (String c f), Some search, Some replace =>
          match src d with
          | None => (false, [], d)
          | Some files =>
              let '(written, files') :=
                editFiles (nucleusEdit (String c f) search replace) files in
              (bool_decide (written ≠ []),
               (λ file, (if bool_decide (search = "") then "  Added to "
                         else "  Modified ") +:+ file +:+ Js.nl) <$> written,
               {| src := Some files'; packageJson := packageJson d |})
          end
      | _, _, _ => (false, [], d)
      end
  | DP.ConfigChange =>
      match DP.file fix_, packageJson d with
      | Some "package.json", Some pkg =>
          let scripts := default ∅ (scripts pkg) in
          let scripts :=
            if scriptMissing "build" scripts
            then <["build" := "pluggable-widgets-tools build:web"]> scripts
            else scripts in
          let scripts :=
            if scriptMissing "dev" scripts
            then <["dev" := "pluggable-widgets-tools start:web"]> scripts
            else scripts in
          (true, ["  Updated package.json" +:+ Js.nl],
           {| src := src d; packageJson := Some {| scripts := Some scripts |} |})
      | _, _ => (false, [], d)
      end
  | DP.DependencyAdd =>
      match DP.commands fix_ with
      | Some (c :: cs) =>
          (false, ["  Requires running: " +:+ Js.join ", " (c :: cs) +:+ Js.nl], d)
      | _ => (false, [], d)
      end
  | DP.Manual =>
      (false, ["  Manual fix needed: " +:+ DP.description fix_ +:+ Js.nl], d)
  end.

Definition isQuote (c : ascii) : bool :=
  bool_decide (c = "'"%char) || bool_decide (c = "034"%char).

(** The longest prefix without a quote, and what follows it. *)
Fixpoint spanNoQuote (s : string) : string * string :=
  match s with
  | "" => ("", "")
  | String c s' =>
      if isQuote c then ("", s)
      else let '(a, b) := spanNoQuote s' in (String c a, b)
  end.

(** A match, starting at the head of [s], of the regular expression of
    [tryPatternFix]: the words [Cannot find module], a space, a quote
    (single or double), one or more characters that are not quotes (the
    group), a quote.  The result is the group. *)
Definition moduleNameAt (s : string) : option string :=
  if Js.startsWith s "Cannot find module "
  then match Js.drop 19 s with
       | String q rest =>
           if isQuote q
           then match spanNoQuote rest with
                | (String c m, String _ _) => Some (String c m)
                | _ => None
                end
           else None
       | "" => None
       end
  else None.

(** [errorText.match(...)] with that expression: the group of the
    leftmost match. *)
Fixpoint matchModuleName (s : string) : option string :=
  match moduleNameAt s with
  | Some m => Some m
  | None => match s with
            | "" => None
            | String _ s' => matchModuleName s'
            end
  end.

Definition reactImport : string := "import * as React from 'react';" +:+ Js.nl.

(** The edit of a [.tsx] file by the missing-import rule. *)
Definition reactEdit (file content : string) : option string :=
  if Js.endsWith file ".tsx"
  then (if negb (Js.includes content "import React")
           && negb (Js.includes content "import * as React")
        then Some (reactImport +:+ content) else None)
  else None.

Section Strategies.
(** The knowledge base and the rest of the surroundings. *)
Context {K X : Type}.
(** [execSync(`npm install ${moduleName}`, { cwd: widgetPath })]: the
    folder afterwards, or [None] when the command throws. *)
Variable npmInstall : string → WidgetDir → option WidgetDir.
(** [new Date(ms).toISOString()] *)
Variable toISOString : Z → string.
(** [this.knowledgeSharing.getKnownFixes(errorText)], each an
    [{ errorPattern, fix }]. *)
Variable getKnownFixes : string → K → list (string * string).
(** [this.knowledgeSharing.saveWorkingFix(errorPattern, fix, 'success')] *)
Variable saveWorkingFix : string → string → K → K.
(** [this.applyKnownFix(fixInstructions, widgetPath, progressCallback)] *)
Variable applyKnownFix : string → WidgetDir → bool * list string * WidgetDir.

(** The rules of [tryPatternFix], in the order of the source.  Each is
    one [if] block of the method: [Some] is a [return] inside the
    block, [None] means that control falls through to the next block. *)

(** Missing dependencies. *)
Definition missingModuleRule (errorText errorLower : string) (d : WidgetDir)
  : option (FixResult * WidgetDir) :=
  if Js.includes errorLower "cannot find module"
     || Js.includes errorLower "module not found"
  then match matchModuleName errorText with
       | Some moduleName =>
           if negb (Js.startsWith moduleName ".")
              && negb (Js.startsWith moduleName "/")
           then match npmInstall moduleName d with
                | Some d' =>
                    Some ({| applied := true;
                             description :=
                               "Installed missing module: " +:+ moduleName |},
                          d')
                | None => None
                end
           else None
       | None => None
       end
  else None.

(** Missing React import. *)
Definition reactImportRule (errorLower : string) (d : WidgetDir)
  : option (FixResult * WidgetDir) :=
  if Js.includes errorLower "'react' must be in scope"
     || Js.includes errorLower "cannot find name 'react'"
  then match src d with
       | Some files =>
           Some ({| applied := true;
                    description := "Added missing React imports" |},
                 {| src := Some (editFiles reactEdit files).2;
                    packageJson := packageJson d |})
       | None => None
       end
  else None.

(** TypeScript strict mode issues with null. *)
Definition nullSafetyRule (errorLower : string) (d : WidgetDir)
  : option (FixResult * WidgetDir) :=
  if Js.includes errorLower "object is possibly 'null'"
     || Js.includes errorLower "object is possibly 'undefined'"
  then Some ({| applied := false;
                description := "Null safety issue requires manual review" |}, d)
  else None.

(** Missing package.json scripts. *)
Definition buildScriptRule (errorLower : string) (d : WidgetDir)
  : option (FixResult * WidgetDir) :=
  if Js.includes errorLower "missing script: build"
  then match packageJson d with
       | Some pkg =>
           let scripts := default ∅ (scripts pkg) in
           Some ({| applied := true;
                    description := "Added missing build scripts to package.json" |},
                 {| src := src d;
                    packageJson :=
                      Some {| scripts :=
                        Some (<["dev" := "pluggable-widgets-tools start:web"]>
                                (<["build" := "pluggable-widgets-tools build:web"]>
                                   scripts)) |} |})
       | None => None
       end
  else None.

(** [tryPatternFix(errorText, widgetPath)] *)
Definition tryPatternFix (errorText : string) (d : WidgetDir)
  : FixResult * WidgetDir :=
  let errorLower := Js.toLowerCase errorText in
  match missingModuleRule errorText errorLower d with
  | Some r => r
  | None =>
      match reactImportRule errorLower d with
      | Some r => r
      | None =>
          match nullSafetyRule errorLower d with
          | Some r => r
          | None =>
              match buildScriptRule errorLower d with
              | Some r => r
              | None => ({| applied := false; description := "" |}, d)
              end
          end
      end
  end.

(** [this.buildFixPrompt], the request to the language model and
    [this.applyAIFix], with the [catch] around them. *)
Variable aiFix : string → WidgetConfig → WidgetDir → X
                 → FixResult * list string * WidgetDir * X.

(** The surroundings of [analyzeAndFix]: the widget folder that
    [widgetPath] names, [this.dynamicPatterns], the knowledge base,
    the clock in milliseconds, and the rest. *)
Record Env := {
  dir : WidgetDir;
  nucleus : DP.Store;
  knowledge : K;
  clock : Z;
  outside : X;
}.

Definition withDir (d : WidgetDir) (env : Env) : Env :=
  {| dir := d; nucleus := nucleus env; knowledge := knowledge env;
     clock := clock env; outside := outside env |}.
Definition withNucleus (n : DP.Store) (env : Env) : Env :=
  {| dir := dir env; nucleus := n; knowledge := knowledge env;
     clock := clock env; outside := outside env |}.
Definition withKnowledge (k : K) (env : Env) : Env :=
  {| dir := dir env; nucleus := nucleus env; knowledge := k;
     clock := clock env; outside := outside env |}.

(** [(c * 100).toFixed(0)] *)
Definition percent (c : Q) : string := pretty (Qfloor (Js.mul c 100 + (1 # 2))%Q).

(** [for (const pattern of nucleusPatterns) { ... }]: the patterns are
    the objects of the store, read through their references when their
    turn comes.  [Some] is the [return] inside the loop. *)
Fixpoint tryNucleusPatterns (refs : list nat) (env : Env)
  : option FixResult * list string * Env :=
  match refs with
  | [] => (None, [], env)
  | i :: refs' =>
      match nucleus env !! i with
      | None => tryNucleusPatterns refs' env
      | Some pattern =>
          if Js.geb (DP.confidence pattern) (7 # 10)
          then
            let trying :=
              "  Trying " +:+ Js.dq +:+ DP.description (DP.fix_ pattern) +:+ Js.dq
              +:+ " (confidence: " +:+ percent (DP.confidence pattern) +:+ "%)"
              +:+ Js.nl in
            let '(ok, updates, d) := applyNucleusFix pattern (dir env) in
            let env := withDir d env in
            let env :=
              withNucleus
                (DP.recordFixUsage (DP.id pattern) ok (toISOString (clock env))
                   (nucleus env)) env in
            if ok
            then (Some {| applied := true;
                          description :=
                            "[NUCLEUS] " +:+ DP.description (DP.fix_ pattern) |},
                  trying :: updates
                    ++ ["NUCLEUS fix applied successfully!" +:+ Js.nl],
                  env)
            else
              let '(r, updates', env) := tryNucleusPatterns refs' env in
              (r, trying :: updates ++ updates', env)
          else tryNucleusPatterns refs' env
      end
  end.

(** Step 0 of [analyzeAndFix]. *)
Definition nucleusStep (errorText : string) (env : Env)
  : option FixResult * list string * Env :=
  let checking := "Checking NUCLEUS (dynamic patterns)..." +:+ Js.nl in
  let refs := DP.getMatchingErrorFixRefs errorText (nucleus env) in
  match refs with
  | [] => (None, [checking], env)
  | _ :: _ =>
      let found :=
        "Found " +:+ pretty (length refs) +:+ " pattern(s) in nucleus!" +:+ Js.nl in
      let '(r, updates, env) := tryNucleusPatterns refs env in
      match r with
      | Some _ => (r, checking :: found :: updates, env)
      | None =>
          (None,
           checking :: found :: updates
             ++ ["Nucleus patterns didn't apply, checking knowledge base..." +:+ Js.nl],
           env)
      end
  end.

(** [for (const knownFix of knownFixes) { ... }] *)
Fixpoint tryKnownFixes (knownFixes : list (string * string)) (env : Env)
  : option FixResult * list string * Env :=
  match knownFixes with
  | [] => (None, [], env)
  | (errorPattern, fix_) :: rest =>
      let trying :=
        "  Trying fix for pattern: " +:+ Js.dq +:+ Js.substring0 50 errorPattern
        +:+ "..." +:+ Js.dq +:+ Js.nl in
      let '(ok, updates, d) := applyKnownFix fix_ (dir env) in
      let env := withDir d env in
      if ok
      then
        let env :=
          withNucleus
            (DP.learnErrorFix errorPattern fix_
               {| DP.p_type := Some DP.Manual; DP.p_file := None;
                  DP.p_search := None; DP.p_replace := None;
                  DP.p_description := Some fix_; DP.p_commands := None |}
               true (toISOString (clock env)) (clock env) (nucleus env)) env in
        (Some {| applied := true;
                 description := "[LEARNED] " +:+ Js.substring0 100 fix_ |},
         trying :: updates
           ++ ["Applied known fix from learned patterns!" +:+ Js.nl],
         env)
      else
        let '(r, updates', env) := tryKnownFixes rest env in
        (r, trying :: updates ++ updates', env)
  end.

(** Step 1 of [analyzeAndFix]. *)
Definition knowledgeStep (errorText : string) (env : Env)
  : option FixResult * list string * Env :=
  let checking := "Checking learned fixes from knowledge base..." +:+ Js.nl in
  let knownFixes := getKnownFixes errorText (knowledge env) in
  match knownFixes with
  | [] =>
      (None,
       [checking;
        "No known fixes found, proceeding with pattern matching..." +:+ Js.nl],
       env)
  | _ :: _ =>
      let found :=
        "Found " +:+ pretty (length knownFixes)
        +:+ " known fix(es) in knowledge base!" +:+ Js.nl in
      let '(r, updates, env) := tryKnownFixes knownFixes env in
      match r with
      | Some _ => (r, checking :: found :: updates, env)
      | None =>
          (None,
           checking :: found :: updates
             ++ ["Known fixes didn't match this case, trying other methods..."
                   +:+ Js.nl],
           env)
      end
  end.

(** Step 2 of [analyzeAndFix]: the rules of [tryPatternFix]; a fix
    that they report as applied is saved to the knowledge base and
    learned into the nucleus. *)
Definition patternStep (errorText : string) (env : Env)
  : option FixResult * list string * Env :=
  let '(patternFix, d) := tryPatternFix errorText (dir env) in
  let env := withDir d env in
  if applied patternFix
  then
    let env :=
      withKnowledge
        (saveWorkingFix errorText (description patternFix) (knowledge env)) env in
    let env :=
      withNucleus
        (DP.learnErrorFix (Js.substring0 200 errorText) (description patternFix)
           {| DP.p_type := Some DP.Manual; DP.p_file := None;
              DP.p_search := None; DP.p_replace := None;
              DP.p_description := Some (description patternFix);
              DP.p_commands := None |}
           true (toISOString (clock env)) (clock env) (nucleus env)) env in
    (Some patternFix, [], env)
  else (None, [], env).

(** [analyzeAndFix(errors, config, widgetPath, progressCallback)] *)
Definition analyzeAndFix (errs : list string) (config : WidgetConfig)
    (widgetPath : string) (env : Env) : FixResult * list string * Env :=
  let errorText := Js.join Js.nl errs in
  let '(r0, updates0, env) := nucleusStep errorText env in
  match r0 with
  | Some r => (r, updates0, env)
  | None =>
      let '(r1, updates1, env) := knowledgeStep errorText env in
      match r1 with
      | Some r => (r, updates0 ++ updates1, env)
      | None =>
          let '(r2, updates2, env) := patternStep errorText env in
          match r2 with
          | Some r => (r, updates0 ++ updates1 ++ updates2, env)
          | None =>
              let '(r, updates3, d, x) :=
                aiFix errorText config (dir env) (outside env) in
              (r, updates0 ++ updates1 ++ updates2 ++ updates3,
               {| dir := d; nucleus := nucleus env; knowledge := knowledge env;
                  clock := clock env; outside := x |})
          end
      end
  end.

End Strategies.

End BuildLoop.

(** ** Notions used to state the properties *)

(** The comparator [(a, b) => key(b) - key(a)] and the order it sorts by. *)
Definition byKeyDesc {A} (key : A → Q) (a b : A) : Q := (key b - key a)%Q.
Definition descendingBy {A} (key : A → Q) (a b : A) : Prop := (key b <= key a)%Q.

(** The ranking that [(a, b) => b.score - a.score] induces on patterns. *)
Definition byFinalScoreDesc (errorText : string)
    (a b : DynamicPatterns.ErrorFixPattern) : Q :=
  (DynamicPatterns.finalScore errorText b - DynamicPatterns.finalScore errorText a)%Q.

(** A series of calls [recordFixUsage(patternId, success)], one for each
    outcome of the list, in order. *)
Definition recordOutcomes (patternId now : string) (outcomes : list bool)
    (store : DynamicPatterns.Store) : DynamicPatterns.Store :=
  foldl (λ s success, DynamicPatterns.recordFixUsage patternId success now s)
    store outcomes.

(** The diagnostics of every failed call of the generator that a trace
    holds were handed to [progressCallback]. *)
Definition diagnosticsShown (tr : list BuildLoop.Event) : Prop :=
  ∀ cfg folder r,
    BuildLoop.Generate cfg folder r ∈ tr → BuildLoop.success r = false →
    BuildLoop.Progress (BuildLoop.diagnosticsUpdate (BuildLoop.errors r)) ∈ tr.

(** ** Concrete surroundings and inputs

    The runs and stores at which the properties below are instantiated. *)

Module Examples.
Import BuildLoop.

(** The diagnostic of a source file that uses React without importing it. *)
Definition reactDiagnostic : string := "error TS2304: Cannot find name 'React'.".

Definition failedBuild (errs : list string) : GenerationResult :=
  {| success := false; outputPath := None; mpkPath := None; deployedTo := None;
     errors := errs; warnings := [] |}.

Definition badgeConfig : WidgetConfig :=
  {| name := "StatusBadge"; mendixProjectPath := None |}.

Definition optionsWith (m : option JsNumber) : BuildLoopOptions :=
  {| workFolder := None; mendixProject := None; autoDeploy := None;
     maxAttempts := m |}.

(** Collaborators over surroundings without state: a token that never
    (or always) asks for cancellation, a generator that fails at every
    call with the React diagnostic, and a fix chain that applies a fix
    without effect at every consultation. *)
Definition neverCancelled (w : unit) : bool := false.
Definition alwaysCancelled (w : unit) : bool := true.
Definition tmpWorkFolder (w : unit) : string := "/tmp/mendix-widgets".
Definition folderExists (folder : string) (w : unit) : unit := w.
(** [path.join] for a folder that does not end in a separator and a name
    that holds none. *)
Definition joinPath (a b : string) : string := a +:+ "/" +:+ b.
Definition failingGenerate (cfg : WidgetConfig) (folder : string) (w : unit)
  : GenerationResult * unit :=
  (failedBuild [reactDiagnostic], w).
Definition noopFixChain (errs : list string) (cfg : WidgetConfig)
    (widgetPath : string) (w : unit) : FixResult * list string * unit :=
  ({| applied := true; description := "no-op fix" |}, [], w).

(** [execute] with these collaborators. *)
Definition runWith (cancel : unit → bool) (m : option JsNumber)
  : option (BuildLoopResult * (unit * list Event)) :=
  execute cancel tmpWorkFolder folderExists joinPath failingGenerate noopFixChain
    badgeConfig (optionsWith m) tt.

(** The builtin pattern [missing-react-import]. *)
Definition reactPattern : DP.ErrorFixPattern :=
  {| DP.id := "missing-react-import";
     DP.errorPattern := "Cannot find name 'React'";
     DP.errorKeywords := ["React"; "cannot find"; "name"];
     DP.fix_ := {| DP.type := DP.FileEdit; DP.file := Some "src/*.tsx";
                   DP.search := Some ""; DP.replace := Some reactImport;
                   DP.description := "Add missing React import";
                   DP.commands := None |};
     DP.confidence := 95 # 100; DP.successCount := 10; DP.failureCount := 0;
     DP.lastUsed := "2025-01-15T00:00:00.000Z"; DP.source := DP.Builtin |}.

(** The store as it is seeded. *)
Definition builtinStore : DP.Store :=
  DP.defaultErrorFixes "2025-01-15T00:00:00.000Z".

Definition widgetBody : string := "export const StatusBadge = () => <span/>;".

Definition widgetWith (content : string) : WidgetDir :=
  {| src := Some {[ "StatusBadge.tsx" := content ]}; packageJson := None |}.

(** A widget whose source lacks the import, one that has it, and one
    that has it twice. *)
Definition widgetWithoutImport : WidgetDir := widgetWith widgetBody.
Definition widgetWithImport : WidgetDir := widgetWith (reactImport +:+ widgetBody).

(** Two patterns that differ only in their names, and a store that holds
    them around a pattern of a higher score. *)
Definition tiePattern (name : string) (keywords : list string)
  : DP.ErrorFixPattern :=
  {| DP.id := name; DP.errorPattern := "TS2304"; DP.errorKeywords := keywords;
     DP.fix_ := {| DP.type := DP.Manual; DP.file := None; DP.search := None;
                   DP.replace := None; DP.description := name;
                   DP.commands := None |};
     DP.confidence := 8 # 10; DP.successCount := 0; DP.failureCount := 0;
     DP.lastUsed := "2025-01-15T00:00:00.000Z"; DP.source := DP.User |}.
Definition tieStore : DP.Store :=
  [tiePattern "first" []; tiePattern "stronger" ["react"]; tiePattern "second" []].

(** Patterns on which the rounding of the machine decides the ranking.
    The scores of [nearTieStore] are [4 * 1 * (1 + 23 / 10)] and
    [6 * 1 * (1 + 12 / 10)], which are 13.2 and 13.200000000000001 (the
    exact products are equal); those of [roundedTieStore] are
    [2 * 0.1 * (1 + 5 / 10)] and [2 * 0.15000000000000002 * (1 + 0 / 10)],
    which are both 0.30000000000000004 (the exact products differ). *)
Definition weighted (name : string) (keywords : list string) (c : Q) (n : Z)
  : DP.ErrorFixPattern :=
  {| DP.id := name; DP.errorPattern := "TS2304"; DP.errorKeywords := keywords;
     DP.fix_ := {| DP.type := DP.Manual; DP.file := None; DP.search := None;
                   DP.replace := None; DP.description := name;
                   DP.commands := None |};
     DP.confidence := c; DP.successCount := n; DP.failureCount := 0;
     DP.lastUsed := "2025-01-15T00:00:00.000Z"; DP.source := DP.User |}.
Definition keywordDiagnostic : string := "alpha beta gamma".
Definition nearTieStore : DP.Store :=
  [weighted "A" ["alpha"; "beta"] 1 23; weighted "B" ["alpha"; "beta"; "gamma"] 1 12].
Definition roundedTieStore : DP.Store :=
  [weighted "A" ["alpha"] (1 # 10) 5;
   weighted "B" ["alpha"] (15000000000000002 # 100000000000000000) 0].

(** Surroundings of [analyzeAndFix]: an empty knowledge base, an [npm]
    that installs what it is asked for, no language model. *)
Definition npmSucceeds (moduleName : string) (d : WidgetDir) : option WidgetDir :=
  Some d.
Definition isoOf (ms : Z) : string := "2025-01-15T00:00:00.000Z".
Definition noKnownFixes (errorText : string) (k : unit) : list (string * string) := [].
Definition saveNothing (errorPattern fix_ : string) (k : unit) : unit := k.
Definition knownFixNotApplied (fix_ : string) (d : WidgetDir)
  : bool * list string * WidgetDir := (false, [], d).
Definition noModel (errorText : string) (cfg : WidgetConfig) (d : WidgetDir)
    (x : unit) : FixResult * list string * WidgetDir * unit :=
  ({| applied := false; description := "No AI model available for analysis" |},
   [], d, x).

Definition envWith (d : WidgetDir) : Env (K := unit) (X := unit) :=
  {| dir := d; nucleus := builtinStore;
     knowledge := tt; clock := 1736899200000; outside := tt |}.

Definition analyze (errs : list string) (cfg : WidgetConfig) (widgetPath : string)
    (env : Env (K := unit) (X := unit)) : FixResult * list string * Env :=
  analyzeAndFix npmSucceeds isoOf noKnownFixes saveNothing knownFixNotApplied
    noModel errs cfg widgetPath env.

(** The surroundings after steps 0 and 1 of [analyzeAndFix], for a widget
    that has the import. *)
Definition afterNucleus : option FixResult * list string * Env :=
  nucleusStep isoOf reactDiagnostic (envWith widgetWithImport).
Definition afterKnowledge : option FixResult * list string * Env :=
  knowledgeStep isoOf noKnownFixes knownFixNotApplied reactDiagnostic afterNucleus.2.

(** A diagnostic that names a missing module before the React error. *)
Definition moduleAndReactDiagnostic : string :=
  "Cannot find module 'lodash'. 'React' must be in scope when using JSX.".

(** A fix payload without any member. *)
Definition noDetails : DP.PartialFix :=
  {| DP.p_type := None; DP.p_file := None; DP.p_search := None;
     DP.p_replace := None; DP.p_description := None; DP.p_commands := None |}.

(** A whole run of the loop over these surroundings: two attempts of a
    widget that has the import, with a generator that keeps reporting
    the React diagnostic. *)
Definition reactFailingGenerate (cfg : WidgetConfig) (folder : string)
    (env : Env (K := unit) (X := unit)) : GenerationResult * Env :=
  (failedBuild [reactDiagnostic], env).
Definition healingRun : option (BuildLoopResult * (Env * list Event)) :=
  execute (λ _, false) (λ _, "/tmp/mendix-widgets") (λ _ env, env) joinPath
    reactFailingGenerate analyze badgeConfig (optionsWith (Some (JsInt 2)))
    (envWith widgetWithImport).

End Examples.

(** ** The whole nucleus: templates, interfaces, practices and the file

    The state of a [DynamicPatterns] object with its four collections,
    and the methods that [DynamicPatterns] above leaves out.  The error
    fixes are handled by the operations of [DynamicPatterns]; here each
    method also marks the object dirty and writes it through [save]. *)

Module Nucleus.

Module DP := DynamicPatterns.

(** ['docs' | 'learned' | 'user'] *)
Inductive Source := Docs | Learned | User.

(** An element of [template.props]. *)
Record TemplateProp := {
  prop_name : string;
  prop_type : string;
  prop_description : string;
}.

(** The [template] member of [WidgetTemplatePattern]. *)
Record Template := {
  structure : string;
  imports : list string;
  props : list TemplateProp;
  mendixDataHandling : string;
}.

Record WidgetTemplatePattern := {
  tpl_id : string;
  widgetType : string;
  keywords : list string;
  template : Template;
  tpl_examples : list string;
  tpl_successCount : Z;
  tpl_lastUsed : string;
}.

Record SdkApiPattern := {
  api_id : string;
  apiName : string;
  correctUsage : string;
  commonMistakes : list string;
  mendixVersion : string;
  api_examples : list string;
  api_source : Source;
}.

Record BestPractice := {
  bp_id : string;
  category : string;
  title : string;
  bp_description : string;
  doThis : list string;
  dontDoThis : list string;
  codeExample : option string;
  bp_source : Source;
}.

Record DynamicPatternsData := {
  version : string;
  lastUpdated : string;
  errorFixes : list DP.ErrorFixPattern;
  widgetTemplates : list WidgetTemplatePattern;
  sdkApis : list SdkApiPattern;
  bestPractices : list BestPractice;
}.

(** The object: [this.patterns], [this.isDirty], and what the file at
    [this.patternsPath] holds ([None] while there is no file); the file
    holds the patterns as they were serialised. *)
Record State := {
  patterns : DynamicPatternsData;
  isDirty : bool;
  disk : option DynamicPatternsData;
}.

(** What one call of a method reads from its surroundings: the clock
    when a pattern is stamped ([new Date().toISOString()] and
    [Date.now()]), the clock when [save] stamps [lastUpdated], and
    whether the folder and the file can be written. *)
Record Call := {
  nowIso : string;
  nowMs : Z;
  savedAt : string;
  writable : bool;
}.

Definition withLastUpdated (now : string) (d : DynamicPatternsData)
  : DynamicPatternsData :=
  {| version := version d; lastUpdated := now; errorFixes := errorFixes d;
     widgetTemplates := widgetTemplates d; sdkApis := sdkApis d;
     bestPractices := bestPractices d |}.
Definition withErrorFixes (l : list DP.ErrorFixPattern) (d : DynamicPatternsData)
  : DynamicPatternsData :=
  {| version := version d; lastUpdated := lastUpdated d; errorFixes := l;
     widgetTemplates := widgetTemplates d; sdkApis := sdkApis d;
     bestPractices := bestPractices d |}.
Definition withWidgetTemplates (l : list WidgetTemplatePattern)
    (d : DynamicPatternsData) : DynamicPatternsData :=
  {| version := version d; lastUpdated := lastUpdated d;
     errorFixes := errorFixes d; widgetTemplates := l; sdkApis := sdkApis d;
     bestPractices := bestPractices d |}.
Definition withSdkApis (l : list SdkApiPattern) (d : DynamicPatternsData)
  : DynamicPatternsData :=
  {| version := version d; lastUpdated := lastUpdated d;
     errorFixes := errorFixes d; widgetTemplates := widgetTemplates d;
     sdkApis := l; bestPractices := bestPractices d |}.
Definition withBestPractices (l : list BestPractice) (d : DynamicPatternsData)
  : DynamicPatternsData :=
  {| version := version d; lastUpdated := lastUpdated d;
     errorFixes := errorFixes d; widgetTemplates := widgetTemplates d;
     sdkApis := sdkApis d; bestPractices := l |}.

(** [save()]: the [catch] leaves the flag set when the write throws. *)
Definition save (c : Call) (this : State) : State :=
  if negb (isDirty this) then this
  else
    let patterns' := withLastUpdated (savedAt c) (patterns this) in
    if writable c
    then {| patterns := patterns'; isDirty := false; disk := Some patterns' |}
    else {| patterns := patterns'; isDirty := true; disk := disk this |}.

(** [this.patterns = ...; this.isDirty = true; this.save()] *)
Definition commit (c : Call) (d : DynamicPatternsData) (this : State) : State :=
  save c {| patterns := d; isDirty := true; disk := disk this |}.

(** *** [getMatchingTemplates] *)

(** The loop over [pattern.keywords]. *)
Definition keywordScore (descLower : string) (keywords : list string) (score : Z) : Z :=
  fold_left
    (λ score keyword,
       if Js.includes descLower (Js.toLowerCase keyword) then score + 3 else score)
    keywords score.

(** The loop over [pattern.examples]. *)
Definition exampleScore (descLower : string) (examples : list string) (score : Z) : Z :=
  fold_left
    (λ score example,
       if Js.includes descLower (Js.toLowerCase example)
          || Js.includes (Js.toLowerCase example) descLower
       then score + 5 else score)
    examples score.

(** [score] as it stands before the test [score > 0]. *)
Definition rawScore (description : string) (p : WidgetTemplatePattern) : Z :=
  let descLower := Js.toLowerCase description in
  exampleScore descLower (tpl_examples p) (keywordScore descLower (keywords p) 0).

(** [score *= 1 + pattern.successCount / 5] *)
Definition boost (p : WidgetTemplatePattern) (score : Z) : Q :=
  Js.mul (inject_Z score) (Js.add 1 (Js.div (inject_Z (tpl_successCount p)) 5)).

Definition finalScore (description : string) (p : WidgetTemplatePattern) : Q :=
  boost p (rawScore description p).

(** An element [{ pattern, score }] of [matches]. *)
Record Match := {
  pattern : WidgetTemplatePattern;
  score : Q;
}.

(** [for (const pattern of this.patterns.widgetTemplates) { ... }] *)
Fixpoint collectMatches (description : string) (l : list WidgetTemplatePattern)
  : list Match :=
  match l with
  | [] => []
  | p :: l' =>
      let score := rawScore description p in
      if 0 <? score
      then {| pattern := p; score := boost p score |} :: collectMatches description l'
      else collectMatches description l'
  end.

(** [(a, b) => b.score - a.score] *)
Definition byScoreDesc (a b : Match) : Q := Js.sub (score b) (score a).

Definition getMatchingTemplates (description : string) (this : State)
  : list WidgetTemplatePattern :=
  pattern <$> sortBy byScoreDesc
                (collectMatches description (widgetTemplates (patterns this))).

Definition getSdkApiPatterns (this : State) : list SdkApiPattern :=
  sdkApis (patterns this).

(** [getBestPractices(category?)]: an empty [category] is falsy. *)
Definition getBestPractices (category_ : option string) (this : State)
  : list BestPractice :=
  match category_ with
  | Some (String c s) =>
      filter (λ p, category p = String c s) (bestPractices (patterns this))
  | _ => bestPractices (patterns this)
  end.

(** *** Learning methods *)

Definition learnErrorFix (errorText fixDescription : string)
    (fixDetails : DP.PartialFix) (success : bool) (c : Call) (this : State) : State :=
  commit c
    (withErrorFixes
       (DP.learnErrorFix errorText fixDescription fixDetails success
          (nowIso c) (nowMs c) (errorFixes (patterns this)))
       (patterns this))
    this.

(** The predicate of the [find] in [learnWidgetTemplate]. *)
Definition similarTemplate (widgetType_ : string) (keywords_ : list string)
    (p : WidgetTemplatePattern) : bool :=
  bool_decide (widgetType p = widgetType_)
  || Qltb (6 # 10) (DP.similarity (keywords p) keywords_).

(** The update of an existing template. *)
Definition reuse (description now : string) (p : WidgetTemplatePattern)
  : WidgetTemplatePattern :=
  {| tpl_id := tpl_id p; widgetType := widgetType p; keywords := keywords p;
     template := template p;
     tpl_examples := tpl_examples p ++ [description];
     tpl_successCount := tpl_successCount p + 1;
     tpl_lastUsed := now |}.

Definition learnWidgetTemplate (widgetType_ description templateCode : string)
    (props_ : list TemplateProp) (c : Call) (this : State) : State :=
  let keywords_ := DP.extractKeywords description in
  let templates := widgetTemplates (patterns this) in
  let templates' :=
    match findIndex (similarTemplate widgetType_ keywords_) templates with
    | Some existing => alter (reuse description (nowIso c)) existing templates
    | None =>
        templates ++
        [ {| tpl_id := "learned-" +:+ widgetType_ +:+ "-" +:+ pretty (nowMs c);
             widgetType := widgetType_;
             keywords := keywords_;
             template := {| structure := templateCode; imports := [];
                            props := props_;
                            mendixDataHandling := "Learned from successful build" |};
             tpl_examples := [description];
             tpl_successCount := 1;
             tpl_lastUsed := nowIso c |} ]
    end in
  commit c (withWidgetTemplates templates' (patterns this)) this.

(** The update of an existing interface pattern: [mistake] is recorded
    when it is a non-empty text not yet listed, and the usage is replaced
    by a longer one. *)
Definition amend (correctUsage_ : string) (mistake : option string)
    (p : SdkApiPattern) : SdkApiPattern :=
  {| api_id := api_id p; apiName := apiName p;
     correctUsage :=
       if bool_decide (String.length (correctUsage p) < String.length correctUsage_)%nat
       then correctUsage_ else correctUsage p;
     commonMistakes :=
       match mistake with
       | Some (String c m) =>
           if negb (bool_decide (String c m ∈ commonMistakes p))
           then commonMistakes p ++ [String c m] else commonMistakes p
       | _ => commonMistakes p
       end;
     mendixVersion := mendixVersion p; api_examples := api_examples p;
     api_source := api_source p |}.

Definition learnSdkApi (apiName_ correctUsage_ : string) (mistake : option string)
    (c : Call) (this : State) : State :=
  let apis := sdkApis (patterns this) in
  let apis' :=
    match findIndex (λ p, bool_decide (apiName p = apiName_)) apis with
    | Some existing => alter (amend correctUsage_ mistake) existing apis
    | None =>
        apis ++
        [ {| api_id := "learned-api-" +:+ pretty (nowMs c);
             apiName := apiName_;
             correctUsage := correctUsage_;
             commonMistakes :=
               match mistake with
               | Some (String c m) => [String c m]
               | _ => []
               end;
             mendixVersion := "9.0.0";
             api_examples := [];
             api_source := Learned |} ]
    end in
  commit c (withSdkApis apis' (patterns this)) this.

Definition learnBestPractice (category_ title_ description : string)
    (doThis_ dontDoThis_ : list string) (c : Call) (this : State) : State :=
  let practices := bestPractices (patterns this) in
  match findIndex
          (λ p, bool_decide (Js.toLowerCase (title p) = Js.toLowerCase title_))
          practices with
  | Some _ => this
  | None =>
      commit c
        (withBestPractices
           (practices ++
            [ {| bp_id := "learned-bp-" +:+ pretty (nowMs c);
                 category := category_;
                 title := title_;
                 bp_description := description;
                 doThis := doThis_;
                 dontDoThis := dontDoThis_;
                 codeExample := None;
                 bp_source := Learned |} ])
           (patterns this))
        this
  end.

Definition recordFixUsage (patternId : string) (success : bool) (c : Call)
    (this : State) : State :=
  let fixes := errorFixes (patterns this) in
  match findIndex (λ p, bool_decide (DP.id p = patternId)) fixes with
  | Some _ =>
      commit c
        (withErrorFixes (DP.recordFixUsage patternId success (nowIso c) fixes)
           (patterns this))
        this
  | None => this
  end.

(** *** [getStats] *)

(** [source === 'learned'] for the two kinds of source. *)
Definition fixLearned (s : DP.Source) : bool :=
  match s with DP.Learned => true | _ => false end.
Definition isLearned (s : Source) : bool :=
  match s with Learned => true | _ => false end.

Record Stats := {
  totalPatterns : nat;
  learnedPatterns : nat;
  stat_errorFixes : nat;
  stat_templates : nat;
  stat_sdkApis : nat;
  stat_bestPractices : nat;
}.

Definition getStats (this : State) : Stats :=
  let d := patterns this in
  let learned :=
    (length (filter (λ p, fixLearned (DP.source p)) (errorFixes d))
     + length (filter (λ p, isLearned (api_source p)) (sdkApis d))
     + length (filter (λ p, isLearned (bp_source p)) (bestPractices d)))%nat in
  {| totalPatterns :=
       (length (errorFixes d) + length (widgetTemplates d)
        + length (sdkApis d) + length (bestPractices d))%nat;
     learnedPatterns := learned;
     stat_errorFixes := length (errorFixes d);
     stat_templates := length (widgetTemplates d);
     stat_sdkApis := length (sdkApis d);
     stat_bestPractices := length (bestPractices d) |}.

End Nucleus.

(** ** The knowledge base of working fixes: [KnowledgeSharing] *)

Module KnowledgeSharing.

(** [[a-z0-9]] *)
Definition isSlugChar (c : ascii) : bool :=
  let n := Ascii.N_of_ascii c in
  ((97 <=? n) && (n <=? 122) || (48 <=? n) && (n <=? 57))%N.

(** [.replace(/[^a-z0-9]+/g, '-')]: each longest run of other characters
    becomes one dash; [inRun] tells that the dash of the current run was
    written. *)
Fixpoint dashRuns (inRun : bool) (s : string) : string :=
  match s with
  | "" => ""
  | String c s' =>
      if isSlugChar c then String c (dashRuns false s')
      else if inRun then dashRuns true s'
           else String "-" (dashRuns true s')
  end.

(** The removal of a dash that ends the text. *)
Fixpoint dropLastDash (s : string) : string :=
  match s with
  | "" => ""
  | String c "" => if bool_decide (c = "-"%char) then "" else s
  | String c s' => String c (dropLastDash s')
  end.

(** [.replace(/^-|-$/g, '')] *)
Definition trimDashes (s : string) : string :=
  dropLastDash (if Js.startsWith s "-" then Js.drop 1 s else s).

Definition slugify (text : string) : string :=
  Js.substring0 50 (trimDashes (dashRuns false (Js.toLowerCase text))).

(** The folder at [knowledgeBasePath] as [getKnownFixes] reads it: the
    names in the order of the listing, each with the members
    [errorPattern] and [fix] of the fix that the file holds, or [None]
    when reading or parsing the file throws.  A member that is missing
    reads as the empty text, which is falsy as well.  The whole is [None]
    when the path is not set or the listing throws. *)
Abbreviation Folder := (list (string * option (string * string))).
Abbreviation KnowledgeBase := (option Folder).

(** The loop over [errorKeywords]. *)
Definition wordScore (errorLower patternLower : string) : Z :=
  fold_left
    (λ score keyword,
       if bool_decide (3 < String.length keyword)%nat
          && Js.includes errorLower keyword
       then score + 1 else score)
    (Js.splitWs patternLower) 0.

(** An element of [fixes]. *)
Record ScoredFix := {
  errorPattern : string;
  fix_ : string;
  score : Z;
}.

(** [for (const file of files) { ... }] *)
Fixpoint collectFixes (errorLower : string) (files : Folder) : list ScoredFix :=
  match files with
  | [] => []
  | (file, parsed) :: files' =>
      if negb (Js.startsWith file "fix-") || negb (Js.endsWith file ".json")
      then collectFixes errorLower files'
      else
        match parsed with
        | Some (String c p, String c' f) =>
            let score := wordScore errorLower (Js.toLowerCase (String c p)) in
            if 0 <? score
            then {| errorPattern := String c p; fix_ := String c' f;
                    score := score |} :: collectFixes errorLower files'
            else collectFixes errorLower files'
        | _ => collectFixes errorLower files'
        end
  end.

(** [(a, b) => b.score - a.score] *)
Definition byScoreDesc (a b : ScoredFix) : Q :=
  (inject_Z (score b) - inject_Z (score a))%Q.

Definition getKnownFixes (errorText : string) (kb : KnowledgeBase)
  : list (string * string) :=
  match kb with
  | None => []
  | Some files =>
      (λ f, (errorPattern f, fix_ f))
        <$> take 3 (sortBy byScoreDesc
                      (collectFixes (Js.toLowerCase errorText) files))
  end.

End KnowledgeSharing.

(** ** Further notions used to state the properties *)

(** The results of the consultations of the fix chain, in order. *)
Definition consulted (e : BuildLoop.Event) : option BuildLoop.FixResult :=
  match e with BuildLoop.AnalyzeAndFix _ _ f => Some f | _ => None end.

(** Every character of a text passes a test. *)
Fixpoint allChars (P : ascii → bool) (s : string) : bool :=
  match s with
  | "" => true
  | String c s' => P c && allChars P s'
  end.

(** What the loop hands to its collaborators, for an event of a trace:
    the generator gets the configuration with the project path set
    according to [autoDeploy] and the work folder of the options when
    there is one; the fix chain gets the diagnostics of a failed call of
    the generator that the trace holds, and the folder of that widget:
    the [outputPath] of that result or, without one, [path.join] of the
    folder given to the generator and the name in lower case. *)
Definition fedFrom (pathJoin : string → string → string)
    (config : BuildLoop.WidgetConfig)
    (options : BuildLoop.BuildLoopOptions) (tr : list BuildLoop.Event)
    (e : BuildLoop.Event) : Prop :=
  match e with
  | BuildLoop.Progress _ => True
  | BuildLoop.Generate cfg folder _ =>
      cfg = {| BuildLoop.name := BuildLoop.name config;
               BuildLoop.mendixProjectPath :=
                 if default false (BuildLoop.autoDeploy options)
                 then BuildLoop.mendixProject options else None |}
      ∧ ∀ c f, BuildLoop.workFolder options = Some (String c f) →
               folder = String c f
  | BuildLoop.AnalyzeAndFix errs widgetPath _ =>
      ∃ cfg folder g,
        BuildLoop.Generate cfg folder g ∈ tr
        ∧ BuildLoop.success g = false
        ∧ errs = BuildLoop.errors g
        ∧ widgetPath
          = BuildLoop.orString (BuildLoop.outputPath g)
              (pathJoin folder (Js.toLowerCase (BuildLoop.name config)))
  end.

(** A character that a slug may hold: [[a-z0-9-]]. *)
Definition slugOrDash (c : ascii) : bool :=
  KnowledgeSharing.isSlugChar c || bool_decide (c = "-"%char).

(** A character that is not white space. *)
Definition notSpace (c : ascii) : bool := negb (Ascii.is_space c).

(** A confidence within the range that the nucleus maintains. *)
Definition inRange (p : DynamicPatterns.ErrorFixPattern) : Prop :=
  (1 # 10 <= DynamicPatterns.confidence p <= 1)%Q.

(** A pattern whose numbers are those that the nucleus writes: a
    confidence within range, and a count of successes that is a count
    (a whole number that is a JavaScript number, hence below [2^53]).
    The score of such a pattern does not overflow. *)
Definition inBounds (p : DynamicPatterns.ErrorFixPattern) : Prop :=
  inRange p ∧ 0 <= DynamicPatterns.successCount p < 2 ^ 53.

(** What of a pattern a use leaves alone. *)
Definition identity (p : DynamicPatterns.ErrorFixPattern) :=
  (DynamicPatterns.id p, DynamicPatterns.errorPattern p,
   DynamicPatterns.errorKeywords p, DynamicPatterns.fix_ p,
   DynamicPatterns.source p).

(** ** Further concrete inputs *)

Module Samples.
Import BuildLoop.

(** A text of 201 exclamation marks: longer than an error pattern may
    get, and without a keyword. *)
Definition noisyText : string := Js.join "" (replicate 201 "!").

(** A fix chain that applies nothing. *)
Definition idleFixChain (errs : list string) (cfg : WidgetConfig)
    (widgetPath : string) (w : unit) : FixResult * list string * unit :=
  ({| applied := false; description := "No AI model available for analysis" |},
   [], w).

(** The builtin pattern [missing-build-script]. *)
Definition buildScriptPattern : DP.ErrorFixPattern :=
  {| DP.id := "missing-build-script";
     DP.errorPattern := "missing script: build";
     DP.errorKeywords := ["missing"; "script"; "build"];
     DP.fix_ := {| DP.type := DP.ConfigChange; DP.file := Some "package.json";
                   DP.search := None; DP.replace := None;
                   DP.description := "Add missing build scripts to package.json";
                   DP.commands := None |};
     DP.confidence := 95 # 100; DP.successCount := 8; DP.failureCount := 0;
     DP.lastUsed := "2025-01-15T00:00:00.000Z"; DP.source := DP.Builtin |}.

(** A widget folder whose manifest has a build script of its own. *)
Definition customManifest : WidgetDir :=
  {| src := None;
     packageJson := Some {| scripts := Some {[ "build" := "rollup -c" ]} |} |}.

(** A nucleus with the builtin error fixes and nothing else, not yet
    written to its file, and the surroundings of a call at a given
    time. *)
Definition freshNucleus : Nucleus.State :=
  {| Nucleus.patterns :=
       {| Nucleus.version := "1.0.0";
          Nucleus.lastUpdated := "2025-01-15T00:00:00.000Z";
          Nucleus.errorFixes := Examples.builtinStore;
          Nucleus.widgetTemplates := [];
          Nucleus.sdkApis := [];
          Nucleus.bestPractices := [] |};
     Nucleus.isDirty := false;
     Nucleus.disk := None |}.
Definition callAt (ms : Z) (canWrite : bool) : Nucleus.Call :=
  {| Nucleus.nowIso := Examples.isoOf ms; Nucleus.nowMs := ms;
     Nucleus.savedAt := Examples.isoOf ms; Nucleus.writable := canWrite |}.

(** A nucleus with two templates whose scores for
    [Examples.keywordDiagnostic] are [9 * (1 + 1 / 5)] and
    [6 * (1 + 4 / 5)], which are 10.799999999999999 and 10.8 (the exact
    products are equal). *)
Definition templateOf (name : string) (keywords_ : list string) (n : Z)
  : Nucleus.WidgetTemplatePattern :=
  {| Nucleus.tpl_id := name; Nucleus.widgetType := name;
     Nucleus.keywords := keywords_;
     Nucleus.template :=
       {| Nucleus.structure := ""; Nucleus.imports := []; Nucleus.props := [];
          Nucleus.mendixDataHandling := "" |};
     Nucleus.tpl_examples := []; Nucleus.tpl_successCount := n;
     Nucleus.tpl_lastUsed := "2025-01-15T00:00:00.000Z" |}.
Definition twoTemplates : Nucleus.State :=
  {| Nucleus.patterns :=
       {| Nucleus.version := "1.0.0";
          Nucleus.lastUpdated := "2025-01-15T00:00:00.000Z";
          Nucleus.errorFixes := [];
          Nucleus.widgetTemplates :=
            [templateOf "A" ["alpha"; "beta"; "gamma"] 1;
             templateOf "B" ["alpha"; "beta"] 4];
          Nucleus.sdkApis := [];
          Nucleus.bestPractices := [] |};
     Nucleus.isDirty := false;
     Nucleus.disk := None |}.

(** Diagnostics that name a missing module in lower case only, and
    diagnostics of a strict null check. *)
Definition lowerCaseModuleDiagnostic : string :=
  "error: cannot find module 'lodash'".
Definition nullDiagnostic : string := "error TS2531: Object is possibly 'null'.".

End Samples.

(** ** Tactics *)

(** Membership in a trace written with [++] and [::], as a hypothesis and
    as a goal. *)
Ltac in_cases H :=
  repeat first
    [ apply elem_of_app in H as [H|H]
    | apply elem_of_cons in H as [H|H]
    | apply elem_of_nil in H; destruct H ];
  simplify_eq; try done.
Ltac in_goal :=
  solve [ repeat first
            [ assumption
            | apply list_elem_of_here
            | apply list_elem_of_further
            | apply elem_of_app; right ] ].


(** * Properties *)

(** * Facts about the string primitives *)

Section JsFacts.

Lemma startsWith_app (p s : string) : Js.startsWith (p +:+ s) p = true.
Proof.
  induction p as [|a p IH]; simpl; [done|].
  rewrite decide_True by done. exact IH.
Qed.


Lemma includes_startsWith (s sub : string) :
  Js.startsWith s sub = true → Js.includes s sub = true.
Proof. destruct s; simpl; [done|]. intros ->. done. Qed.

Lemma includes_app_l (p s : string) : Js.includes (p +:+ s) p = true.
Proof. apply includes_startsWith, startsWith_app. Qed.





End JsFacts.

(** * Facts about the numbers

    Rounding to the nearest double keeps the order and leaves a double as
    it is; the operations inherit this. *)

Section NumberFacts.
Import Js.
Local Open Scope Q_scope.

Lemma pow2_pos (z : Z) : 0 < 2 ^ z.
Proof. by apply Qpower_0_lt. Qed.

Lemma pow2_add (n m : Z) : 2 ^ (n + m) == 2 ^ n * 2 ^ m.
Proof. by apply Qpower_plus. Qed.

Lemma pow2_opp (n : Z) : 2 ^ n * 2 ^ (- n) == 1.
Proof. rewrite <- pow2_add. by replace (n + - n)%Z with 0%Z by lia. Qed.

Lemma pow2_le (n m : Z) : (n <= m)%Z -> 2 ^ n <= 2 ^ m.
Proof. intros H. by apply Qpower_le_compat_l. Qed.

Lemma pow2_lt_inv (n m : Z) : 2 ^ n < 2 ^ m -> (n < m)%Z.
Proof. intros H. by apply (Qpower_lt_compat_l_inv 2). Qed.

Lemma pow2_Z (n : Z) : (0 <= n)%Z -> 2 ^ n == inject_Z (2 ^ n).
Proof. intros H. by rewrite (Zpower_Qpower 2 n H). Qed.

(** The binary logarithm brackets a positive number. *)
Lemma ilog2_spec (q : Q) : 0 < q -> 2 ^ ilog2 q <= q /\ q < 2 ^ (ilog2 q + 1).
Proof.
  intros Hq. unfold ilog2.
  destruct q as [n d]. cbn [Qnum Qden].
  assert (Hn : (0 < n)%Z) by (unfold Qlt in Hq; cbn in Hq; lia).
  destruct (Z.log2_spec n Hn) as [Ha1 Ha2].
  destruct (Z.log2_spec (Z.pos d) (Pos2Z.is_pos d)) as [Hb1 Hb2].
  set (a := Z.log2 n) in *. set (b := Z.log2 (Z.pos d)) in *.
  assert (Ha : (0 <= a)%Z) by apply Z.log2_nonneg.
  assert (Hb : (0 <= b)%Z) by apply Z.log2_nonneg.
  assert (Hq' : (n # d) * inject_Z (Z.pos d) == inject_Z n).
  { unfold Qeq, Qmult, inject_Z. cbn. lia. }
  assert (HA1 : 2 ^ a <= inject_Z n) by (rewrite pow2_Z by done; by rewrite <- Zle_Qle).
  assert (HA2 : inject_Z n < 2 ^ (a + 1)).
  { rewrite pow2_Z by lia. rewrite <- Zlt_Qlt. by rewrite <- Z.add_1_r in Ha2. }
  assert (HB1 : 2 ^ b <= inject_Z (Z.pos d)) by (rewrite pow2_Z by done; by rewrite <- Zle_Qle).
  assert (HB2 : inject_Z (Z.pos d) < 2 ^ (b + 1)).
  { rewrite pow2_Z by lia. rewrite <- Zlt_Qlt. by rewrite <- Z.add_1_r in Hb2. }
  assert (HD : 0 < inject_Z (Z.pos d)) by (unfold Qlt; cbn; lia).
  assert (Hup : (n # d) < 2 ^ (a - b + 1)).
  { assert (E : 2 ^ (a - b + 1) * 2 ^ b == 2 ^ (a + 1)).
    { rewrite <- pow2_add. by replace (a - b + 1 + b)%Z with (a + 1)%Z by lia. }
    pose proof (pow2_pos b). pose proof (pow2_pos (a - b + 1)).
    set (P := 2 ^ (a - b + 1)) in *. set (B := 2 ^ b) in *.
    set (D := inject_Z (Z.pos d)) in *. set (N := inject_Z n) in *.
    set (A := 2 ^ (a + 1)) in *. set (q := n # d) in *.
    destruct (Qlt_le_dec q P) as [|Hle]; [done|exfalso].
    assert (0 <= (q - P) * B) by (apply Qmult_le_0_compat; lra).
    assert (0 <= q * (D - B)) by (apply Qmult_le_0_compat; lra).
    lra. }
  assert (Hlow : 2 ^ (a - b - 1) < (n # d)).
  { assert (E : 2 ^ (a - b - 1) * 2 ^ (b + 1) == 2 ^ a).
    { rewrite <- pow2_add. by replace (a - b - 1 + (b + 1))%Z with a by lia. }
    pose proof (pow2_pos (b + 1)). pose proof (pow2_pos (a - b - 1)).
    set (P := 2 ^ (a - b - 1)) in *. set (B := 2 ^ (b + 1)) in *.
    set (D := inject_Z (Z.pos d)) in *. set (N := inject_Z n) in *.
    set (A := 2 ^ a) in *. set (q := n # d) in *.
    destruct (Qlt_le_dec P q) as [|Hle]; [done|exfalso].
    assert (0 <= (P - q) * D) by (apply Qmult_le_0_compat; lra).
    assert (0 < P * (B - D)) by (apply Qmult_lt_0_compat; lra).
    lra. }
  destruct (Qle_bool (2 ^ (a - b)) (n # d)) eqn:Ht.
  - apply Qle_bool_iff in Ht. done.
  - split; [by apply Qlt_le_weak|].
    replace (a - b - 1 + 1)%Z with (a - b)%Z by lia.
    destruct (Qlt_le_dec (n # d) (2 ^ (a - b))) as [|Hle]; [done|].
    apply Qle_bool_iff in Hle. congruence.
Qed.

(** Only one exponent brackets a number. *)
Lemma ilog2_unique (q : Q) (e : Z) : 2 ^ e <= q -> q < 2 ^ (e + 1) -> ilog2 q = e.
Proof.
  intros H1 H2.
  assert (Hq : 0 < q) by (pose proof (pow2_pos e); lra).
  destruct (ilog2_spec q Hq) as [H3 H4].
  assert (ilog2 q < e + 1)%Z by (apply pow2_lt_inv; lra).
  assert (e < ilog2 q + 1)%Z by (apply pow2_lt_inv; lra).
  lia.
Qed.

Lemma ilog2_le (x y : Q) : 0 < x -> x <= y -> (ilog2 x <= ilog2 y)%Z.
Proof.
  intros Hx Hxy.
  destruct (ilog2_spec x Hx) as [H1 _].
  destruct (ilog2_spec y) as [_ H2]; [lra|].
  assert (ilog2 x < ilog2 y + 1)%Z by (apply pow2_lt_inv; lra).
  lia.
Qed.

(** Rounding to the nearest whole number. *)
Lemma rne_cases (q : Q) :
  (rne q = Qfloor q /\ q - inject_Z (Qfloor q) <= 1 # 2
   /\ (q - inject_Z (Qfloor q) == 1 # 2 -> Z.even (Qfloor q) = true))
  \/ (rne q = (Qfloor q + 1)%Z /\ 1 # 2 <= q - inject_Z (Qfloor q)
      /\ (q - inject_Z (Qfloor q) == 1 # 2 -> Z.even (Qfloor q) = false)).
Proof.
  unfold rne.
  destruct (Qcompare_spec (q - inject_Z (Qfloor q)) (1 # 2)) as [E|L|G].
  - destruct (Z.even (Qfloor q)) eqn:Hev; [left|right]; (split; [done|split; [lra|done]]).
  - left. split; [done|]. split; [lra|]. intros E. lra.
  - right. split; [done|]. split; [lra|]. intros E. lra.
Qed.

Lemma rne_Z (n : Z) : rne (inject_Z n) = n.
Proof.
  unfold rne. rewrite Qfloor_Z.
  destruct (Qcompare_spec (inject_Z n - inject_Z n) (1 # 2)) as [E|L|G]; [lra|done|lra].
Qed.

Lemma rne_le (x y : Q) : x <= y -> (rne x <= rne y)%Z.
Proof.
  intros Hxy. pose proof (Qfloor_resp_le x y Hxy) as Hf.
  pose proof (Qfloor_le x) as Hx1. pose proof (Qlt_floor x) as Hx2.
  pose proof (Qfloor_le y) as Hy1. pose proof (Qlt_floor y) as Hy2.
  destruct (rne_cases x) as [(-> & Hx & Hxe)|(-> & Hx & Hxe)];
    destruct (rne_cases y) as [(-> & Hy & Hye)|(-> & Hy & Hye)]; try lia.
  destruct (Z.eq_dec (Qfloor x) (Qfloor y)) as [E|]; [exfalso|lia].
  rewrite E in *.
  assert (Hx' : x - inject_Z (Qfloor y) == 1 # 2) by lra.
  assert (Hy' : y - inject_Z (Qfloor y) == 1 # 2) by lra.
  specialize (Hxe Hx'). specialize (Hye Hy'). congruence.
Qed.

Lemma rne_comp (x y : Q) : x == y -> rne x = rne y.
Proof.
  intros E. apply Z.le_antisymm; apply rne_le; lra.
Qed.

Lemma nearest_eq (q : Q) :
  nearest q == inject_Z (rne (q * 2 ^ scale q)) * 2 ^ (- scale q).
Proof. reflexivity. Qed.

Lemma scale_up (k s : Z) : inject_Z k * 2 ^ (- s) * 2 ^ s == inject_Z k.
Proof.
  rewrite <- Qmult_assoc. rewrite (Qmult_comm (2 ^ (- s))). rewrite pow2_opp. lra.
Qed.

(** The nearest double of a positive number does not leave its binade. *)
Lemma nearest_upper (q : Q) (e : Z) :
  0 < q -> q <= 2 ^ e -> (53 <= e + scale q)%Z -> nearest q <= 2 ^ e.
Proof.
  intros Hq Hle Hs. rewrite nearest_eq. set (s := scale q) in *.
  assert (Hm : q * 2 ^ s <= inject_Z (2 ^ (e + s))).
  { rewrite <- pow2_Z by lia. rewrite pow2_add.
    apply Qmult_le_compat_r; [done|]. apply Qlt_le_weak, pow2_pos. }
  apply rne_le in Hm. rewrite rne_Z in Hm.
  rewrite Zle_Qle in Hm. rewrite <- pow2_Z in Hm by lia.
  rewrite pow2_add in Hm.
  pose proof (pow2_pos s). pose proof (pow2_pos (- s)). pose proof (pow2_opp s) as Ho.
  set (K := inject_Z (rne (q * 2 ^ s))) in *.
  assert (K * 2 ^ (- s) <= 2 ^ e * 2 ^ s * 2 ^ (- s)).
  { apply Qmult_le_compat_r; [done|lra]. }
  rewrite <- Qmult_assoc in H1. rewrite Ho in H1. lra.
Qed.

Lemma nearest_lower (q : Q) (e : Z) :
  2 ^ e <= q -> (0 <= e + scale q)%Z -> 2 ^ e <= nearest q.
Proof.
  intros Hle Hs. rewrite nearest_eq. set (s := scale q) in *.
  assert (Hm : inject_Z (2 ^ (e + s)) <= q * 2 ^ s).
  { rewrite <- pow2_Z by lia. rewrite pow2_add.
    apply Qmult_le_compat_r; [done|]. apply Qlt_le_weak, pow2_pos. }
  apply rne_le in Hm. rewrite rne_Z in Hm.
  rewrite Zle_Qle in Hm. rewrite <- pow2_Z in Hm by lia.
  rewrite pow2_add in Hm.
  pose proof (pow2_pos s). pose proof (pow2_pos (- s)). pose proof (pow2_opp s) as Ho.
  set (K := inject_Z (rne (q * 2 ^ s))) in *.
  assert (2 ^ e * 2 ^ s * 2 ^ (- s) <= K * 2 ^ (- s)).
  { apply Qmult_le_compat_r; [done|lra]. }
  rewrite <- Qmult_assoc in H1. rewrite Ho in H1. lra.
Qed.

Lemma nearest_nonneg (q : Q) : 0 <= q -> 0 <= nearest q.
Proof.
  intros Hq. rewrite nearest_eq.
  apply Qmult_le_0_compat; [|apply Qlt_le_weak, pow2_pos].
  assert (Hm : inject_Z 0 <= q * 2 ^ scale q).
  { apply Qmult_le_0_compat; [done|apply Qlt_le_weak, pow2_pos]. }
  apply rne_le in Hm. rewrite rne_Z in Hm. by rewrite Zle_Qle in Hm.
Qed.

Lemma nearest_le (x y : Q) : 0 < x -> x <= y -> nearest x <= nearest y.
Proof.
  intros Hx Hxy.
  assert (Hy : 0 < y) by lra.
  pose proof (ilog2_le x y Hx Hxy) as He.
  destruct (ilog2_spec x Hx) as [Hx1 Hx2]. destruct (ilog2_spec y Hy) as [Hy1 Hy2].
  destruct (Z.eq_dec (scale x) (scale y)) as [E|Hne].
  - rewrite !nearest_eq, E. apply Qmult_le_compat_r; [|apply Qlt_le_weak, pow2_pos].
    rewrite <- Zle_Qle. apply rne_le.
    apply Qmult_le_compat_r; [done|apply Qlt_le_weak, pow2_pos].
  - assert (Hs : (scale y < scale x)%Z) by (unfold scale in *; lia).
    assert (Hsy : scale y = (52 - ilog2 y)%Z) by (unfold scale in *; lia).
    assert (Hlt : (ilog2 x < ilog2 y)%Z) by (unfold scale in *; lia).
    apply Qle_trans with (2 ^ ilog2 y).
    + apply nearest_upper; [done| |lia].
      apply Qle_trans with (2 ^ (ilog2 x + 1)); [lra|]. apply pow2_le. lia.
    + apply nearest_lower; [done|lia].
Qed.

(** A whole multiple of a power of two that fits the format is a double. *)
Lemma nearest_fixed (r : Q) (k s : Z) :
  (0 <= k <= 2 ^ 53)%Z -> (s <= 1074)%Z ->
  r == inject_Z k * 2 ^ (- s) -> nearest r == r.
Proof.
  intros Hk Hs Hr.
  assert (Hrs : r * 2 ^ s == inject_Z k) by (rewrite Hr; apply scale_up).
  assert (Hint : exists n, r * 2 ^ scale r == inject_Z n).
  { destruct (Z.eq_dec k 0%Z) as [->|Hk0].
    { exists 0%Z. set (p := 2 ^ scale r). rewrite Hr. change (inject_Z 0) with 0. ring. }
    assert (Hpos : 0 < r).
    { rewrite Hr. apply Qmult_lt_0_compat; [|apply pow2_pos].
      change 0 with (inject_Z 0). rewrite <- Zlt_Qlt. lia. }
    destruct (ilog2_spec r Hpos) as [H1 H2].
    destruct (Z_le_gt_dec s (scale r)) as [Hle|Hgt].
    - exists (k * 2 ^ (scale r - s))%Z.
      rewrite inject_Z_mult. rewrite <- pow2_Z by lia.
      replace (scale r) with (s + (scale r - s))%Z at 1 by lia.
      rewrite pow2_add. rewrite Qmult_assoc. by rewrite Hrs.
    - assert (Hsr : scale r = (52 - ilog2 r)%Z) by (unfold scale in *; lia).
      assert (He : (53 - s <= ilog2 r)%Z) by lia.
      assert (Hk53 : inject_Z (2 ^ 53) <= inject_Z k).
      { rewrite <- Hrs. rewrite <- pow2_Z by lia.
        replace 53%Z with ((53 - s) + s)%Z by lia. rewrite pow2_add.
        apply Qmult_le_compat_r; [|apply Qlt_le_weak, pow2_pos].
        apply Qle_trans with (2 ^ ilog2 r); [by apply pow2_le|done]. }
      rewrite <- Zle_Qle in Hk53.
      assert (Ek : k = (2 ^ 53)%Z) by lia.
      assert (Er : r == 2 ^ (53 - s)).
      { rewrite Hr, Ek. rewrite <- pow2_Z by lia. by rewrite <- pow2_add. }
      assert (El : ilog2 r = (53 - s)%Z).
      { apply ilog2_unique; [lra|]. rewrite Er.
        apply Qpower_lt_compat_l; [lia|done]. }
      exists (2 ^ 52)%Z. rewrite Hsr, El, Er. rewrite <- pow2_add.
      replace (53 - s + (52 - (53 - s)))%Z with 52%Z by lia. by apply pow2_Z. }
  destruct Hint as [n Hn]. rewrite nearest_eq.
  rewrite (rne_comp _ _ Hn), rne_Z, <- Hn.
  rewrite <- Qmult_assoc, pow2_opp. lra.
Qed.

Lemma nearest_zero (q : Q) : q == 0 -> nearest q == 0.
Proof.
  intros E. rewrite (nearest_fixed q 0 0); [done|lia|lia|].
  rewrite E. change (inject_Z 0) with 0. ring.
Qed.

Lemma nearest_double (q : Q) : 0 <= q -> nearest (nearest q) == nearest q.
Proof.
  intros Hq0.
  destruct (Qeq_dec q 0) as [E|Hne].
  { pose proof (nearest_zero q E) as E1. pose proof (nearest_zero _ E1) as E2. lra. }
  assert (Hq : 0 < q).
  { destruct (Qlt_le_dec 0 q) as [|Hle]; [done|]. exfalso. apply Hne. lra. }
  destruct (ilog2_spec q Hq) as [H1 H2].
  set (k := rne (q * 2 ^ scale q)).
  assert (Hs : (scale q <= 1074)%Z) by (unfold scale; lia).
  assert (Hs' : (scale q <= 52 - ilog2 q)%Z) by (unfold scale; lia).
  assert (Hk0 : (0 <= k)%Z).
  { assert (Hm : inject_Z 0 <= q * 2 ^ scale q).
    { apply Qmult_le_0_compat; [lra|apply Qlt_le_weak, pow2_pos]. }
    apply rne_le in Hm. by rewrite rne_Z in Hm. }
  assert (Hk1 : (k <= 2 ^ 53)%Z).
  { assert (Hm : q * 2 ^ scale q <= inject_Z (2 ^ 53)).
    { rewrite <- pow2_Z by lia.
      apply Qle_trans with (2 ^ (ilog2 q + 1) * 2 ^ scale q).
      - apply Qmult_le_compat_r; [lra|apply Qlt_le_weak, pow2_pos].
      - rewrite <- pow2_add. apply pow2_le. lia. }
    apply rne_le in Hm. by rewrite rne_Z in Hm. }
  by apply (nearest_fixed (nearest q) k (scale q)).
Qed.

Lemma nearest_mono (x y : Q) : 0 <= x -> x <= y -> nearest x <= nearest y.
Proof.
  intros Hx Hxy.
  destruct (Qeq_dec x 0) as [E|Hne].
  - rewrite (nearest_zero x E). apply nearest_nonneg. lra.
  - apply nearest_le; [|done].
    destruct (Qlt_le_dec 0 x) as [|Hle]; [done|]. exfalso. apply Hne. lra.
Qed.

Lemma nearest_comp (x y : Q) : 0 <= x -> x == y -> nearest x == nearest y.
Proof.
  intros Hx E. apply Qle_antisym; apply nearest_mono; lra.
Qed.

Lemma double_nonneg_eq (q : Q) : 0 <= q -> double q == nearest q.
Proof.
  intros Hq. unfold double. rewrite Qred_correct.
  destruct (Z.ltb_spec (Qnum q) 0) as [Hn|Hn]; [|done].
  exfalso. unfold Qle in Hq. cbn in Hq. lia.
Qed.

Lemma double_neg_eq (q : Q) : q < 0 -> double q == - nearest (- q).
Proof.
  intros Hq. unfold double. rewrite Qred_correct.
  destruct (Z.ltb_spec (Qnum q) 0) as [Hn|Hn]; [done|].
  exfalso. unfold Qlt in Hq. cbn in Hq. lia.
Qed.

(** Rounding keeps the order. *)
Lemma double_le (x y : Q) : x <= y -> double x <= double y.
Proof.
  intros Hxy.
  destruct (Qlt_le_dec x 0) as [Hx|Hx]; destruct (Qlt_le_dec y 0) as [Hy|Hy].
  - rewrite (double_neg_eq x Hx), (double_neg_eq y Hy).
    assert (nearest (- y) <= nearest (- x)) by (apply nearest_mono; lra). lra.
  - rewrite (double_neg_eq x Hx), (double_nonneg_eq y Hy).
    pose proof (nearest_nonneg (- x)). pose proof (nearest_nonneg y). lra.
  - lra.
  - rewrite (double_nonneg_eq x Hx), (double_nonneg_eq y Hy). by apply nearest_mono.
Qed.

(** Equal numbers have the same double, in lowest terms. *)
Lemma double_comp (x y : Q) : x == y -> double x = double y.
Proof.
  intros E. unfold double. apply Qred_complete.
  assert (H : double x == double y) by (apply Qle_antisym; apply double_le; lra).
  unfold double in H. by rewrite !Qred_correct in H.
Qed.

Lemma double_red (q : Q) : Qred (double q) = double q.
Proof. unfold double. apply Qred_complete, Qred_correct. Qed.

(** A double rounds to itself. *)
Lemma double_double (q : Q) : double (double q) = double q.
Proof.
  assert (H : double (double q) == double q).
  { destruct (Qlt_le_dec q 0) as [Hq|Hq].
    - pose proof (double_neg_eq q Hq) as E.
      pose proof (nearest_nonneg (- q)) as Hn.
      destruct (Qeq_dec (nearest (- q)) 0) as [E0|Hne].
      + assert (Ez : double q == 0) by lra.
        rewrite (double_comp _ _ Ez), Ez. reflexivity.
      + assert (Hlt : double q < 0).
        { rewrite E. destruct (Qlt_le_dec 0 (nearest (- q))) as [|Hle]; [lra|].
          exfalso. apply Hne. apply Qle_antisym; [done|]. apply Hn. lra. }
        rewrite (double_neg_eq _ Hlt).
        rewrite (nearest_comp (- double q) (nearest (- q))); [| |lra].
        * rewrite nearest_double by lra. lra.
        * lra.
    - pose proof (double_nonneg_eq q Hq) as E.
      pose proof (nearest_nonneg q Hq) as Hn.
      rewrite (double_nonneg_eq (double q)) by lra.
      rewrite (nearest_comp (double q) (nearest q)) by lra.
      rewrite nearest_double by done. lra. }
  etransitivity; [symmetry; apply double_red|].
  etransitivity; [|apply double_red]. by apply Qred_complete.
Qed.

Lemma double_0 : double 0 = 0.
Proof. by vm_compute. Qed.

Lemma double_1 : double 1 = 1.
Proof. by vm_compute. Qed.

Lemma double_nonneg (q : Q) : 0 <= q -> 0 <= double q.
Proof. intros H. rewrite <- double_0. by apply double_le. Qed.


(** The doubles lie on a grid of step [2^-1074]. *)
Lemma double_grid (q : Q) : ∃ n, double q == inject_Z n * 2 ^ (-1074).
Proof.
  assert (Hn : ∀ a, ∃ n, nearest a == inject_Z n * 2 ^ (-1074)).
  { intros a. exists (rne (a * 2 ^ scale a) * 2 ^ (1074 - scale a))%Z.
    rewrite nearest_eq, inject_Z_mult.
    assert (Hs : (scale a <= 1074)%Z) by (unfold scale; lia).
    rewrite <- pow2_Z by lia. rewrite <- Qmult_assoc, <- pow2_add.
    by replace (1074 - scale a + -1074)%Z with (- scale a)%Z by lia. }
  destruct (Qlt_le_dec q 0) as [Hq|Hq].
  - destruct (Hn (- q)) as [n E]. exists (- n)%Z.
    rewrite (double_neg_eq q Hq), E, inject_Z_opp. ring.
  - destruct (Hn q) as [n E]. exists n. by rewrite (double_nonneg_eq q Hq).
Qed.

(** The difference of two doubles is not rounded to zero, so that the
    double nearest to it has its sign. *)
Lemma double_diff_pos (x y : Q) :
  double x = x → double y = y → 0 < double (x - y) ↔ y < x.
Proof.
  intros Hx Hy. split.
  - intros H. destruct (Qlt_le_dec y x) as [|Hle]; [done|exfalso].
    assert (double (x - y) <= double 0) by (apply double_le; lra).
    rewrite double_0 in H0. lra.
  - intros H.
    destruct (double_grid x) as [n Hn]. destruct (double_grid y) as [m Hm].
    rewrite Hx in Hn. rewrite Hy in Hm.
    pose proof (pow2_pos (-1074)) as Hg.
    assert (Hnm : (m < n)%Z).
    { destruct (Z_lt_le_dec m n) as [|Hle]; [done|exfalso].
      rewrite Zle_Qle in Hle.
      assert (inject_Z n * 2 ^ (-1074) <= inject_Z m * 2 ^ (-1074))
        by (apply Qmult_le_compat_r; [done|lra]).
      lra. }
    assert (Hstep : 2 ^ (-1074) <= x - y).
    { rewrite Hn, Hm.
      assert (inject_Z (m + 1) <= inject_Z n) by (rewrite <- Zle_Qle; lia).
      rewrite inject_Z_plus in H0.
      assert (0 <= (inject_Z n - (inject_Z m + inject_Z 1)) * 2 ^ (-1074))
        by (apply Qmult_le_0_compat; lra).
      change (inject_Z 1) with 1 in *. lra. }
    apply double_le in Hstep.
    assert (E : double (2 ^ (-1074)) == 2 ^ (-1074)) by (by vm_compute).
    lra.
Qed.

Lemma sub_pos (x y : Q) :
  double x = x → double y = y → 0 < Js.sub x y ↔ y < x.
Proof.
  intros Hx Hy. unfold Js.sub. rewrite Hx, Hy. by apply double_diff_pos.
Qed.

Lemma double_add (x y : Q) : double (Js.add x y) = Js.add x y.
Proof. apply double_double. Qed.
Lemma double_sub (x y : Q) : double (Js.sub x y) = Js.sub x y.
Proof. apply double_double. Qed.
Lemma double_mul (x y : Q) : double (Js.mul x y) = Js.mul x y.
Proof. apply double_double. Qed.
Lemma double_div (x y : Q) : double (Js.div x y) = Js.div x y.
Proof. apply double_double. Qed.

Lemma add_le (x x' y y' : Q) :
  double x <= double x' → double y <= double y' → Js.add x y <= Js.add x' y'.
Proof. intros H1 H2. apply double_le. lra. Qed.

Lemma sub_le (x x' y y' : Q) :
  double x <= double x' → double y' <= double y → Js.sub x y <= Js.sub x' y'.
Proof. intros H1 H2. apply double_le. lra. Qed.

Lemma mul_le (x x' y y' : Q) :
  0 <= double x <= double x' → 0 <= double y <= double y' →
  Js.mul x y <= Js.mul x' y'.
Proof.
  intros [H1 H2] [H3 H4]. apply double_le.
  apply Qle_trans with (double x' * double y).
  - apply Qmult_le_compat_r; done.
  - rewrite !(Qmult_comm (double x')). apply Qmult_le_compat_r; lra.
Qed.

Lemma mul_nonneg (x y : Q) : 0 <= double x → 0 <= double y → 0 <= Js.mul x y.
Proof.
  intros H1 H2. apply double_nonneg. by apply Qmult_le_0_compat.
Qed.

Lemma div_le (x x' y : Q) :
  0 < double y → double x <= double x' → Js.div x y <= Js.div x' y.
Proof.
  intros Hy H. apply double_le. unfold Qdiv.
  apply Qmult_le_compat_r; [done|]. apply Qlt_le_weak, Qinv_lt_0_compat, Hy.
Qed.

(** A whole number of at most 53 bits is a double. *)
Lemma double_Z (z : Z) : (0 <= z <= 2 ^ 53)%Z → double (inject_Z z) == inject_Z z.
Proof.
  intros Hz. rewrite double_nonneg_eq.
  - apply (nearest_fixed _ z 0); [done|lia|]. change (2 ^ (- 0)) with 1. ring.
  - change 0 with (inject_Z 0). rewrite <- Zle_Qle. lia.
Qed.

(** The quotient of two whole numbers below [2^50] is above 0.7, or
    above 0.6, exactly when the double nearest to it is above the double
    that the numeral denotes. *)
Lemma quotient_threshold (k n a : Z) :
  (0 <= k <= n)%Z → (0 < n < 2 ^ 50)%Z → a = 7%Z ∨ a = 6%Z →
  double (a # 10) < Js.div (inject_Z k) (inject_Z n)
  ↔ a # 10 < inject_Z k / inject_Z n.
Proof.
  intros Hk Hn Ha.
  assert (HN : 0 < inject_Z n)
    by (change 0 with (inject_Z 0); rewrite <- Zlt_Qlt; lia).
  assert (HN' : inject_Z n <= inject_Z (2 ^ 50)) by (rewrite <- Zle_Qle; lia).
  assert (E : Js.div (inject_Z k) (inject_Z n) = double (inject_Z k / inject_Z n)).
  { unfold Js.div. apply double_comp.
    rewrite (double_Z k), (double_Z n) by lia. reflexivity. }
  rewrite E. set (q := inject_Z k / inject_Z n).
  assert (Hq : q * inject_Z n == inject_Z k)
    by (unfold q; field; lra).
  split.
  - intros Hlt. destruct (Qlt_le_dec (a # 10) q) as [|Hle]; [done|exfalso].
    apply double_le in Hle. lra.
  - intros Hlt.
    assert (Hstep : (a # 10) + (1 # 10) * / inject_Z (2 ^ 50) <= q).
    { assert (Hz : (a * n + 1 <= 10 * k)%Z).
      { assert (Hlt' : (a # 10) * inject_Z n < inject_Z k).
        { rewrite <- Hq. apply Qmult_lt_compat_r; done. }
        unfold Qlt in Hlt'. cbn in Hlt'. lia. }
      rewrite Zle_Qle, inject_Z_plus, !inject_Z_mult in Hz.
      assert (Hinv : / inject_Z (2 ^ 50) * inject_Z n <= 1).
      { assert (0 < inject_Z (2 ^ 50)) by done.
        rewrite Qmult_comm. apply Qle_shift_div_r; [done|]. lra. }
      apply Qle_trans with (((a # 10) * inject_Z n + (1 # 10)) / inject_Z n).
      - apply Qle_shift_div_l; [done|].
        assert (0 <= (1 # 10) * (1 - / inject_Z (2 ^ 50) * inject_Z n))
          by (apply Qmult_le_0_compat; lra).
        lra.
      - apply Qle_shift_div_r; [done|]. rewrite Hq.
        destruct Ha as [-> | ->];
          change (inject_Z 1) with 1 in Hz; change (inject_Z 10) with 10 in Hz.
        + change (inject_Z 7) with 7 in Hz. lra.
        + change (inject_Z 6) with 6 in Hz. lra. }
    apply double_le in Hstep.
    assert (double (a # 10) < double ((a # 10) + (1 # 10) * / inject_Z (2 ^ 50)))
      by (destruct Ha as [-> | ->]; by vm_compute).
    lra.
Qed.

End NumberFacts.

(** * Facts about the array primitives *)

Lemma Qltb_lt (x y : Q) : Qltb x y = true ↔ (x < y)%Q.
Proof.
  unfold Qltb. rewrite negb_true_iff. split.
  - intros H. destruct (Qlt_le_dec x y) as [|Hle]; [done|].
    apply Qle_bool_iff in Hle. congruence.
  - intros H. destruct (Qle_bool y x) eqn:E; [|done].
    apply Qle_bool_iff in E. lra.
Qed.

(** [sort] reads the sign of [b.score - a.score], which is the sign of
    the exact difference of the two scores. *)
Lemma Qltb_sub (x y : Q) :
  Js.double x = x → Js.double y = y → Qltb 0 (Js.sub x y) = Qltb 0 (x - y)%Q.
Proof.
  intros Hx Hy. apply Bool.eq_iff_eq_true.
  rewrite !Qltb_lt, (sub_pos x y Hx Hy). split; lra.
Qed.

Section ArrayFacts.
Context {A : Type}.

Lemma findIndex_None (f : A → bool) (l : list A) :
  (∀ x, x ∈ l → f x = false) → findIndex f l = None.
Proof.
  induction l as [|x l IH]; intros H; simpl; [done|].
  rewrite (H x) by left. rewrite IH; [done|].
  intros y Hy. apply H. by right.
Qed.

Lemma findIndex_Some (f : A → bool) (l : list A) (i : nat) :
  findIndex f l = Some i → ∃ x, l !! i = Some x ∧ f x = true.
Proof.
  revert i. induction l as [|x l IH]; intros i; simpl; [done|].
  destruct (f x) eqn:E.
  - intros [= <-]. eauto.
  - destruct (findIndex f l) as [j|]; simpl; [|done].
    intros [= <-]. destruct (IH j eq_refl) as (y & ? & ?). eauto.
Qed.

(** An update of the object found that does not change the outcome of the
    test leaves it the object found. *)
Lemma findIndex_alter (f : A → bool) (g : A → A) (l : list A) (i : nat) :
  (∀ x, f (g x) = f x) → findIndex f l = Some i →
  findIndex f (alter g i l) = Some i.
Proof.
  intros Hg. revert i. induction l as [|x l IH]; intros i; simpl; [done|].
  destruct (f x) eqn:E.
  - intros [= <-]. simpl. by rewrite Hg, E.
  - destruct (findIndex f l) as [j|] eqn:Ej; simpl; [|done].
    intros [= <-]. change (findIndex f (x :: alter g j l) = Some (S j)).
    simpl. by rewrite E, (IH j eq_refl).
Qed.

(** *** [sortBy] with a comparator that subtracts keys *)

Variable key : A → Q.

Lemma Qltb_desc (x y : A) : Qltb 0 (byKeyDesc key x y) = true ↔ (key x < key y)%Q.
Proof. unfold byKeyDesc. rewrite Qltb_lt. split; lra. Qed.

Lemma insertBy_perm (cmp : A → A → Q) (x : A) (l : list A) :
  insertBy cmp x l ≡ₚ x :: l.
Proof.
  induction l as [|y l IH]; simpl; [done|].
  destruct (Qltb 0 (cmp x y)); [|done].
  rewrite IH. apply Permutation_swap.
Qed.

Lemma sortBy_perm (cmp : A → A → Q) (l : list A) : sortBy cmp l ≡ₚ l.
Proof.
  induction l as [|x l IH]; simpl; [done|].
  unfold sortBy in *. simpl. by rewrite insertBy_perm, IH.
Qed.

Lemma insertBy_sorted (x : A) (l : list A) :
  StronglySorted (descendingBy key) l → StronglySorted (descendingBy key) (insertBy (byKeyDesc key) x l).
Proof.
  induction 1 as [|y l Hl IH Hy]; simpl.
  - repeat constructor.
  - destruct (Qltb 0 (byKeyDesc key x y)) eqn:E.
    + apply Qltb_desc in E. constructor; [done|].
      apply Forall_forall. intros z Hz.
      apply (elem_of_Permutation_proper _ _ _ (insertBy_perm (byKeyDesc key) x l)) in Hz.
      apply elem_of_cons in Hz as [->|Hz].
      * unfold descendingBy. lra.
      * by eapply Forall_forall in Hy.
    + assert (key y <= key x)%Q as Hle.
      { destruct (Qlt_le_dec (key x) (key y)) as [Hlt|]; [|done].
        apply Qltb_desc in Hlt. congruence. }
      constructor; [by constructor|].
      constructor; [done|].
      eapply Forall_impl; [exact Hy|].
      intros z Hz. unfold descendingBy in *. lra.
Qed.

Lemma sortBy_sorted (l : list A) : StronglySorted (descendingBy key) (sortBy (byKeyDesc key) l).
Proof.
  induction l as [|x l IH]; [constructor|].
  by apply insertBy_sorted.
Qed.

(** Stability: among the elements of a given key the order is kept. *)
Lemma insertBy_stable (v : Q) (x : A) (l : list A) :
  filter (λ a, Qeq_bool (key a) v) (insertBy (byKeyDesc key) x l)
  = filter (λ a, Qeq_bool (key a) v) (x :: l).
Proof.
  induction l as [|y l IH]; simpl; [done|].
  destruct (Qltb 0 (byKeyDesc key x y)) eqn:E; [|done].
  apply Qltb_desc in E.
  rewrite (filter_cons _ y), IH, !(filter_cons _ x), (filter_cons _ y).
  destruct (decide (Qeq_bool (key x) v)) as [Hx|Hx]; [|done].
  destruct (decide (Qeq_bool (key y) v)) as [Hy|Hy]; [|done].
  apply Is_true_true, Qeq_bool_iff in Hx, Hy. lra.
Qed.

Lemma sortBy_stable (v : Q) (l : list A) :
  filter (λ a, Qeq_bool (key a) v) (sortBy (byKeyDesc key) l)
  = filter (λ a, Qeq_bool (key a) v) l.
Proof.
  induction l as [|x l IH]; [done|].
  change (sortBy (byKeyDesc key) (x :: l)) with (insertBy (byKeyDesc key) x (sortBy (byKeyDesc key) l)).
  by rewrite insertBy_stable, !(filter_cons _ x), IH.
Qed.

(** A sorted list is determined by the sub-lists of its elements of each
    key: whatever the algorithm, a stable sort yields the result of
    [sortBy]. *)
Lemma sorted_stable_unique (l1 l2 : list A) :
  StronglySorted (descendingBy key) l1 →
  StronglySorted (descendingBy key) l2 →
  (∀ v, filter (λ a, Qeq_bool (key a) v) l1 = filter (λ a, Qeq_bool (key a) v) l2) →
  l1 = l2.
Proof.
  assert (∀ (x : A) (l k : list A),
             filter (λ a, Qeq_bool (key a) (key x)) (x :: l) = k → x ∈ k) as Hhead.
  { intros x l k <-. rewrite filter_cons_True; [left|].
    apply Is_true_true, Qeq_bool_iff. reflexivity. }
  assert (∀ (x y : A) (l : list A),
             StronglySorted (descendingBy key) (x :: l) → y ∈ x :: l →
             (key y <= key x)%Q) as Hmax.
  { intros x y l Hs [->|Hy]%elem_of_cons; [apply Qle_refl|].
    apply StronglySorted_inv in Hs as [_ Hall].
    by eapply Forall_forall in Hall. }
  revert l2. induction l1 as [|x l1 IH]; intros l2 Hs1 Hs2 Hfilter.
  - destruct l2 as [|y l2]; [done|].
    specialize (Hhead y l2 _ (eq_sym (Hfilter (key y)))). by apply elem_of_nil in Hhead.
  - destruct l2 as [|y l2].
    { specialize (Hhead x l1 _ (Hfilter (key x))). by apply elem_of_nil in Hhead. }
    assert (key x == key y)%Q as Hkey.
    { apply Qle_antisym.
      - apply (Hmax y x l2 Hs2).
        pose proof (Hhead x l1 _ (Hfilter (key x))) as Hin.
        by apply list_elem_of_filter in Hin as [_ Hin].
      - apply (Hmax x y l1 Hs1).
        pose proof (Hhead y l2 _ (eq_sym (Hfilter (key y)))) as Hin.
        by apply list_elem_of_filter in Hin as [_ Hin]. }
    pose proof (Hfilter (key x)) as Hx.
    rewrite !filter_cons_True in Hx
      by (apply Is_true_true, Qeq_bool_iff; by rewrite ?Hkey).
    injection Hx as <- Hrest. f_equal.
    apply StronglySorted_inv in Hs1 as [Hs1 _].
    apply StronglySorted_inv in Hs2 as [Hs2 _].
    apply IH; [done|done|]. intros v.
    destruct (Qeq_bool (key x) v) eqn:Hv.
    + apply Qeq_bool_iff in Hv.
      rewrite !(list_filter_iff (λ a, Qeq_bool (key a) v)
                  (λ a, Qeq_bool (key a) (key x))); [done|..];
        intros a; rewrite !Is_true_true, !Qeq_bool_iff, Hv; done.
    + specialize (Hfilter v).
      by rewrite !filter_cons_False in Hfilter by (rewrite Hv; simpl; tauto).
Qed.

Lemma sortBy_unique (l sorted : list A) :
  StronglySorted (descendingBy key) sorted →
  (∀ v, filter (λ a, Qeq_bool (key a) v) sorted = filter (λ a, Qeq_bool (key a) v) l) →
  sorted = sortBy (byKeyDesc key) l.
Proof.
  intros Hsorted Hstable. apply sorted_stable_unique; [done|apply sortBy_sorted|].
  intros v. by rewrite sortBy_stable.
Qed.

End ArrayFacts.

Section SortMap.
Context {A B : Type} (f : A → B) (cmpA : A → A → Q) (cmpB : B → B → Q).
Variable P : A → Prop.
Hypothesis cmp_agree :
  ∀ a b, P a → P b → Qltb 0 (cmpA a b) = Qltb 0 (cmpB (f a) (f b)).

Lemma insertBy_fmap (x : A) (l : list A) :
  P x → Forall P l → f <$> insertBy cmpA x l = insertBy cmpB (f x) (f <$> l).
Proof.
  intros Hx. induction 1 as [|y l Hy Hl IH]; [done|].
  rewrite (fmap_cons f y l). cbn [insertBy].
  rewrite <- (cmp_agree x y Hx Hy).
  destruct (Qltb 0 (cmpA x y)); [by rewrite fmap_cons, IH|done].
Qed.

Lemma sortBy_fmap (l : list A) :
  Forall P l → f <$> sortBy cmpA l = sortBy cmpB (f <$> l).
Proof.
  induction 1 as [|x l Hx Hl IH]; [done|].
  change (sortBy cmpA (x :: l)) with (insertBy cmpA x (sortBy cmpA l)).
  rewrite insertBy_fmap; [|done|].
  - by rewrite IH.
  - by rewrite sortBy_perm.
Qed.
End SortMap.

(** * The nucleus *)

Section NucleusFacts.
Import DynamicPatterns.

Lemma keywordScore_count (errorLower : string) (keywords : list string) (score : Z) :
  keywordScore errorLower keywords score
  = score + 2 * Z.of_nat (length (filter
      (λ keyword, Js.includes errorLower (Js.toLowerCase keyword)) keywords)).
Proof.
  unfold keywordScore. revert score.
  induction keywords as [|k ks IH]; intros score.
  { rewrite filter_nil. simpl. lia. }
  cbn [fold_left]. rewrite IH, filter_cons.
  destruct (Js.includes errorLower (Js.toLowerCase k)) eqn:E.
  - rewrite decide_True by done. simpl length. lia.
  - rewrite decide_False by (simpl; tauto). lia.
Qed.

Lemma rawScore_nonneg (errorText : string) (p : ErrorFixPattern) :
  0 <= rawScore errorText p.
Proof.
  unfold rawScore. rewrite keywordScore_count.
  destruct (Js.includes errorText (errorPattern p)); lia.
Qed.

Lemma collectMatches_patterns (errorText : string) (i : nat) (l : list ErrorFixPattern) :
  pattern <$> collectMatches errorText i l
  = filter (λ p, rawScore errorText p ≠ 0) l.
Proof.
  revert i. induction l as [|p l IH]; intros i; simpl; [done|].
  rewrite filter_cons. pose proof (rawScore_nonneg errorText p).
  destruct (0 <? rawScore errorText p) eqn:E.
  - apply Z.ltb_lt in E. rewrite decide_True by lia. simpl. by rewrite IH.
  - apply Z.ltb_ge in E. rewrite decide_False by lia. apply IH.
Qed.

Lemma collectMatches_scores (errorText : string) (i : nat) (l : list ErrorFixPattern) :
  Forall (λ m, score m = finalScore errorText (pattern m))
    (collectMatches errorText i l).
Proof.
  revert i. induction l as [|p l IH]; intros i; simpl; [constructor|].
  destruct (0 <? rawScore errorText p); [constructor; [done|]|]; apply IH.
Qed.

(** A final score is a number. *)
Lemma finalScore_double (errorText : string) (p : ErrorFixPattern) :
  Js.double (finalScore errorText p) = finalScore errorText p.
Proof. apply double_mul. Qed.

(** [getMatchingErrorFixes] is the stable descending sort, by final score,
    of the patterns whose score is not zero. *)
Lemma getMatchingErrorFixes_sort (errorText : string) (store : Store) :
  getMatchingErrorFixes errorText store
  = sortBy (byFinalScoreDesc errorText)
      (filter (λ p, rawScore errorText p ≠ 0) store).
Proof.
  unfold getMatchingErrorFixes, sortedMatches.
  rewrite <- (collectMatches_patterns errorText O).
  apply (sortBy_fmap _ _ _ (λ m, score m = finalScore errorText (pattern m))).
  - intros a b Ha Hb. unfold byScoreDesc, byFinalScoreDesc, byKeyDesc.
    rewrite Ha, Hb. apply Qltb_sub; apply finalScore_double.
  - apply collectMatches_scores.
Qed.

Lemma collectMatches_refs (errorText : string) (i : nat) (l : list ErrorFixPattern) :
  Forall (λ m, ∃ j, ref m = (i + j)%nat ∧ l !! j = Some (pattern m))
    (collectMatches errorText i l).
Proof.
  revert i. induction l as [|p l IH]; intros i; simpl; [constructor|].
  assert (Forall (λ m, ∃ j, ref m = (i + j)%nat ∧ (p :: l) !! j = Some (pattern m))
            (collectMatches errorText (S i) l)) as Htail.
  { eapply Forall_impl; [apply IH|]. intros m (j & -> & Hj).
    exists (S j). split; [lia|done]. }
  destruct (0 <? rawScore errorText p); [|done].
  constructor; [|done]. exists O. split; [simpl; lia|done].
Qed.

(** The references that [getMatchingErrorFixRefs] yields are those of the
    patterns that [getMatchingErrorFixes] yields. *)
Lemma getMatchingErrorFixRefs_lookup (errorText : string) (store : Store) :
  Forall2 (λ i p, store !! i = Some p)
    (getMatchingErrorFixRefs errorText store)
    (getMatchingErrorFixes errorText store).
Proof.
  unfold getMatchingErrorFixRefs, getMatchingErrorFixes, sortedMatches.
  apply Forall2_fmap, Forall_Forall2_diag.
  rewrite sortBy_perm.
  eapply Forall_impl; [apply (collectMatches_refs errorText O)|].
  by intros m (j & -> & Hj).
Qed.

End NucleusFacts.

Section FilterOrder.
Context {A : Type} (P : A → Prop) `{HP : !∀ x, Decision (P x)}.

Lemma filter_cons_inv (l k : list A) (x : A) :
  filter P l = x :: k → ∃ l1 l2, l = l1 ++ x :: l2 ∧ filter P l2 = k.
Proof.
  induction l as [|y l IH]; [done|].
  rewrite filter_cons. destruct (decide (P y)).
  - intros [= -> <-]. by exists [], l.
  - intros (l1 & l2 & -> & ?)%IH. by exists (y :: l1), l2.
Qed.

Lemma filter_app_inv (l k1 k2 : list A) :
  filter P l = k1 ++ k2 → ∃ l1 l2, l = l1 ++ l2 ∧ filter P l2 = k2.
Proof.
  revert l. induction k1 as [|x k1 IH]; intros l; simpl.
  - intros E. by exists [], l.
  - intros (l1 & l2 & -> & (m1 & m2 & -> & E)%IH)%filter_cons_inv.
    exists (l1 ++ x :: m1), m2. by rewrite <- app_assoc.
Qed.

Lemma filter_two (l1 l2 l3 : list A) (a b : A) :
  P a → P b →
  filter P (l1 ++ a :: l2 ++ b :: l3)
  = filter P l1 ++ a :: filter P l2 ++ b :: filter P l3.
Proof.
  intros Ha Hb.
  rewrite filter_app, filter_cons_True by done.
  by rewrite filter_app, filter_cons_True by done.
Qed.

(** Two elements that follow one another in a filtered list do so in the
    list. *)
Lemma filter_order (l k1 k2 k3 : list A) (a b : A) :
  filter P l = k1 ++ a :: k2 ++ b :: k3 →
  ∃ r1 r2 r3, l = r1 ++ a :: r2 ++ b :: r3.
Proof.
  intros (l1 & l2 & -> & E2)%filter_app_inv.
  apply filter_cons_inv in E2 as (m1 & m2 & -> & E3).
  apply filter_app_inv in E3 as (n1 & n2 & -> & E4).
  apply filter_cons_inv in E4 as (o1 & o2 & -> & _).
  exists (l1 ++ m1), (n1 ++ o1), o2. by rewrite <- !app_assoc.
Qed.
End FilterOrder.

Section NucleusClaims.
Import DynamicPatterns.

(** C4: for every diagnostic text and every store whose numbers are in
    bounds (so that no score overflows), [getMatchingErrorFixes] returns
    exactly the patterns whose score is not zero, in descending order of
    final score; the score of a pattern is 10 if the text holds its
    [errorPattern] plus 2 for each of its keywords that occurs in the
    text when both are put in lower case, and the final score is that
    sum times the confidence times [1 + successCount / 10], each
    operation being the one of the machine, which rounds. *)
Theorem getMatchingErrorFixes_ranked (errorText : string) (store : Store) :
  Forall inBounds store →
  (∀ p, rawScore errorText p
        = (if Js.includes errorText (errorPattern p) then 10 else 0)
          + 2 * Z.of_nat (length (filter
              (λ keyword, Js.includes (Js.toLowerCase errorText)
                            (Js.toLowerCase keyword))
              (errorKeywords p))))
  ∧ (∀ p, finalScore errorText p
          = Js.mul (Js.mul (inject_Z (rawScore errorText p)) (confidence p))
              (Js.add 1 (Js.div (inject_Z (successCount p)) 10)))
  ∧ getMatchingErrorFixes errorText store
      ≡ₚ filter (λ p, rawScore errorText p ≠ 0) store
  ∧ StronglySorted
      (λ a b, (finalScore errorText b <= finalScore errorText a)%Q)
      (getMatchingErrorFixes errorText store).
Proof.
  intros _. split; [|split; [|split]].
  - intros p. unfold rawScore. rewrite keywordScore_count.
    by destruct (Js.includes errorText (errorPattern p)).
  - done.
  - rewrite getMatchingErrorFixes_sort. apply sortBy_perm.
  - rewrite getMatchingErrorFixes_sort.
    apply (sortBy_sorted (finalScore errorText)).
Qed.

(** C8: for every diagnostic text and every store whose numbers are in
    bounds (so that no score overflows), the returned patterns of any
    given final score are the matching patterns of the store with that
    final score, in the order of the store; so of two matching patterns
    with the same final score, as the machine computes it, the one that
    comes first in the store comes first in the result. *)
Theorem getMatchingErrorFixes_stable (errorText : string) (store : Store) :
  Forall inBounds store →
  (∀ v : Q,
      filter (λ p, Qeq_bool (finalScore errorText p) v)
        (getMatchingErrorFixes errorText store)
      = filter (λ p, Qeq_bool (finalScore errorText p) v)
          (filter (λ p, rawScore errorText p ≠ 0) store))
  ∧ (∀ before between after p q,
        store = before ++ p :: between ++ q :: after →
        rawScore errorText p ≠ 0 → rawScore errorText q ≠ 0 →
        (finalScore errorText p == finalScore errorText q)%Q →
        ∃ r1 r2 r3,
          getMatchingErrorFixes errorText store = r1 ++ p :: r2 ++ q :: r3).
Proof.
  intros _.
  assert (∀ v : Q,
      filter (λ p, Qeq_bool (finalScore errorText p) v)
        (getMatchingErrorFixes errorText store)
      = filter (λ p, Qeq_bool (finalScore errorText p) v)
          (filter (λ p, rawScore errorText p ≠ 0) store)) as Hstable.
  { intros v. rewrite getMatchingErrorFixes_sort.
    apply (sortBy_stable (finalScore errorText)). }
  split; [exact Hstable|].
  intros before between after p q -> Hp Hq Hpq.
  specialize (Hstable (finalScore errorText q)).
  rewrite (filter_two _ _ _ _ p q), (filter_two _ _ _ _ p q) in Hstable.
  - by apply filter_order in Hstable.
  - by apply Is_true_true, Qeq_bool_iff.
  - apply Is_true_true, Qeq_bool_iff. reflexivity.
  - done.
  - done.
Qed.

End NucleusClaims.

Section ConfidenceClaims.
Import DynamicPatterns.

Lemma nudge_id (success : bool) (now : string) (p : ErrorFixPattern) :
  id (nudge success now p) = id p.
Proof. by destruct success. Qed.

(** The numbers of the update: [0.05], and [0.1], which is a little
    above one tenth. *)
Lemma double_tenth : (1 # 10 <= Js.double (1 # 10) <= 1)%Q.
Proof. split; by vm_compute. Qed.

Lemma double_range (c : Q) :
  (1 # 10 <= c <= 1)%Q → (Js.double (1 # 10) <= Js.double c <= 1)%Q.
Proof.
  intros [Hlo Hhi]. split; [by apply double_le|].
  rewrite <- double_1. by apply double_le.
Qed.

(** The confidence that a use leaves is a number. *)
Lemma nudge_double (success : bool) (now : string) (p : ErrorFixPattern) :
  Js.double (confidence (nudge success now p)) = confidence (nudge success now p).
Proof.
  destruct success; cbn [nudge confidence].
  - unfold Qmin, GenericMinMax.gmin. destruct (_ ?= _)%Q.
    + apply double_1.
    + apply double_1.
    + apply double_add.
  - unfold Qmax, GenericMinMax.gmax. destruct (_ ?= _)%Q.
    + apply double_double.
    + apply double_sub.
    + apply double_double.
Qed.

Lemma nudge_success_bounds (now : string) (p : ErrorFixPattern) :
  (1 # 10 <= confidence p <= 1)%Q →
  (Js.double (confidence p) <= confidence (nudge true now p) <= 1)%Q.
Proof.
  intros H. destruct (double_range _ H) as [Hlo Hhi]. cbn [nudge confidence].
  split; [|apply Q.le_min_l].
  apply Q.min_glb; [done|].
  rewrite <- (double_double (confidence p)) at 1. apply double_le.
  pose proof (double_nonneg (5 # 100)). lra.
Qed.

Lemma nudge_failure_bounds (now : string) (p : ErrorFixPattern) :
  (1 # 10 <= confidence p <= 1)%Q →
  (1 # 10 <= confidence (nudge false now p) <= Js.double (confidence p))%Q.
Proof.
  intros H. destruct (double_range _ H) as [Hlo Hhi]. cbn [nudge confidence].
  pose proof double_tenth as [Ht _].
  split.
  - apply Qle_trans with (Js.double (1 # 10)); [done|apply Q.le_max_l].
  - apply Q.max_lub; [done|].
    unfold Js.sub. rewrite <- (double_double (confidence p)) at 2.
    apply double_le. lra.
Qed.

Lemma nudge_range (success : bool) (now : string) (p : ErrorFixPattern) :
  (1 # 10 <= confidence p <= 1)%Q →
  (1 # 10 <= confidence (nudge success now p) <= 1)%Q.
Proof.
  intros H. destruct (double_range _ H) as [Hlo Hhi].
  pose proof double_tenth as [Ht _].
  destruct success.
  - pose proof (nudge_success_bounds now p H). lra.
  - pose proof (nudge_failure_bounds now p H). lra.
Qed.

(** A call of [recordFixUsage] updates the pattern that [find] yields and
    leaves it the pattern that [find] yields. *)
Lemma recordFixUsage_found (patternId now : string) (success : bool)
    (store : Store) (i : nat) (p : ErrorFixPattern) :
  findIndex (λ p, bool_decide (id p = patternId)) store = Some i →
  store !! i = Some p →
  findIndex (λ p, bool_decide (id p = patternId))
    (recordFixUsage patternId success now store) = Some i
  ∧ recordFixUsage patternId success now store !! i = Some (nudge success now p).
Proof.
  intros Hfind Hp. unfold recordFixUsage. rewrite Hfind. cbv beta iota. split.
  - apply findIndex_alter; [|done]. intros x. by rewrite nudge_id.
  - by rewrite list_lookup_alter_eq, Hp.
Qed.

Lemma recordOutcomes_found (patternId now : string) (history : list bool)
    (store : Store) (i : nat) (p : ErrorFixPattern) :
  findIndex (λ p, bool_decide (id p = patternId)) store = Some i →
  store !! i = Some p →
  (1 # 10 <= confidence p <= 1)%Q →
  findIndex (λ p, bool_decide (id p = patternId))
    (recordOutcomes patternId now history store) = Some i
  ∧ ∃ q, recordOutcomes patternId now history store !! i = Some q
         ∧ (1 # 10 <= confidence q <= 1)%Q
         ∧ (history ≠ [] → Js.double (confidence q) = confidence q).
Proof.
  intros Hfind Hp Hrange. unfold recordOutcomes.
  induction history as [|success history IH] using rev_ind; simpl.
  { split; [done|]. exists p. split; [done|]. split; [done|]. by intros []. }
  rewrite foldl_snoc.
  destruct IH as (Hfind' & q & Hq & Hrange' & _).
  destruct (recordFixUsage_found patternId now success _ i q Hfind' Hq)
    as [Hf Hl].
  split; [done|]. exists (nudge success now q). split; [done|].
  split; [by apply nudge_range|]. intros _. apply nudge_double.
Qed.

(** C2: take the pattern that [recordFixUsage(patternId, _)] finds, with a
    confidence in [0.1, 1] at the start.  After any series of calls its
    confidence is still in [0.1, 1], and it is a number that the machine
    holds.  A further call with [true] sets the confidence to
    [Math.min(1, confidence + 0.05)] and adds one to [successCount],
    which does not lower the confidence nor take it above 1; a further
    call with [false] sets it to [Math.max(0.1, confidence - 0.1)] and
    adds one to [failureCount], which does not raise the confidence nor
    take it below 0.1.  The sum and the difference are those of the
    machine, which rounds: from 0.9 a success leads to
    0.9500000000000001. *)
Theorem recordFixUsage_confidence (patternId now : string) (history : list bool)
    (store : Store) (i : nat) (p : ErrorFixPattern) :
  findIndex (λ p, bool_decide (id p = patternId)) store = Some i →
  store !! i = Some p →
  (1 # 10 <= confidence p <= 1)%Q →
  let current := recordOutcomes patternId now history store in
  ∃ q, current !! i = Some q
    ∧ (1 # 10 <= confidence q <= 1)%Q
    ∧ (history ≠ [] → Js.double (confidence q) = confidence q)
    ∧ (∃ q', recordFixUsage patternId true now current !! i = Some q'
          ∧ confidence q' = Qmin 1 (Js.add (confidence q) (5 # 100))
          ∧ successCount q' = successCount q + 1
          ∧ failureCount q' = failureCount q
          ∧ (Js.double (confidence q) <= confidence q' <= 1)%Q)
    ∧ (∃ q', recordFixUsage patternId false now current !! i = Some q'
          ∧ confidence q'
            = Qmax (Js.double (1 # 10)) (Js.sub (confidence q) (1 # 10))
          ∧ failureCount q' = failureCount q + 1
          ∧ successCount q' = successCount q
          ∧ (1 # 10 <= confidence q' <= Js.double (confidence q))%Q).
Proof.
  intros Hfind Hp Hrange current.
  destruct (recordOutcomes_found patternId now history store i p Hfind Hp Hrange)
    as (Hfind' & q & Hq & Hrange' & Hnum).
  exists q. split; [done|]. split; [done|]. split; [done|]. split.
  - exists (nudge true now q).
    destruct (recordFixUsage_found patternId now true current i q Hfind' Hq)
      as [_ Hl].
    repeat split; try done; by apply nudge_success_bounds.
  - exists (nudge false now q).
    destruct (recordFixUsage_found patternId now false current i q Hfind' Hq)
      as [_ Hl].
    repeat split; try done; by apply nudge_failure_bounds.
Qed.

(** C3: when no stored pattern has the error text as its [errorPattern]
    and none has keywords whose similarity with the keywords of the error
    text is above 0.7, [learnErrorFix] with [success = false] leaves
    [errorFixes] as it is: no pattern is added and the number of patterns
    is the same. *)
Theorem learnErrorFix_failure_novel (errorText fixDescription : string)
    (fixDetails : PartialFix) (nowIso : string) (nowMs : Z) (store : Store) :
  (∀ p, p ∈ store →
        errorPattern p ≠ errorText
        ∧ ¬ (7 # 10 < similarity (errorKeywords p) (extractKeywords errorText))%Q) →
  learnErrorFix errorText fixDescription fixDetails false nowIso nowMs store = store
  ∧ length (learnErrorFix errorText fixDescription fixDetails false nowIso nowMs store)
    = length store.
Proof.
  intros Hnovel.
  assert (learnErrorFix errorText fixDescription fixDetails false nowIso nowMs store
          = store) as E; [|by rewrite E].
  unfold learnErrorFix. rewrite findIndex_None; [done|].
  intros p [Hpat Hsim]%Hnovel. unfold similarTo.
  rewrite bool_decide_eq_false_2 by done. simpl.
  destruct (Qltb _ _) eqn:E; [|done]. by apply Qltb_lt in E.
Qed.

End ConfidenceClaims.

(** * The build loop *)

Section TraceFacts.
Import BuildLoop.

Lemma appliedFix_progress (updates : list string) :
  omap appliedFix (Progress <$> updates) = [].
Proof. by induction updates. Qed.

Lemma generated_progress (updates : list string) :
  omap generated (Progress <$> updates) = [].
Proof. by induction updates. Qed.

Lemma appliedFix_successUpdates (r : GenerationResult) :
  omap appliedFix (successUpdates r) = [].
Proof.
  unfold successUpdates.
  destruct (mpkPath r) as [[|??]|], (deployedTo r) as [[|??]|]; done.
Qed.

Lemma generated_successUpdates (r : GenerationResult) :
  omap generated (successUpdates r) = [].
Proof.
  unfold successUpdates.
  destruct (mpkPath r) as [[|??]|], (deployedTo r) as [[|??]|]; done.
Qed.

Lemma generate_not_in_progress cfg folder r (updates : list string) :
  Generate cfg folder r ∉ Progress <$> updates.
Proof. intros (? & ? & ?)%list_elem_of_fmap. done. Qed.

Lemma generate_not_in_successUpdates cfg folder r r' :
  Generate cfg folder r ∉ successUpdates r'.
Proof.
  unfold successUpdates.
  destruct (mpkPath r') as [[|??]|], (deployedTo r') as [[|??]|];
    simpl; intros H; in_cases H.
Qed.

Lemma diagnosticsShown_nil : diagnosticsShown [].
Proof. intros ??? H. by apply elem_of_nil in H. Qed.

Lemma diagnosticsShown_app (tr1 tr2 : list Event) :
  diagnosticsShown tr1 → diagnosticsShown tr2 → diagnosticsShown (tr1 ++ tr2).
Proof.
  intros H1 H2 cfg folder r [Hin|Hin]%elem_of_app Hfail; apply elem_of_app.
  - left. by eapply H1.
  - right. by eapply H2.
Qed.

Lemma diagnosticsShown_no_generate (tr : list Event) :
  (∀ cfg folder r, Generate cfg folder r ∉ tr) → diagnosticsShown tr.
Proof. intros H cfg folder r Hin. by apply H in Hin. Qed.

End TraceFacts.

Section ExecuteFacts.
Import BuildLoop.
Context {World : Type}.
Variable isCancellationRequested : World → bool.
Variable getDefaultWorkFolder : World → string.
Variable ensureFolder : string → World → World.
Variable pathJoin : string → string → string.
Variable generate : WidgetConfig → string → World → GenerationResult * World.
Variable analyzeAndFix :
  list string → WidgetConfig → string → World → FixResult * list string * World.
Variable config : WidgetConfig.
Variable options : BuildLoopOptions.

Abbreviation loop :=
  (attemptLoop isCancellationRequested getDefaultWorkFolder ensureFolder pathJoin
     generate analyzeAndFix config options).
Abbreviation exec :=
  (execute isCancellationRequested getDefaultWorkFolder ensureFolder pathJoin
     generate analyzeAndFix config options).

(** The loop ends within [maxAttempts - attempt] iterations. *)
Lemma attemptLoop_total (maxAttempts : Z) (fuel : nat) (attempt : Z)
    (fixes : list string) (run : World * list Event) :
  (Z.to_nat (maxAttempts - attempt) ≤ fuel)%nat →
  is_Some (loop maxAttempts fuel attempt fixes run).
Proof.
  revert attempt fixes run.
  induction fuel as [|fuel IH]; intros attempt fixes [w tr] Hfuel;
    cbn [attemptLoop]; destruct (attempt <? maxAttempts) eqn:Hlt;
    cbn [negb]; try done.
  - apply Z.ltb_lt in Hlt. lia.
  - apply Z.ltb_lt in Hlt.
    destruct (isCancellationRequested w); [done|].
    destruct (generate _ _ _) as [result w1].
    destruct (success result); [done|].
    destruct (attempt + 1 <? maxAttempts).
    + destruct (analyzeAndFix _ _ _ _) as [[fix_ updates] w2].
      destruct (applied fix_); [|done]. apply IH. lia.
    + apply IH. lia.
Qed.

Lemma execute_total (w : World) : is_Some (exec w).
Proof. apply attemptLoop_total. lia. Qed.

(** What a run of the loop leaves behind, whatever the collaborators do:
    the trace grows by [ext]; the fixes of the result are those it
    started with and then those applied along [ext], in order; the
    diagnostics of each failed attempt were shown; and the result is a
    success, a cancellation, or the failure summary. *)
Lemma attemptLoop_run (maxAttempts : Z) (fuel : nat) (attempt : Z)
    (fixes : list string) (w : World) (tr : list Event)
    (r : BuildLoopResult) (w' : World) (tr' : list Event) :
  loop maxAttempts fuel attempt fixes (w, tr) = Some (r, (w', tr')) →
  ∃ ext, tr' = tr ++ ext
    ∧ fixesApplied r = fixes ++ omap appliedFix ext
    ∧ diagnosticsShown ext
    ∧ let n := Z.of_nat (length (omap generated ext)) in
      (success (base r) = true ∧ attempts r = attempt + n)
      ∨ (r = cancelledResult (attempt + n + 1) (fixesApplied r)
         ∧ attempt + n < maxAttempts)
      ∨ r = failedResult (attempt + n) (fixesApplied r).
Proof.
  revert attempt fixes w tr.
  induction fuel as [|fuel IH]; intros attempt fixes w tr;
    cbn [attemptLoop]; destruct (attempt <? maxAttempts) eqn:Hlt;
    cbn [negb]; try done.
  - intros [= <- <- <-]. exists []. rewrite !app_nil_r, Z.add_0_r.
    eauto 10 using diagnosticsShown_nil.
  - apply Z.ltb_lt in Hlt. cbv zeta.
    destruct (isCancellationRequested w).
    { intros [= <- <- <-]. exists []. rewrite !app_nil_r, Z.add_0_r.
      split; [done|]. split; [done|]. split; [apply diagnosticsShown_nil|].
      right. left. done. }
    destruct (generate _ _ _) as [result w1] eqn:Hgen. cbv beta iota zeta.
    destruct (success result) eqn:Hok.
    { intros [= <- <- <-]. eexists. split; [by rewrite <- !app_assoc|].
      cbn [fixesApplied base attempts].
      rewrite !omap_app, appliedFix_successUpdates, generated_successUpdates.
      split; [by rewrite app_nil_r|]. split; [|left; done].
      intros cfg folder g Hin Hfail.
      pose proof (generate_not_in_successUpdates cfg folder g result) as Hs.
      set (su := successUpdates result) in *. clearbody su.
      in_cases Hin. congruence. }
    destruct (attempt + 1 <? maxAttempts) eqn:Hlt2.
    + destruct (analyzeAndFix _ _ _ _) as [[fix_ updates] w2] eqn:Hfix.
      cbv beta iota zeta.
      destruct (applied fix_) eqn:Happ.
      * intros (ext & -> & Hfixes & Hdiag & Hcls)%IH.
        eexists. split; [by rewrite <- !app_assoc|].
        rewrite !omap_app, appliedFix_progress, generated_progress.
        cbn [omap list_omap appliedFix generated app length]. rewrite Happ.
        split; [by rewrite Hfixes, <- app_assoc|].
        split.
        { intros cfg folder g Hin Hfail. in_cases Hin.
          - in_goal.
          - by apply generate_not_in_progress in Hin.
          - specialize (Hdiag _ _ _ Hin Hfail). in_goal. }
        cbv zeta in Hcls |- *.
        replace (attempt + Z.of_nat (S (length (omap generated ext))))
          with (attempt + 1 + Z.of_nat (length (omap generated ext))) by lia.
        exact Hcls.
      * intros [= <- <- <-].
        eexists. split; [by rewrite <- !app_assoc|].
        cbn [fixesApplied].
        rewrite !omap_app, appliedFix_progress, generated_progress.
        cbn [omap list_omap appliedFix generated app length]. rewrite Happ.
        split; [by rewrite app_nil_r|].
        split; [|by right; right].
        intros cfg folder g Hin Hfail. in_cases Hin.
        -- in_goal.
        -- by apply generate_not_in_progress in Hin.
    + intros (ext & -> & Hfixes & Hdiag & Hcls)%IH.
      eexists. split; [by rewrite <- !app_assoc|].
      rewrite !omap_app.
      cbn [omap list_omap appliedFix generated app length].
      split; [done|].
      split.
      { intros cfg folder g Hin Hfail. in_cases Hin.
        - in_goal.
        - specialize (Hdiag _ _ _ Hin Hfail). in_goal. }
      cbv zeta in Hcls |- *.
      replace (attempt + Z.of_nat (S (length (omap generated ext))))
        with (attempt + 1 + Z.of_nat (length (omap generated ext))) by lia.
      exact Hcls.
  - intros [= <- <- <-]. exists []. rewrite !app_nil_r, Z.add_0_r.
    eauto 10 using diagnosticsShown_nil.
Qed.

(** The run in which every attempt fails and every consultation applies
    a fix: the loop goes on until [attempt] reaches [maxAttempts] and the
    generator is called once for each attempt that was left. *)
Lemma attemptLoop_all_fail (maxAttempts : Z) :
  (∀ w, isCancellationRequested w = false) →
  (∀ cfg folder w, success (generate cfg folder w).1 = false) →
  (∀ errs cfg path w, applied (analyzeAndFix errs cfg path w).1.1 = true) →
  ∀ (fuel : nat) (attempt : Z) (fixes : list string) (w : World) (tr : list Event),
    attempt <= maxAttempts →
    (Z.to_nat (maxAttempts - attempt) ≤ fuel)%nat →
    ∃ fixes' w' ext,
      loop maxAttempts fuel attempt fixes (w, tr)
      = Some (failedResult maxAttempts fixes', (w', tr ++ ext))
      ∧ Z.of_nat (length (omap generated ext)) = maxAttempts - attempt.
Proof.
  intros Hc Hf Ha.
  induction fuel as [|fuel IH]; intros attempt fixes w tr Hle Hfuel;
    cbn [attemptLoop]; destruct (attempt <? maxAttempts) eqn:Hlt;
    cbn [negb].
  - apply Z.ltb_lt in Hlt. lia.
  - apply Z.ltb_ge in Hlt. assert (attempt = maxAttempts) as -> by lia.
    exists fixes, w, []. rewrite app_nil_r. split; [done|]. simpl. lia.
  - apply Z.ltb_lt in Hlt. cbv zeta. rewrite Hc.
    destruct (generate _ _ _) as [result w1] eqn:Hgen. cbv beta iota zeta.
    match type of Hgen with
    | generate ?c ?f ?w0 = _ => pose proof (Hf c f w0) as Hfail
    end. rewrite Hgen in Hfail.
    cbn [fst] in Hfail. rewrite Hfail.
    destruct (attempt + 1 <? maxAttempts) eqn:Hlt2.
    + destruct (analyzeAndFix _ _ _ _) as [[fix_ updates] w2] eqn:Hfix.
      cbv beta iota zeta.
      match type of Hfix with
      | analyzeAndFix ?e ?c ?p ?w0 = _ => pose proof (Ha e c p w0) as Happ
      end. rewrite Hfix in Happ.
      cbn [fst] in Happ. rewrite Happ.
      edestruct (IH (attempt + 1)) as (fixes' & w' & ext & -> & Hn);
        [lia|lia|].
      eexists fixes', w', _. split; [by rewrite <- !app_assoc|].
      rewrite !omap_app, generated_progress.
      cbn [omap list_omap generated app length]. lia.
    + edestruct (IH (attempt + 1)) as (fixes' & w' & ext & -> & Hn);
        [lia|lia|].
      eexists fixes', w', _. split; [by rewrite <- !app_assoc|].
      rewrite !omap_app.
      cbn [omap list_omap generated app length]. lia.
  - apply Z.ltb_ge in Hlt. assert (attempt = maxAttempts) as -> by lia.
    exists fixes, w, []. rewrite app_nil_r. split; [done|]. simpl. lia.
Qed.

(** C5: with [maxAttempts = N] for an [N >= 1], a token that does not
    ask for cancellation, a generator that fails at every call and an
    [analyzeAndFix] that applies a fix at every consultation, [execute]
    calls the generator exactly [N] times and returns a failure whose
    [attempts] is [N]. *)
Theorem execute_bounded_retries (N : Z) (w : World) :
  maxAttempts options = Some (JsInt N) →
  1 <= N →
  (∀ w, isCancellationRequested w = false) →
  (∀ cfg folder w, success (generate cfg folder w).1 = false) →
  (∀ errs cfg path w, applied (analyzeAndFix errs cfg path w).1.1 = true) →
  ∃ r w' tr,
    exec w = Some (r, (w', tr))
    ∧ Z.of_nat (length (omap generated tr)) = N
    ∧ success (base r) = false
    ∧ attempts r = N.
Proof.
  intros Hmax HN Hc Hf Ha. unfold execute. rewrite Hmax.
  assert (orNumber (Some (JsInt N)) 3 = N) as ->.
  { simpl. destruct (N =? 0) eqn:E; [apply Z.eqb_eq in E; lia|done]. }
  destruct (attemptLoop_all_fail N Hc Hf Ha (Z.to_nat N) 0 [] w [])
    as (fixes' & w' & ext & -> & Hn); [lia|lia|].
  eexists _, w', _. split; [done|]. simpl. split; [lia|done].
Qed.

(** What [execute] returns.  It always returns; the fixes of the result
    are the descriptions of the fixes that were applied, in the order of
    the consultations; the diagnostics of every failed attempt were handed
    to [progressCallback]; and when the generator was called [maxAttempts]
    times without a success, the result is a failure whose only error text
    is the summary [Build failed after N attempts] and whose [attempts] is
    [maxAttempts]. *)
Lemma execute_exhausted (w : World) :
  let N := orNumber (maxAttempts options) 3 in
  ∃ r w' tr,
    exec w = Some (r, (w', tr))
    ∧ fixesApplied r = omap appliedFix tr
    ∧ diagnosticsShown tr
    ∧ (success (base r) = false →
       Z.of_nat (length (omap generated tr)) = N →
       base r = {| success := false; outputPath := None; mpkPath := None;
                   deployedTo := None;
                   errors := ["Build failed after " +:+ pretty N +:+ " attempts"];
                   warnings := [] |}
       ∧ attempts r = N).
Proof.
  intros N. destruct (execute_total w) as [[r [w' tr]] Hrun].
  exists r, w', tr. split; [done|].
  apply attemptLoop_run in Hrun as (ext & -> & Hfixes & Hdiag & Hcls).
  rewrite app_nil_l in *. split; [done|]. split; [done|].
  intros Hfail Hn. cbv zeta in Hcls. rewrite Z.add_0_l in Hcls.
  destruct Hcls as [[Hok _]|[[_ Hlt]|Hres]].
  - congruence.
  - fold N in Hlt. lia.
  - rewrite Hn in Hres. by rewrite Hres.
Qed.

(** C7: an iteration of the loop that starts when cancellation has been
    requested returns the cancelled outcome at once: the surroundings and
    the trace are as they were, so neither the generator nor
    [analyzeAndFix] was called, and the fixes are those recorded before.
    In particular a run that starts under a requested cancellation
    makes no attempt at all. *)
Theorem execute_cancellation (w : World) :
  isCancellationRequested w = true →
  (∀ (maxAttempts : Z) (fuel : nat) (attempt : Z) (fixes : list string)
     (tr : list Event),
      attempt < maxAttempts →
      loop maxAttempts (S fuel) attempt fixes (w, tr)
      = Some (cancelledResult (attempt + 1) fixes, (w, tr)))
  ∧ (0 < orNumber (maxAttempts options) 3 →
     exec w = Some (cancelledResult 1 [], (w, []))).
Proof.
  intros Hcancel.
  assert (∀ (maxAttempts : Z) (fuel : nat) (attempt : Z) (fixes : list string)
            (tr : list Event),
             attempt < maxAttempts →
             loop maxAttempts (S fuel) attempt fixes (w, tr)
             = Some (cancelledResult (attempt + 1) fixes, (w, tr))) as Hloop.
  { intros maxAttempts fuel attempt fixes tr Hlt. cbn [attemptLoop].
    apply Z.ltb_lt in Hlt. rewrite Hlt. cbn [negb]. cbv zeta.
    by rewrite Hcancel. }
  split; [exact Hloop|].
  intros Hpos. unfold execute.
  destruct (Z.to_nat (orNumber (maxAttempts options) 3)) as [|fuel] eqn:E;
    [lia|].
  by apply Hloop.
Qed.

(** C9: when [options.maxAttempts] is falsy (undefined, 0 or NaN) the
    bound of the loop is 3: [execute] is the loop run with the bound 3,
    and with a generator that fails at every call and a fix applied at
    every consultation the generator is called three times. *)
Theorem execute_falsy_maxAttempts (w : World) :
  truthy (maxAttempts options) = false →
  orNumber (maxAttempts options) 3 = 3
  ∧ exec w = loop 3 3%nat 0 [] (w, [])
  ∧ ((∀ w, isCancellationRequested w = false) →
     (∀ cfg folder w, success (generate cfg folder w).1 = false) →
     (∀ errs cfg path w, applied (analyzeAndFix errs cfg path w).1.1 = true) →
     ∃ r w' tr,
       exec w = Some (r, (w', tr))
       ∧ length (omap generated tr) = 3%nat
       ∧ attempts r = 3).
Proof.
  intros Hfalsy.
  assert (orNumber (maxAttempts options) 3 = 3) as Hthree.
  { unfold orNumber. rewrite Hfalsy. by destruct (maxAttempts options) as [[]|]. }
  split; [done|]. unfold execute. rewrite Hthree.
  change (Z.to_nat 3) with 3%nat. split; [done|].
  intros Hc Hf Ha.
  destruct (attemptLoop_all_fail 3 Hc Hf Ha 3%nat 0 [] w [])
    as (fixes' & w' & ext & -> & Hn); [lia|simpl; lia|].
  eexists _, w', _. split; [done|]. simpl. split; [lia|done].
Qed.

End ExecuteFacts.

(** * The fix strategies *)

Section EditFacts.
Import BuildLoop.

Lemma omap_none {A B} (f : A → option B) (l : list A) :
  (∀ x, x ∈ l → f x = None) → omap f l = [].
Proof.
  induction l as [|x l IH]; intros H; [done|].
  cbn [omap list_omap]. rewrite (H x) by left.
  apply IH. intros y Hy. apply H. by right.
Qed.


(** A loop that has no file to edit writes nothing. *)
Lemma editFiles_idle (edit : string → string → option string)
    (files : gmap string string) :
  (∀ file content, files !! file = Some content → edit file content = None) →
  editFiles edit files = ([], files).
Proof.
  intros Hidle. unfold editFiles. f_equal.
  - apply omap_none. intros [file content] Hin%elem_of_map_to_list.
    by rewrite (Hidle file content Hin).
  - apply map_eq. intros file. rewrite map_lookup_imap.
    destruct (files !! file) as [content|] eqn:E; [|done].
    cbn. by rewrite (Hidle file content E).
Qed.




End EditFacts.

Section HeuristicFacts.
Import BuildLoop.
Context {K X : Type}.
Variable npmInstall : string → WidgetDir → option WidgetDir.
Variable toISOString : Z → string.
Variable getKnownFixes : string → K → list (string * string).
Variable saveWorkingFix : string → string → K → K.
Variable applyKnownFix : string → WidgetDir → bool * list string * WidgetDir.
Variable aiFix : string → WidgetConfig → WidgetDir → X
                 → FixResult * list string * WidgetDir * X.

(** The missing-import rule answers as soon as the text names the error
    and [src] exists, whatever the files are. *)
Lemma reactImportRule_fires (errorLower : string) (d : WidgetDir)
    (files : gmap string string) :
  Js.includes errorLower "'react' must be in scope"
    || Js.includes errorLower "cannot find name 'react'" = true →
  src d = Some files →
  reactImportRule errorLower d
  = Some ({| applied := true; description := "Added missing React imports" |},
          {| src := Some (editFiles reactEdit files).2;
             packageJson := packageJson d |}).
Proof. intros Htext Hsrc. unfold reactImportRule. by rewrite Htext, Hsrc. Qed.

Lemma reactEdit_idle (file content : string) :
  (Js.endsWith file ".tsx" = true →
   Js.includes content "import React" = true
   ∨ Js.includes content "import * as React" = true) →
  reactEdit file content = None.
Proof.
  intros H. unfold reactEdit. destruct (Js.endsWith file ".tsx"); [|done].
  destruct (H eq_refl) as [-> | ->]; [done|]. by rewrite andb_false_r.
Qed.

(** C10, as the code has it: let the diagnostic text hold one of the two
    React messages (in any case of letters), let [src] exist, and let the
    missing-module rule, which comes first, not have installed a module.
    Then [tryPatternFix] reports [{ applied: true, description: 'Added
    missing React imports' }].  When [analyzeAndFix] gets as far as these
    rules it returns that report, saves the fix to the knowledge base and
    calls [learnErrorFix] with [success = true].  All this holds also
    when no file was modified, which is the case when every [.tsx] file
    of [src] has a React import already (or there is none): the widget
    folder is then as it was. *)
Theorem heuristic_react_noop (errs : list string) (config : WidgetConfig)
    (widgetPath : string) (env env0 env1 : Env (K := K) (X := X))
    (updates0 updates1 : list string) (files : gmap string string) :
  let errorText := Js.join Js.nl errs in
  let errorLower := Js.toLowerCase errorText in
  let reported :=
    {| applied := true; description := "Added missing React imports" |} in
  Js.includes errorLower "'react' must be in scope"
    || Js.includes errorLower "cannot find name 'react'" = true →
  src (dir env1) = Some files →
  missingModuleRule npmInstall errorText errorLower (dir env1) = None →
  nucleusStep toISOString errorText env = (None, updates0, env0) →
  knowledgeStep toISOString getKnownFixes applyKnownFix errorText env0
  = (None, updates1, env1) →
  (tryPatternFix npmInstall errorText (dir env1)).1 = reported
  ∧ (∃ env',
        analyzeAndFix npmInstall toISOString getKnownFixes saveWorkingFix
          applyKnownFix aiFix errs config widgetPath env
        = (reported, updates0 ++ updates1, env')
        ∧ nucleus env'
          = DP.learnErrorFix (Js.substring0 200 errorText)
              "Added missing React imports"
              {| DP.p_type := Some DP.Manual; DP.p_file := None;
                 DP.p_search := None; DP.p_replace := None;
                 DP.p_description := Some "Added missing React imports";
                 DP.p_commands := None |}
              true (toISOString (clock env1)) (clock env1) (nucleus env1)
        ∧ knowledge env'
          = saveWorkingFix errorText "Added missing React imports" (knowledge env1)
        ∧ dir env' = (tryPatternFix npmInstall errorText (dir env1)).2)
  ∧ ((∀ file content,
         files !! file = Some content → Js.endsWith file ".tsx" = true →
         Js.includes content "import React" = true
         ∨ Js.includes content "import * as React" = true) →
     (tryPatternFix npmInstall errorText (dir env1)).2 = dir env1).
Proof.
  intros errorText errorLower reported Htext Hsrc Hmodule Hstep0 Hstep1.
  assert (tryPatternFix npmInstall errorText (dir env1)
          = (reported,
             {| src := Some (editFiles reactEdit files).2;
                packageJson := packageJson (dir env1) |})) as Htry.
  { unfold tryPatternFix. fold errorText errorLower.
    by rewrite Hmodule, (reactImportRule_fires _ _ files). }
  split; [by rewrite Htry|]. split.
  - eexists. split.
    + unfold analyzeAndFix. fold errorText. rewrite Hstep0, Hstep1.
      unfold patternStep. rewrite Htry. cbn [applied reported].
      by rewrite app_nil_r.
    + by rewrite Htry.
  - intros Hidle. rewrite Htry. cbn [snd].
    rewrite editFiles_idle.
    + cbn [snd]. destruct (dir env1) as [s p]. cbn in *. by subst.
    + intros file content Hin. apply reactEdit_idle. by apply Hidle.
Qed.

End HeuristicFacts.

(** * The properties at concrete inputs *)

Section Instances.
Import BuildLoop Examples.

(** Scenario A of the specification: the builtin pattern comes first for
    the React diagnostic, with the final score 30.4. *)
Example getMatchingErrorFixes_react :
  DP.id <$> DP.getMatchingErrorFixes reactDiagnostic builtinStore
  = ["missing-react-import"]
  ∧ DP.finalScore reactDiagnostic reactPattern = Js.double (304 # 10).
Proof. split; by vm_compute. Qed.

(** The numbers are those of the machine.  [0.9 + 0.05] is
    0.9500000000000001 and not 0.95; the scores 13.2 and
    13.200000000000001 of [nearTieStore] put the second pattern first;
    the two scores 0.30000000000000004 of [roundedTieStore] leave the
    patterns in the order of the store. *)
Example machine_numbers :
  Js.add (9 # 10) (5 # 100) = Js.double (9500000000000001 # 10000000000000000)
  ∧ Js.add (9 # 10) (5 # 100) ≠ Js.double (95 # 100)
  ∧ DP.finalScore keywordDiagnostic <$> nearTieStore
    = [Js.double (132 # 10); Js.double (13200000000000001 # 1000000000000000)]
  ∧ DP.id <$> DP.getMatchingErrorFixes keywordDiagnostic nearTieStore = ["B"; "A"]
  ∧ DP.finalScore keywordDiagnostic <$> roundedTieStore
    = [Js.double (30000000000000004 # 100000000000000000);
       Js.double (30000000000000004 # 100000000000000000)]
  ∧ DP.id <$> DP.getMatchingErrorFixes keywordDiagnostic roundedTieStore
    = ["A"; "B"].
Proof. repeat split; by vm_compute. Qed.

(** Scenario B of the specification. *)
Example learnErrorFix_first_pattern :
  DP.learnErrorFix "some new unseen error" "fix X"
    {| DP.p_type := None; DP.p_file := None; DP.p_search := None;
       DP.p_replace := None; DP.p_description := None; DP.p_commands := None |}
    true "now" 1736899200000 []
  = [ {| DP.id := "learned-1736899200000";
         DP.errorPattern := "some new unseen error";
         DP.errorKeywords := ["some"; "new"; "unseen"; "error"];
         DP.fix_ := {| DP.type := DP.Manual; DP.file := None; DP.search := None;
                       DP.replace := None; DP.description := "fix X";
                       DP.commands := None |};
         DP.confidence := 7 # 10; DP.successCount := 1; DP.failureCount := 0;
         DP.lastUsed := "now"; DP.source := DP.Learned |} ].
Proof. by vm_compute. Qed.

(** C1: the specification has the result of an exhausted run hold the
    diagnostics of the failed attempts, with the number of attempts and
    the fixes that were tried.  The code does not return the diagnostics:
    after two failed attempts, each with the React diagnostic, the result
    has [attempts = 2] and the fix that was applied, but its only error
    text is the summary, and no text of the result holds the diagnostic or
    its error code. *)
Theorem execute_result_omits_diagnostics :
  ∃ r tr,
    runWith neverCancelled (Some (JsInt 2)) = Some (r, (tt, tr))
    ∧ omap generated tr
      = [failedBuild [reactDiagnostic]; failedBuild [reactDiagnostic]]
    ∧ attempts r = 2
    ∧ fixesApplied r = ["no-op fix"]
    ∧ errors (base r) = ["Build failed after 2 attempts"]
    ∧ warnings (base r) = []
    ∧ (reactDiagnostic ∉ errors (base r))
    ∧ Forall (λ text, Js.includes text "TS2304" = false)
        (errors (base r) ++ warnings (base r) ++ fixesApplied r).
Proof.
  eexists _, _. split; [by vm_compute|].
  do 5 (split; [reflexivity|]).
  split; [intros Hin; in_cases Hin|].
  repeat constructor.
Qed.

(** Twenty-four outcomes on the builtin pattern [strict-null-checks],
    which starts at 0.7: a failure and two successes, eight times over.
    The confidence is then 0.7000000000000008. *)
Example recordOutcomes_drift :
  DP.confidence
    <$> recordOutcomes "strict-null-checks" "now"
          (concat (replicate 8 [false; true; true])) builtinStore !! 3%nat
  = Some (Js.double (7000000000000008 # 10000000000000000)).
Proof. by vm_compute. Qed.

Lemma recordFixUsage_confidence_witness :
  ∃ q, recordOutcomes "missing-react-import" "now" [true; false; false]
         builtinStore !! 0%nat = Some q
    ∧ (1 # 10 <= DP.confidence q <= 1)%Q.
Proof.
  destruct (recordFixUsage_confidence "missing-react-import" "now"
              [true; false; false] builtinStore 0%nat
              reactPattern eq_refl eq_refl)
    as (q & Hq & Hrange & _).
  - split; unfold Qle; simpl; lia.
  - by exists q.
Defined.

Lemma learnErrorFix_failure_novel_witness :
  DP.learnErrorFix "some new unseen error" "fix X" noDetails false "now" 0
    builtinStore = builtinStore
  ∧ length (DP.learnErrorFix "some new unseen error" "fix X" noDetails false
              "now" 0 builtinStore) = length builtinStore.
Proof.
  apply (learnErrorFix_failure_novel "some new unseen error" "fix X" noDetails
           "now" 0 builtinStore).
  intros p Hp. in_cases Hp; (split; [done|apply Qle_not_lt; by vm_compute]).
Defined.

(** The ranking of [tieStore]: the pattern of the higher score first,
    then the two others in the order of the store. *)
Example getMatchingErrorFixes_tie :
  DP.id <$> DP.getMatchingErrorFixes reactDiagnostic tieStore
  = ["stronger"; "first"; "second"].
Proof. by vm_compute. Qed.

Lemma getMatchingErrorFixes_stable_witness :
  ∃ r1 r2 r3,
    DP.getMatchingErrorFixes reactDiagnostic tieStore
    = r1 ++ tiePattern "first" [] :: r2 ++ tiePattern "second" [] :: r3.
Proof.
  assert (Forall inBounds tieStore) as Hbounds
    by (repeat constructor; by vm_compute).
  apply (proj2 (getMatchingErrorFixes_stable reactDiagnostic tieStore Hbounds)
           [] [tiePattern "stronger" ["react"]] []).
  - reflexivity.
  - by vm_compute.
  - by vm_compute.
  - reflexivity.
Defined.

Lemma getMatchingErrorFixes_ranked_witness :
  DP.getMatchingErrorFixes keywordDiagnostic nearTieStore
    ≡ₚ filter (λ p, DP.rawScore keywordDiagnostic p ≠ 0) nearTieStore
  ∧ StronglySorted
      (λ a b, (DP.finalScore keywordDiagnostic b
               <= DP.finalScore keywordDiagnostic a)%Q)
      (DP.getMatchingErrorFixes keywordDiagnostic nearTieStore).
Proof.
  assert (Forall inBounds nearTieStore) as Hbounds
    by (repeat constructor; by vm_compute).
  exact (proj2 (proj2 (getMatchingErrorFixes_ranked keywordDiagnostic nearTieStore
                         Hbounds))).
Defined.

Lemma execute_bounded_retries_witness :
  ∃ r w' tr,
    runWith neverCancelled (Some (JsInt 2)) = Some (r, (w', tr))
    ∧ Z.of_nat (length (omap generated tr)) = 2
    ∧ success (base r) = false
    ∧ attempts r = 2.
Proof.
  apply (execute_bounded_retries neverCancelled tmpWorkFolder folderExists joinPath
           failingGenerate noopFixChain badgeConfig
           (optionsWith (Some (JsInt 2))) 2 tt).
  - reflexivity.
  - lia.
  - reflexivity.
  - reflexivity.
  - reflexivity.
Defined.

Lemma execute_cancellation_witness :
  runWith alwaysCancelled (Some (JsInt 3)) = Some (cancelledResult 1 [], (tt, [])).
Proof.
  apply (proj2 (execute_cancellation alwaysCancelled tmpWorkFolder folderExists joinPath
                  failingGenerate noopFixChain badgeConfig
                  (optionsWith (Some (JsInt 3))) tt eq_refl)).
  simpl. lia.
Defined.

Lemma execute_falsy_maxAttempts_witness :
  ∃ r w' tr,
    runWith neverCancelled (Some (JsInt 0)) = Some (r, (w', tr))
    ∧ length (omap generated tr) = 3%nat
    ∧ attempts r = 3.
Proof.
  apply (proj2 (proj2 (execute_falsy_maxAttempts neverCancelled tmpWorkFolder
                         folderExists joinPath failingGenerate noopFixChain badgeConfig
                         (optionsWith (Some (JsInt 0))) tt eq_refl)));
    reflexivity.
Defined.



(** C10, the statement of the specification fails: the text holds the
    React message and [src] exists, yet the report is that of the
    missing-module rule, which comes first. *)
Lemma tryPatternFix_installs_first :
  let errorLower := Js.toLowerCase moduleAndReactDiagnostic in
  Js.includes errorLower "'react' must be in scope"
    || Js.includes errorLower "cannot find name 'react'" = true
  ∧ is_Some (src widgetWithImport)
  ∧ tryPatternFix npmSucceeds moduleAndReactDiagnostic widgetWithImport
    = ({| applied := true; description := "Installed missing module: lodash" |},
       widgetWithImport).
Proof. split; [by vm_compute|]. split; [by eexists|by vm_compute]. Qed.

Lemma heuristic_react_noop_witness :
  (tryPatternFix npmSucceeds reactDiagnostic (dir afterKnowledge.2)).1
  = {| applied := true; description := "Added missing React imports" |}
  ∧ (tryPatternFix npmSucceeds reactDiagnostic (dir afterKnowledge.2)).2
    = dir afterKnowledge.2
  ∧ ∃ env',
      analyze [reactDiagnostic] badgeConfig "/tmp/mendix-widgets/statusbadge"
        (envWith widgetWithImport)
      = ({| applied := true; description := "Added missing React imports" |},
         afterNucleus.1.2 ++ afterKnowledge.1.2, env')
      ∧ dir env' = widgetWithImport.
Proof.
  destruct (heuristic_react_noop npmSucceeds isoOf noKnownFixes saveNothing
              knownFixNotApplied noModel [reactDiagnostic] badgeConfig
              "/tmp/mendix-widgets/statusbadge" (envWith widgetWithImport)
              afterNucleus.2 afterKnowledge.2 afterNucleus.1.2 afterKnowledge.1.2
              {[ "StatusBadge.tsx" := reactImport +:+ widgetBody ]})
    as (Hreport & (env' & Hrun & _ & _ & Hdir) & Hidle);
    [vm_compute; reflexivity ..|].
  assert (∀ file content : string,
             ({[ "StatusBadge.tsx" := reactImport +:+ widgetBody ]}
                : gmap string string) !! file = Some content →
             Js.endsWith file ".tsx" = true →
             Js.includes content "import React" = true
             ∨ Js.includes content "import * as React" = true) as Himport.
  { intros file content Hin _.
    apply lookup_singleton_Some in Hin as [_ <-]. right.
    vm_compute. reflexivity. }
  specialize (Hidle Himport).
  split; [exact Hreport|]. split; [exact Hidle|].
  exists env'. split; [exact Hrun|].
  rewrite Hdir, Hidle. vm_compute. reflexivity.
Defined.

(** The whole loop on a widget that has the import: the fix without
    effect is counted as applied, the widget folder is as it was, and the
    nucleus holds a learned pattern for the diagnostic. *)
Example execute_counts_noop_fix :
  ∃ r env' tr,
    healingRun = Some (r, (env', tr))
    ∧ fixesApplied r = ["Added missing React imports"]
    ∧ attempts r = 2
    ∧ dir env' = widgetWithImport
    ∧ (λ p, (DP.id p, DP.source p)) <$> nucleus env'
      = [("missing-react-import", DP.Builtin);
         ("classname-type-error", DP.Builtin);
         ("missing-build-script", DP.Builtin);
         ("strict-null-checks", DP.Builtin);
         ("learned-1736899200000", DP.Learned)].
Proof. eexists _, _, _. split; [by vm_compute|]. by vm_compute. Qed.

End Instances.

(** * Further properties of the nucleus *)

Section SimilarityFacts.
Import DynamicPatterns.

Lemma Qdiv_unit (n m : nat) :
  (n ≤ m)%nat → (0 < m)%nat →
  (0 <= inject_Z (Z.of_nat n) / inject_Z (Z.of_nat m) <= 1)%Q.
Proof.
  intros Hnm Hm.
  assert (0 < inject_Z (Z.of_nat m))%Q as Hpos.
  { change 0%Q with (inject_Z 0). rewrite <- Zlt_Qlt. lia. }
  split.
  - apply Qle_shift_div_l; [done|]. rewrite Qmult_0_l.
    change 0%Q with (inject_Z 0). rewrite <- Zle_Qle. lia.
  - apply Qle_shift_div_r; [done|]. rewrite Qmult_1_l.
    rewrite <- Zle_Qle. lia.
Qed.

Lemma Qdiv_one (n m : nat) :
  (0 < m)%nat →
  (inject_Z (Z.of_nat n) / inject_Z (Z.of_nat m) == 1)%Q ↔ n = m.
Proof.
  intros Hm.
  assert (¬ inject_Z (Z.of_nat m) == 0)%Q as Hnz.
  { change 0%Q with (inject_Z 0). rewrite inject_Z_injective. lia. }
  split.
  - intros H.
    assert (inject_Z (Z.of_nat n) == inject_Z (Z.of_nat m))%Q as Heq.
    { rewrite <- (Qmult_div_r (inject_Z (Z.of_nat n)) (inject_Z (Z.of_nat m))) by done.
      rewrite H. ring. }
    apply (proj1 (inject_Z_injective _ _)) in Heq. lia.
  - intros ->. by apply Qmult_inv_r.
Qed.

Lemma similarity_cons (x y : string) (a b : list string) :
  similarity (x :: a) (y :: b)
  = (inject_Z (Z.of_nat (size (lowerSet (x :: a) ∩ lowerSet (y :: b))))
     / inject_Z (Z.of_nat (Nat.max (size (lowerSet (x :: a)))
                                   (size (lowerSet (y :: b))))))%Q.
Proof. reflexivity. Qed.

Lemma lowerSet_cons_size (x : string) (a : list string) :
  (0 < size (lowerSet (x :: a)))%nat.
Proof.
  assert (size (lowerSet (x :: a)) ≠ 0%nat); [|lia].
  apply size_non_empty_iff. intros Hempty.
  assert (Js.toLowerCase x ∈ lowerSet (x :: a)) as Hin
    by (apply elem_of_list_to_set, list_elem_of_here).
  rewrite Hempty in Hin. by apply not_elem_of_empty in Hin.
Qed.

Lemma lowerSet_size (arr : list string) : (size (lowerSet arr) ≤ length arr)%nat.
Proof.
  unfold lowerSet. induction arr as [|x arr IH]; [done|].
  rewrite fmap_cons. cbn [list_to_set length].
  rewrite size_union_alt, size_singleton.
  assert (size (list_to_set (Js.toLowerCase <$> arr) ∖ {[Js.toLowerCase x]}
                : gset string)
          ≤ size (list_to_set (Js.toLowerCase <$> arr) : gset string))%nat
    by (apply subseteq_size, subseteq_difference_l; done).
  lia.
Qed.

(** The tests [similarity(...) > 0.7] and [similarity(...) > 0.6] of the
    code are on the double nearest to the quotient and on the double
    that the numeral denotes.  For keyword lists of fewer than [2^50]
    entries they give what the tests on the quotient and on the tenths
    give, which is why [similarity] keeps the quotient as it is. *)
Lemma similarity_threshold (arr1 arr2 : list string) (a : Z) :
  a = 7 ∨ a = 6 →
  Z.of_nat (length arr1) < 2 ^ 50 → Z.of_nat (length arr2) < 2 ^ 50 →
  Qltb (Js.double (a # 10)) (Js.double (similarity arr1 arr2))
  = Qltb (a # 10) (similarity arr1 arr2).
Proof.
  intros Ha H1 H2. apply Bool.eq_iff_eq_true. rewrite !Qltb_lt.
  destruct arr1 as [|x l1], arr2 as [|y l2];
    try (cbn [similarity]; rewrite double_0;
         split; intros Hlt; exfalso;
         [assert (0 <= Js.double (a # 10))%Q
            by (apply double_nonneg; destruct Ha as [-> | ->]; done); lra
         |destruct Ha as [-> | ->]; revert Hlt; by vm_compute]).
  rewrite similarity_cons.
  pose proof (lowerSet_cons_size x l1) as Hx.
  pose proof (lowerSet_size (x :: l1)) as Hs1.
  pose proof (lowerSet_size (y :: l2)) as Hs2.
  set (s1 := lowerSet (x :: l1)) in *. set (s2 := lowerSet (y :: l2)) in *.
  assert (size (s1 ∩ s2) ≤ size s1)%nat as Hi
    by apply subseteq_size, intersection_subseteq_l.
  set (k := Z.of_nat (size (s1 ∩ s2))).
  set (n := Z.of_nat (Nat.max (size s1) (size s2))).
  assert (0 <= k <= n) as Hk by lia.
  assert (0 < n < 2 ^ 50) as Hn by lia.
  rewrite <- (quotient_threshold k n a Hk Hn Ha).
  unfold Js.div.
  assert (Js.double (Js.double (inject_Z k) / Js.double (inject_Z n))
          = Js.double (inject_Z k / inject_Z n)) as ->; [|done].
  apply double_comp. by rewrite (double_Z k), (double_Z n) by lia.
Qed.

End SimilarityFacts.

Section SimilarityProperties.
Import DynamicPatterns.

Lemma similarity_one (x y : string) (a b : list string) :
  (similarity (x :: a) (y :: b) == 1)%Q ↔ lowerSet (x :: a) = lowerSet (y :: b).
Proof.
  rewrite similarity_cons.
  pose proof (lowerSet_cons_size x a) as Hx.
  set (s1 := lowerSet (x :: a)) in *. set (s2 := lowerSet (y :: b)) in *.
  rewrite Qdiv_one by lia.
  assert (size (s1 ∩ s2) ≤ size s1)%nat as H1
    by apply subseteq_size, intersection_subseteq_l.
  assert (size (s1 ∩ s2) ≤ size s2)%nat as H2
    by apply subseteq_size, intersection_subseteq_r.
  split.
  - intros Heq.
    assert (s1 ∩ s2 = s1) as E1
      by (apply set_subseteq_size_eq; [apply intersection_subseteq_l|lia]).
    assert (s1 ∩ s2 = s2) as E2
      by (apply set_subseteq_size_eq; [apply intersection_subseteq_r|lia]).
    congruence.
  - intros <-. rewrite intersection_idemp_L. lia.
Qed.

(** X1.  The similarity of two keyword lists is a number between 0
    and 1 that does not depend on the order of the two lists; and two
    lists that are not empty have similarity 1 exactly when they hold
    the same keywords up to case, order and repetition. *)
Theorem similarity_bounds (arr1 arr2 : list string) :
  (0 <= similarity arr1 arr2 <= 1)%Q
  ∧ similarity arr1 arr2 = similarity arr2 arr1
  ∧ (arr1 ≠ [] → arr2 ≠ [] →
     (similarity arr1 arr2 == 1)%Q ↔ lowerSet arr1 = lowerSet arr2).
Proof.
  destruct arr1 as [|x a], arr2 as [|y b];
    try (split; [cbn; lra|split; [done|intros; done]]).
  split; [|split; [|intros _ _; apply similarity_one]].
  - rewrite similarity_cons. apply Qdiv_unit.
    + etrans; [|apply Nat.le_max_l]. apply subseteq_size, intersection_subseteq_l.
    + pose proof (lowerSet_cons_size x a). lia.
  - rewrite !similarity_cons. by rewrite (comm_L (∩)), Nat.max_comm.
Qed.

End SimilarityProperties.

Section StringFacts.

Lemma app_cons (c : ascii) (s t : string) : String c s +:+ t = String c (s +:+ t).
Proof. reflexivity. Qed.

Lemma app_empty_r (s : string) : s +:+ "" = s.
Proof. induction s as [|c s IH]; [done|]. by rewrite app_cons, IH. Qed.

Lemma string_app_assoc (s t u : string) : (s +:+ t) +:+ u = s +:+ (t +:+ u).
Proof. induction s as [|c s IH]; [done|]. by rewrite !app_cons, IH. Qed.

Lemma string_length_app (s t : string) :
  String.length (s +:+ t) = (String.length s + String.length t)%nat.
Proof. induction s as [|c s IH]; [done|]. rewrite app_cons. simpl. by rewrite IH. Qed.

Lemma rev_app_spec (s t : string) : String.rev_app s t = String.rev s +:+ t.
Proof.
  revert t. induction s as [|c s IH]; intros t; [done|].
  unfold String.rev. simpl. rewrite (IH (String c t)), (IH (String c "")).
  by rewrite string_app_assoc.
Qed.

Lemma rev_cons (c : ascii) (s : string) :
  String.rev (String c s) = String.rev s +:+ String c "".
Proof. unfold String.rev at 1. simpl. apply rev_app_spec. Qed.

Lemma rev_app (s t : string) : String.rev (s +:+ t) = String.rev t +:+ String.rev s.
Proof.
  induction s as [|c s IH]; [by rewrite app_empty_r|].
  by rewrite app_cons, !rev_cons, IH, string_app_assoc.
Qed.

Lemma endsWith_app (s suffix : string) : Js.endsWith (s +:+ suffix) suffix = true.
Proof. unfold Js.endsWith. rewrite rev_app. apply startsWith_app. Qed.

Lemma allChars_app (P : ascii → bool) (s t : string) :
  allChars P (s +:+ t) = allChars P s && allChars P t.
Proof.
  induction s as [|c s IH]; [done|]. rewrite app_cons. simpl.
  by rewrite IH, andb_assoc.
Qed.

Lemma allChars_rev (P : ascii → bool) (s : string) :
  allChars P (String.rev s) = allChars P s.
Proof.
  induction s as [|c s IH]; [done|].
  rewrite rev_cons, allChars_app, IH. simpl. by rewrite andb_true_r, andb_comm.
Qed.

(** A text holds each of its segments. *)
Lemma includes_segment (a w b : string) : Js.includes (a +:+ w +:+ b) w = true.
Proof.
  induction a as [|c a IH]; [exact (includes_app_l w b)|].
  rewrite app_cons. simpl. rewrite IH. apply orb_true_r.
Qed.

Lemma includes_self (s : string) : Js.includes s s = true.
Proof. rewrite <- (app_empty_r s) at 1. apply includes_app_l. Qed.

Lemma substring0_drop (n : nat) (s : string) :
  s = Js.substring0 n s +:+ Js.drop n s.
Proof.
  revert s. induction n as [|n IH]; intros [|c s]; try done.
  simpl. rewrite app_cons. by rewrite <- IH.
Qed.

Lemma includes_substring0 (n : nat) (s : string) :
  Js.includes s (Js.substring0 n s) = true.
Proof. rewrite (substring0_drop n s) at 1. apply includes_app_l. Qed.

Lemma substring0_length (n : nat) (s : string) :
  String.length (Js.substring0 n s) = Nat.min n (String.length s).
Proof. revert s. induction n as [|n IH]; intros [|c s]; simpl; auto. Qed.

Lemma substring0_all (n : nat) (s : string) :
  (String.length s ≤ n)%nat → Js.substring0 n s = s.
Proof.
  revert s. induction n as [|n IH]; intros [|c s]; simpl; try done; [lia|].
  intros Hn. rewrite IH; [done|lia].
Qed.

Lemma toLowerCase_length (s : string) :
  String.length (Js.toLowerCase s) = String.length s.
Proof. induction s as [|c s IH]; simpl; auto. Qed.

End StringFacts.

Section KeywordFacts.
Import DynamicPatterns.

(** A piece of [split(/\s+/)] is a segment of the text and holds no
    white space. *)
Lemma splitWs_go_piece (s cur : string) (inWs : bool) (w : string) :
  allChars notSpace cur = true → w ∈ Js.splitWs_go cur inWs s →
  allChars notSpace w = true ∧ ∃ a b, String.rev cur +:+ s = a +:+ w +:+ b.
Proof.
  revert cur inWs. induction s as [|c s IH]; intros cur inWs Hcur Hin; simpl in Hin.
  - apply list_elem_of_singleton in Hin as ->. rewrite allChars_rev.
    split; [done|]. by exists "", "".
  - destruct (Ascii.is_space c) eqn:Hc.
    + assert (w ∈ Js.splitWs_go "" true s →
              allChars notSpace w = true
              ∧ ∃ a b, String.rev cur +:+ String c s = a +:+ w +:+ b) as Hrest.
      { intros (Hw & a & b & Hab)%IH; [|done]. split; [done|].
        exists (String.rev cur +:+ String c a), b.
        rewrite string_app_assoc, app_cons. do 2 f_equal. exact Hab. }
      destruct inWs; [by apply Hrest|].
      apply elem_of_cons in Hin as [->|Hin]; [|by apply Hrest].
      rewrite allChars_rev. split; [done|]. by exists "", (String c s).
    + apply IH in Hin as (Hw & a & b & Hab).
      2: { simpl. unfold notSpace at 1. by rewrite Hc. }
      split; [done|]. exists a, b.
      by rewrite <- Hab, rev_cons, string_app_assoc.
Qed.

Lemma isKeywordChar_slug (c : ascii) :
  isKeywordChar c = true → notSpace c = true → KnowledgeSharing.isSlugChar c = true.
Proof.
  unfold isKeywordChar, notSpace, KnowledgeSharing.isSlugChar.
  destruct (Ascii.is_space c); [done|]. by rewrite orb_false_r.
Qed.

Lemma blankOthers_prefix (t w b : string) :
  blankOthers t = w +:+ b → allChars notSpace w = true →
  allChars KnowledgeSharing.isSlugChar w = true ∧ ∃ b', t = w +:+ b'.
Proof.
  revert t. induction w as [|c w IH]; intros t Hb Hw; [by eauto|].
  destruct t as [|c0 t]; [done|].
  simpl in Hb. rewrite app_cons in Hb. injection Hb as Hc Hrest.
  simpl in Hw. apply andb_true_iff in Hw as [Hc' Hw].
  destruct (IH _ Hrest Hw) as (Hslug & b' & ->).
  destruct (isKeywordChar c0) eqn:Hk.
  - subst c0. simpl. rewrite Hslug, (isKeywordChar_slug c) by done. eauto.
  - by subst c.
Qed.

Lemma blankOthers_segment (t a w b : string) :
  blankOthers t = a +:+ w +:+ b → allChars notSpace w = true →
  allChars KnowledgeSharing.isSlugChar w = true ∧ ∃ a' b', t = a' +:+ w +:+ b'.
Proof.
  revert t. induction a as [|c a IH]; intros t Hb Hw.
  - destruct (blankOthers_prefix t w b Hb Hw) as (? & b' & ->).
    split; [done|]. by exists "", b'.
  - destruct t as [|c0 t]; [done|].
    simpl in Hb. rewrite app_cons in Hb. injection Hb as _ Hrest.
    destruct (IH _ Hrest Hw) as (? & a' & b' & ->).
    split; [done|]. by exists (String c0 a'), b'.
Qed.

(** What holds of each keyword of [extractKeywords]. *)
Lemma extractKeywords_word (text w : string) :
  w ∈ extractKeywords text →
  (2 < String.length w)%nat ∧ (w ∉ stopWords)
  ∧ allChars KnowledgeSharing.isSlugChar w = true
  ∧ Js.includes (Js.toLowerCase text) w = true.
Proof.
  unfold extractKeywords. intros Hin.
  apply elem_of_take in Hin as (i & Hin & _).
  apply list_elem_of_lookup_2, list_elem_of_filter in Hin as [[Hlen Hstop] Hin].
  apply splitWs_go_piece in Hin as (Hw & a & b & Hab); [|done].
  apply blankOthers_segment in Hab as (Hslug & a' & b' & ->); [|done].
  rewrite includes_segment. done.
Qed.

Lemma toLowerCase_slug (w : string) :
  allChars KnowledgeSharing.isSlugChar w = true → Js.toLowerCase w = w.
Proof.
  induction w as [|c w IH]; [done|]. simpl.
  intros [Hc Hw]%andb_true_iff. rewrite IH by done. f_equal.
  unfold Js.lowerChar, KnowledgeSharing.isSlugChar in *.
  destruct ((65 <=? _)%N && _) eqn:Hup; [|done].
  apply andb_true_iff in Hup as [?%N.leb_le ?%N.leb_le].
  apply orb_true_iff in Hc as [[?%N.leb_le ?%N.leb_le]%andb_true_iff
                              |[?%N.leb_le ?%N.leb_le]%andb_true_iff]; lia.
Qed.

(** Two lists of similarity above zero share a keyword up to case. *)
Lemma similarity_shared (threshold : Q) (arr1 arr2 : list string) :
  (0 <= threshold)%Q → Qltb threshold (similarity arr1 arr2) = true →
  ∃ k w, k ∈ arr1 ∧ w ∈ arr2 ∧ Js.toLowerCase k = Js.toLowerCase w.
Proof.
  intros Hth Hsim. apply Qltb_lt in Hsim.
  destruct arr1 as [|x a], arr2 as [|y b]; try (cbn in Hsim; lra).
  rewrite similarity_cons in Hsim.
  destruct (set_choose_or_empty (lowerSet (x :: a) ∩ lowerSet (y :: b)))
    as [[z Hz]|Hempty].
  - apply elem_of_intersection in Hz as [H1 H2].
    apply elem_of_list_to_set, list_elem_of_fmap in H1 as (k & -> & Hk).
    apply elem_of_list_to_set, list_elem_of_fmap in H2 as (w & Hkw & Hw).
    eauto.
  - apply size_empty_iff in Hempty. rewrite Hempty in Hsim.
    unfold Qdiv in Hsim. rewrite Qmult_0_l in Hsim. lra.
Qed.

Lemma similarity_self (x : string) (a : list string) :
  (similarity (x :: a) (x :: a) == 1)%Q.
Proof.
  rewrite similarity_cons, intersection_idemp_L, Nat.max_id.
  apply Qdiv_one; [apply lowerSet_cons_size|done].
Qed.

End KeywordFacts.

Section KeywordProperties.
Import DynamicPatterns.

(** X2.  [extractKeywords] yields at most ten keywords; each is longer
    than two characters, is no stop word, is made of lower-case letters
    and digits, and occurs in the lower-cased text. *)
Theorem extractKeywords_shape (text : string) :
  (length (extractKeywords text) ≤ 10)%nat
  ∧ Forall (λ w, (2 < String.length w)%nat ∧ (w ∉ stopWords)
                 ∧ allChars KnowledgeSharing.isSlugChar w = true
                 ∧ Js.includes (Js.toLowerCase text) w = true)
      (extractKeywords text).
Proof.
  split.
  - unfold extractKeywords. rewrite length_take. lia.
  - apply Forall_forall. intros w. apply extractKeywords_word.
Qed.

End KeywordProperties.

Section FindFacts.
Context {A : Type}.

Lemma findIndex_None_inv (f : A → bool) (l : list A) (x : A) :
  findIndex f l = None → x ∈ l → f x = false.
Proof.
  induction l as [|y l IH]; simpl; [by intros _ ?%elem_of_nil|].
  destruct (f y) eqn:Hy; [done|].
  destruct (findIndex f l); [done|].
  intros _ [->|Hin]%elem_of_cons; auto.
Qed.

Lemma findIndex_snoc (f : A → bool) (l : list A) (x : A) :
  findIndex f l = None →
  findIndex f (l ++ [x]) = if f x then Some (length l) else None.
Proof.
  induction l as [|y l IH]; simpl; [by destruct (f x)|].
  destruct (f y); [done|].
  destruct (findIndex f l); [done|]. intros _. rewrite IH by done.
  by destruct (f x).
Qed.

Lemma fmap_alter_same {B} (h : A → B) (g : A → A) (i : nat) (l : list A) :
  (∀ x, h (g x) = h x) → h <$> alter g i l = h <$> l.
Proof.
  intros Hg. revert i. induction l as [|y l IH]; intros [|i]; simpl; try done.
  - by rewrite Hg.
  - f_equal. apply IH.
Qed.

Lemma filter_alter_out (P : A → Prop) `{!∀ x, Decision (P x)}
    (g : A → A) (i : nat) (l : list A) (x : A) :
  l !! i = Some x → ¬ P x → ¬ P (g x) → filter P (alter g i l) = filter P l.
Proof.
  revert i. induction l as [|y l IH]; intros [|i] Hi Hx Hgx; simpl in Hi; try done.
  - injection Hi as ->. cbn [alter list_alter].
    rewrite !filter_cons. by destruct (decide (P (g x))), (decide (P x)).
  - cbn [alter list_alter]. by rewrite !filter_cons, (IH i).
Qed.

End FindFacts.

Section LearningFacts.
Import DynamicPatterns.

Lemma nudge_identity (success : bool) (now : string) (p : ErrorFixPattern) :
  identity (nudge success now p) = identity p.
Proof. by destruct success. Qed.

Lemma nudge_similarTo (errorText : string) (keywords : list string)
    (success : bool) (now : string) (p : ErrorFixPattern) :
  similarTo errorText keywords (nudge success now p) = similarTo errorText keywords p.
Proof. by destruct success. Qed.

Lemma nudge_rawScore (errorText : string) (success : bool) (now : string)
    (p : ErrorFixPattern) :
  rawScore errorText (nudge success now p) = rawScore errorText p.
Proof. by destruct success. Qed.

Lemma nudge_lastUsed (success : bool) (now : string) (p : ErrorFixPattern) :
  lastUsed (nudge success now p) = now.
Proof. by destruct success. Qed.

(** A pattern scores when the text holds its [errorPattern] or one of
    its keywords. *)
Lemma rawScore_hit (errorText : string) (p : ErrorFixPattern) :
  Js.includes errorText (errorPattern p) = true
  ∨ (∃ k, k ∈ errorKeywords p
          ∧ Js.includes (Js.toLowerCase errorText) (Js.toLowerCase k) = true) →
  rawScore errorText p ≠ 0.
Proof.
  unfold rawScore. cbv zeta. rewrite keywordScore_count.
  set (hits := filter _ _).
  intros [->|(k & Hk & Hhit)]; [lia|].
  assert (k ∈ hits) as Hin by (apply list_elem_of_filter; by rewrite Hhit).
  clearbody hits. destruct hits; [by apply elem_of_nil in Hin|].
  destruct (Js.includes errorText _); simpl length; lia.
Qed.

(** A pattern that [learnErrorFix] takes for the error scores on it. *)
Lemma similarTo_rawScore (errorText : string) (p : ErrorFixPattern) :
  similarTo errorText (extractKeywords errorText) p = true →
  rawScore errorText p ≠ 0.
Proof.
  intros [Heq%bool_decide_eq_true|Hsim]%orb_true_iff; apply rawScore_hit.
  - left. rewrite Heq. apply includes_self.
  - right. apply similarity_shared in Hsim as (k & w & Hk & Hw & Hkw); [|lra].
    exists k. split; [done|]. rewrite Hkw.
    apply extractKeywords_word in Hw as (_ & _ & Hslug & Hinc).
    by rewrite (toLowerCase_slug w).
Qed.

Lemma getMatchingErrorFixes_elem (errorText : string) (store : Store)
    (p : ErrorFixPattern) :
  p ∈ getMatchingErrorFixes errorText store
  ↔ p ∈ store ∧ rawScore errorText p ≠ 0.
Proof.
  rewrite getMatchingErrorFixes_sort, sortBy_perm, list_elem_of_filter. tauto.
Qed.

Lemma alter_nudge_inRange (success : bool) (now : string) (i : nat) (store : Store) :
  Forall inRange store → Forall inRange (alter (nudge success now) i store).
Proof.
  intros Hstore. apply Forall_alter; [done|].
  intros p _ Hp. by apply nudge_range.
Qed.

Lemma learnErrorFix_inRange (errorText fixDescription : string)
    (fixDetails : PartialFix) (success : bool) (now : string) (nowMs : Z)
    (store : Store) :
  Forall inRange store →
  Forall inRange
    (learnErrorFix errorText fixDescription fixDetails success now nowMs store).
Proof.
  intros Hstore. unfold learnErrorFix. cbv zeta.
  destruct (findIndex _ store); [by apply alter_nudge_inRange|].
  destruct success; [|done].
  apply Forall_app. split; [done|]. apply Forall_singleton.
  unfold inRange. cbn. lra.
Qed.

Lemma recordFixUsage_inRange (patternId now : string) (success : bool)
    (store : Store) :
  Forall inRange store → Forall inRange (recordFixUsage patternId success now store).
Proof.
  intros Hstore. unfold recordFixUsage.
  destruct (findIndex _ store); [by apply alter_nudge_inRange|done].
Qed.

Lemma learnErrorFix_identity (errorText fixDescription : string)
    (fixDetails : PartialFix) (success : bool) (nowIso : string) (nowMs : Z)
    (store : Store) :
  ∃ added,
    identity <$> learnErrorFix errorText fixDescription fixDetails success
                   nowIso nowMs store
    = (identity <$> store) ++ added
    ∧ (length added ≤ 1)%nat.
Proof.
  unfold learnErrorFix. cbv zeta. destruct (findIndex _ store).
  - exists []. rewrite app_nil_r. split; [|simpl; lia].
    apply fmap_alter_same. intros x. apply nudge_identity.
  - destruct success.
    + eexists. split; [by rewrite fmap_app|simpl; lia].
    + exists []. rewrite app_nil_r. split; [done|simpl; lia].
Qed.

Lemma recordFixUsage_identity (patternId now : string) (success : bool)
    (store : Store) :
  identity <$> recordFixUsage patternId success now store = identity <$> store.
Proof.
  unfold recordFixUsage. destruct (findIndex _ store); [|done].
  apply fmap_alter_same. intros x. apply nudge_identity.
Qed.

End LearningFacts.

Section LearningProperties.
Import DynamicPatterns.

(** X3.  After an error was learned with a fix that worked, looking the
    same error up finds a pattern, and that pattern carries the time of
    the call: the one that was added, or the one that was taken for the
    error and updated. *)
Theorem learnErrorFix_then_match (errorText fixDescription : string)
    (fixDetails : PartialFix) (nowIso : string) (nowMs : Z) (store : Store) :
  ∃ p, p ∈ getMatchingErrorFixes errorText
             (learnErrorFix errorText fixDescription fixDetails true nowIso nowMs store)
       ∧ lastUsed p = nowIso.
Proof.
  unfold learnErrorFix. cbv zeta.
  destruct (findIndex _ store) as [i|] eqn:Hfind.
  - apply findIndex_Some in Hfind as (x & Hx & Hsim).
    exists (nudge true nowIso x). split; [|done].
    apply getMatchingErrorFixes_elem. split.
    + apply list_elem_of_lookup. exists i. by rewrite list_lookup_alter_eq, Hx.
    + rewrite nudge_rawScore. by apply similarTo_rawScore.
  - eexists. split.
    + apply getMatchingErrorFixes_elem. split.
      * apply elem_of_app. right. apply list_elem_of_here.
      * apply rawScore_hit. left. cbn [errorPattern]. apply includes_substring0.
    + done.
Qed.

(** X4.  An error that was learned is recognised when it comes again:
    unless its text is longer than 200 characters and yields no keyword,
    a second call for the same text adds no pattern and leaves what
    identifies each pattern as it is, whatever its outcome. *)
Theorem learnErrorFix_relearn (errorText d1 d2 : string) (f1 f2 : PartialFix)
    (success2 : bool) (now1 now2 : string) (ms1 ms2 : Z) (store : Store) :
  (String.length errorText ≤ 200)%nat ∨ extractKeywords errorText ≠ [] →
  let learned := learnErrorFix errorText d1 f1 true now1 ms1 store in
  length (learnErrorFix errorText d2 f2 success2 now2 ms2 learned) = length learned
  ∧ identity <$> learnErrorFix errorText d2 f2 success2 now2 ms2 learned
    = identity <$> learned.
Proof.
  intros Hcond learned.
  assert (∃ i, findIndex (similarTo errorText (extractKeywords errorText)) learned
               = Some i) as [i Hi].
  { unfold learned, learnErrorFix. cbv zeta.
    destruct (findIndex _ store) as [i|] eqn:Hfind.
    - exists i. apply findIndex_alter; [|done]. intros x. apply nudge_similarTo.
    - exists (length store). rewrite findIndex_snoc by done.
      unfold similarTo at 1. cbn [errorPattern errorKeywords].
      destruct Hcond as [Hlen|Hkw].
      + by rewrite substring0_all, bool_decide_eq_true_2.
      + destruct (extractKeywords errorText) as [|x a]; [done|].
        assert (Qltb (7 # 10) (similarity (x :: a) (x :: a)) = true) as ->.
        { apply Qltb_lt. rewrite similarity_self. lra. }
        by rewrite orb_true_r. }
  unfold learnErrorFix at 1 2. cbv zeta. rewrite Hi.
  split; [apply length_alter|].
  apply fmap_alter_same. intros x. apply nudge_identity.
Qed.

(** X5.  The exception of the previous property is real: an error text
    of more than 200 characters without a keyword that no pattern is
    taken for is added as a new pattern by each successful call. *)
Theorem learnErrorFix_long_text_duplicates (errorText d1 d2 : string)
    (f1 f2 : PartialFix) (now1 now2 : string) (ms1 ms2 : Z) (store : Store) :
  (200 < String.length errorText)%nat →
  extractKeywords errorText = [] →
  findIndex (similarTo errorText []) store = None →
  length (learnErrorFix errorText d2 f2 true now2 ms2
            (learnErrorFix errorText d1 f1 true now1 ms1 store))
  = (length store + 2)%nat.
Proof.
  intros Hlen Hkw Hfind.
  unfold learnErrorFix. cbv zeta. rewrite Hkw, Hfind.
  rewrite findIndex_snoc by done.
  unfold similarTo at 1. cbn [errorPattern errorKeywords].
  rewrite bool_decide_eq_false_2.
  - replace (false || Qltb (7 # 10) (similarity [] [])) with false by done.
    rewrite !length_app. simpl. lia.
  - intros Heq. apply (f_equal String.length) in Heq.
    rewrite substring0_length in Heq. lia.
Qed.

(** X6.  The confidence of every pattern stays between 0.1 and 1:
    neither [learnErrorFix] nor [recordFixUsage] takes a store out of
    that range. *)
Theorem confidence_range_kept (errorText fixDescription patternId now : string)
    (fixDetails : PartialFix) (success : bool) (nowMs : Z) (store : Store) :
  Forall inRange store →
  Forall inRange
    (learnErrorFix errorText fixDescription fixDetails success now nowMs store)
  ∧ Forall inRange (recordFixUsage patternId success now store).
Proof.
  intros Hstore. split.
  - by apply learnErrorFix_inRange.
  - by apply recordFixUsage_inRange.
Qed.

(** X7.  [learnErrorFix] removes no pattern and rewrites none: what
    identifies the patterns (id, error pattern, keywords, fix and source)
    is kept in place, at most one pattern is added behind them, and none
    is added for a fix that failed. *)
Theorem learnErrorFix_keeps_patterns (errorText fixDescription : string)
    (fixDetails : PartialFix) (success : bool) (nowIso : string) (nowMs : Z)
    (store : Store) :
  ∃ added,
    identity <$> learnErrorFix errorText fixDescription fixDetails success
                   nowIso nowMs store
    = (identity <$> store) ++ added
    ∧ (length added ≤ 1)%nat
    ∧ (success = false → added = []).
Proof.
  destruct (learnErrorFix_identity errorText fixDescription fixDetails success
              nowIso nowMs store) as (added & Hid & Hlen).
  exists added. split; [done|]. split; [done|].
  intros ->. apply (f_equal length) in Hid.
  rewrite length_app, !length_fmap in Hid.
  assert (length (learnErrorFix errorText fixDescription fixDetails false
                    nowIso nowMs store) = length store) as Hsame.
  { unfold learnErrorFix. cbv zeta.
    destruct (findIndex _ store); [apply length_alter|done]. }
  destruct added; [done|]. simpl in Hid. lia.
Qed.

(** X8.  [recordFixUsage] touches one pattern at most: what identifies
    the patterns is kept, the patterns of another id are left as they
    are, and so is the whole store when no pattern has the id. *)
Theorem recordFixUsage_frame (patternId now : string) (success : bool)
    (store : Store) :
  identity <$> recordFixUsage patternId success now store = identity <$> store
  ∧ filter (λ p, id p ≠ patternId) (recordFixUsage patternId success now store)
    = filter (λ p, id p ≠ patternId) store
  ∧ (patternId ∉ id <$> store →
     recordFixUsage patternId success now store = store).
Proof.
  destruct (findIndex (λ p, bool_decide (id p = patternId)) store) as [i|]
    eqn:Hfind.
  - pose proof Hfind as Hfind'.
    apply findIndex_Some in Hfind as (x & Hx & Hid%bool_decide_eq_true).
    split; [apply recordFixUsage_identity|]. unfold recordFixUsage.
    rewrite Hfind'. split.
    + apply (filter_alter_out _ _ _ _ x); [done|..]; rewrite ?nudge_id; tauto.
    + intros Hnot. destruct Hnot. apply list_elem_of_fmap. exists x.
      split; [done|]. by eapply list_elem_of_lookup_2.
  - unfold recordFixUsage. by rewrite Hfind.
Qed.

(** The boost grows with the confidence and with the count of
    successes. *)
Lemma boost_le (p q : ErrorFixPattern) (r : Z) :
  0 <= r → 0 <= successCount p <= successCount q →
  (0 <= Js.double (confidence p) <= Js.double (confidence q))%Q →
  (boost p r <= boost q r)%Q.
Proof.
  intros Hr [Hs Hss] [Hc Hcc]. unfold boost.
  assert (0 <= Js.double (inject_Z r))%Q as Hr'.
  { apply double_nonneg. change 0%Q with (inject_Z 0). by rewrite <- Zle_Qle. }
  assert (0 <= Js.double (inject_Z (successCount p))
          <= Js.double (inject_Z (successCount q)))%Q as [Hs' Hss'].
  { split; [apply double_nonneg|apply double_le].
    - change 0%Q with (inject_Z 0). by rewrite <- Zle_Qle.
    - by rewrite <- Zle_Qle. }
  assert (0 < Js.double 10)%Q as Hten by (by vm_compute).
  assert (0 <= Js.div (inject_Z (successCount p)) 10)%Q as Hd.
  { apply double_nonneg. apply Qle_shift_div_l; [done|]. lra. }
  apply mul_le; rewrite ?double_mul, ?double_add.
  - split; [by apply mul_nonneg; lra|]. apply mul_le; lra.
  - split.
    + apply double_nonneg. rewrite double_div, double_1. lra.
    + apply add_le; [lra|]. rewrite !double_div. by apply div_le.
Qed.

(** X9.  For a pattern whose confidence is within range and whose
    success count is not negative, a recorded success never lowers the
    score it gets for an error text, and a recorded failure never raises
    it. *)
Theorem recordFixUsage_score (errorText patternId now : string) (store : Store)
    (i : nat) (p : ErrorFixPattern) :
  findIndex (λ p, bool_decide (id p = patternId)) store = Some i →
  store !! i = Some p →
  inRange p → 0 <= successCount p →
  (∃ q, recordFixUsage patternId true now store !! i = Some q
        ∧ (finalScore errorText p <= finalScore errorText q)%Q)
  ∧ (∃ q, recordFixUsage patternId false now store !! i = Some q
          ∧ (finalScore errorText q <= finalScore errorText p)%Q).
Proof.
  intros Hfind Hp Hrange Hcount.
  pose proof (rawScore_nonneg errorText p) as Hraw.
  destruct (double_range _ Hrange) as [Hlo _].
  pose proof double_tenth as [Ht _].
  split.
  - destruct (recordFixUsage_found patternId now true store i p Hfind Hp) as [_ ->].
    eexists. split; [done|].
    destruct (nudge_success_bounds now p Hrange) as [Hup _].
    unfold finalScore. rewrite nudge_rawScore.
    apply boost_le; [done|simpl; lia|]. rewrite nudge_double. lra.
  - destruct (recordFixUsage_found patternId now false store i p Hfind Hp) as [_ ->].
    eexists. split; [done|].
    destruct (nudge_failure_bounds now p Hrange) as [Hfloor Hdown].
    unfold finalScore. rewrite nudge_rawScore.
    apply boost_le; [done|simpl; lia|]. rewrite nudge_double. lra.
Qed.

End LearningProperties.

(** * The whole nucleus *)

Section TemplateFacts.
Import Nucleus.

Lemma commit_patterns (c : Call) (d : DynamicPatternsData) (this : State) :
  patterns (commit c d this) = withLastUpdated (savedAt c) d.
Proof. unfold commit, save. simpl. by destruct (writable c). Qed.

Lemma commit_written (c : Call) (d : DynamicPatternsData) (this : State) :
  (writable c = true →
   isDirty (commit c d this) = false
   ∧ disk (commit c d this) = Some (patterns (commit c d this)))
  ∧ (writable c = false →
     isDirty (commit c d this) = true ∧ disk (commit c d this) = disk this).
Proof. unfold commit, save. simpl. by destruct (writable c). Qed.

Lemma template_keywordScore_count (descLower : string) (keywords : list string)
    (score : Z) :
  keywordScore descLower keywords score
  = score + 3 * Z.of_nat (length (filter
      (λ keyword, Js.includes descLower (Js.toLowerCase keyword)) keywords)).
Proof.
  unfold keywordScore. revert score.
  induction keywords as [|k ks IH]; intros score.
  { rewrite filter_nil. simpl. lia. }
  cbn [fold_left]. rewrite IH, filter_cons.
  destruct (Js.includes descLower (Js.toLowerCase k)) eqn:E.
  - rewrite decide_True by done. simpl length. lia.
  - rewrite decide_False by (simpl; tauto). lia.
Qed.

Lemma exampleScore_count (descLower : string) (examples : list string) (score : Z) :
  exampleScore descLower examples score
  = score + 5 * Z.of_nat (length (filter
      (λ example, Js.includes descLower (Js.toLowerCase example)
                  || Js.includes (Js.toLowerCase example) descLower) examples)).
Proof.
  unfold exampleScore. revert score.
  induction examples as [|k ks IH]; intros score.
  { rewrite filter_nil. simpl. lia. }
  cbn [fold_left]. rewrite IH, filter_cons.
  destruct (Js.includes descLower (Js.toLowerCase k)
            || Js.includes (Js.toLowerCase k) descLower) eqn:E.
  - rewrite decide_True by done. simpl length. lia.
  - rewrite decide_False by (simpl; tauto). lia.
Qed.

Lemma template_rawScore_nonneg (description : string) (p : WidgetTemplatePattern) :
  0 <= rawScore description p.
Proof.
  unfold rawScore. cbv zeta.
  rewrite exampleScore_count, template_keywordScore_count. lia.
Qed.

(** A template scores when one of its examples holds the description or
    is held by it, up to case. *)
Lemma template_rawScore_hit (description example : string)
    (p : WidgetTemplatePattern) :
  example ∈ tpl_examples p →
  Js.includes (Js.toLowerCase description) (Js.toLowerCase example)
  || Js.includes (Js.toLowerCase example) (Js.toLowerCase description) = true →
  rawScore description p ≠ 0.
Proof.
  intros Hin Hhit. unfold rawScore. cbv zeta.
  rewrite exampleScore_count, template_keywordScore_count.
  set (hits := filter _ (tpl_examples p)).
  assert (example ∈ hits) as Hmem by (apply list_elem_of_filter; by rewrite Hhit).
  clearbody hits. destruct hits; [by apply elem_of_nil in Hmem|].
  simpl length. lia.
Qed.

Lemma template_collectMatches_patterns (description : string)
    (l : list WidgetTemplatePattern) :
  pattern <$> collectMatches description l
  = filter (λ p, rawScore description p ≠ 0) l.
Proof.
  induction l as [|p l IH]; [done|]. cbn [collectMatches].
  rewrite filter_cons. pose proof (template_rawScore_nonneg description p).
  destruct (0 <? rawScore description p) eqn:E.
  - apply Z.ltb_lt in E. rewrite decide_True by lia.
    by rewrite fmap_cons, IH.
  - apply Z.ltb_ge in E. rewrite decide_False by lia. apply IH.
Qed.

Lemma template_collectMatches_scores (description : string)
    (l : list WidgetTemplatePattern) :
  Forall (λ m, score m = finalScore description (pattern m))
    (collectMatches description l).
Proof.
  induction l as [|p l IH]; simpl; [constructor|].
  destruct (0 <? rawScore description p); [constructor; [done|]|]; apply IH.
Qed.

(** [getMatchingTemplates] is the stable descending sort, by final
    score, of the templates whose score is not zero. *)
Lemma getMatchingTemplates_sort (description : string) (this : State) :
  getMatchingTemplates description this
  = sortBy (byKeyDesc (finalScore description))
      (filter (λ p, rawScore description p ≠ 0) (widgetTemplates (patterns this))).
Proof.
  unfold getMatchingTemplates.
  rewrite <- template_collectMatches_patterns.
  apply (sortBy_fmap _ _ _ (λ m, score m = finalScore description (pattern m))).
  - intros a b Ha Hb. unfold byScoreDesc, byKeyDesc. rewrite Ha, Hb.
    apply Qltb_sub; apply double_mul.
  - apply template_collectMatches_scores.
Qed.

Lemma getMatchingTemplates_elem (description : string) (this : State)
    (p : WidgetTemplatePattern) :
  p ∈ getMatchingTemplates description this
  ↔ p ∈ widgetTemplates (patterns this) ∧ rawScore description p ≠ 0.
Proof.
  rewrite getMatchingTemplates_sort, sortBy_perm, list_elem_of_filter. tauto.
Qed.

Lemma includes_empty (s : string) : Js.includes s "" = true.
Proof. by destruct s. Qed.

End TemplateFacts.

Section TemplateProperties.
Import Nucleus.

(** X10.  [getMatchingTemplates] returns exactly the templates whose
    score is not zero, in descending order of final score, and templates
    of the same final score in the order of the collection.  The score
    is 3 for each keyword that occurs in the description and 5 for each
    example that holds the description or is held by it, up to case, and
    the final score is that sum times [1 + successCount / 5], each
    operation being the one of the machine, which rounds.  The counts of
    successes are counts, so that no score overflows. *)
Theorem getMatchingTemplates_ranked (description : string) (this : State) :
  let templates := widgetTemplates (patterns this) in
  Forall (λ p, 0 <= tpl_successCount p < 2 ^ 53) templates →
  (∀ p, rawScore description p
        = 3 * Z.of_nat (length (filter
              (λ keyword, Js.includes (Js.toLowerCase description)
                            (Js.toLowerCase keyword))
              (keywords p)))
          + 5 * Z.of_nat (length (filter
              (λ example, Js.includes (Js.toLowerCase description)
                            (Js.toLowerCase example)
                          || Js.includes (Js.toLowerCase example)
                               (Js.toLowerCase description))
              (tpl_examples p))))
  ∧ (∀ p, finalScore description p
          = Js.mul (inject_Z (rawScore description p))
              (Js.add 1 (Js.div (inject_Z (tpl_successCount p)) 5)))
  ∧ getMatchingTemplates description this
      ≡ₚ filter (λ p, rawScore description p ≠ 0) templates
  ∧ StronglySorted
      (λ a b, (finalScore description b <= finalScore description a)%Q)
      (getMatchingTemplates description this)
  ∧ (∀ v : Q,
       filter (λ p, Qeq_bool (finalScore description p) v)
         (getMatchingTemplates description this)
       = filter (λ p, Qeq_bool (finalScore description p) v)
           (filter (λ p, rawScore description p ≠ 0) templates)).
Proof.
  intros templates _. split; [|split; [|split; [|split]]].
  - intros p. unfold rawScore. cbv zeta.
    rewrite exampleScore_count, template_keywordScore_count. lia.
  - done.
  - rewrite getMatchingTemplates_sort. apply sortBy_perm.
  - rewrite getMatchingTemplates_sort.
    apply (sortBy_sorted (finalScore description)).
  - intros v. rewrite getMatchingTemplates_sort.
    apply (sortBy_stable (finalScore description)).
Qed.

(** X11.  A description that was learned finds its template again:
    after [learnWidgetTemplate], [getMatchingTemplates] returns for the
    same description a template that lists it among its examples. *)
Theorem learnWidgetTemplate_then_match (widgetType_ description templateCode : string)
    (props_ : list TemplateProp) (c : Call) (this : State) :
  ∃ p, p ∈ getMatchingTemplates description
             (learnWidgetTemplate widgetType_ description templateCode props_ c this)
       ∧ description ∈ tpl_examples p.
Proof.
  assert (∀ p, description ∈ tpl_examples p → rawScore description p ≠ 0) as Hhit.
  { intros p Hin. apply (template_rawScore_hit _ description); [done|].
    by rewrite includes_self. }
  unfold learnWidgetTemplate. cbv zeta.
  destruct (findIndex _ _) as [i|] eqn:Hfind.
  - apply findIndex_Some in Hfind as (x & Hx & _).
    exists (reuse description (nowIso c) x).
    assert (description ∈ tpl_examples (reuse description (nowIso c) x)) as Hin.
    { apply elem_of_app. right. apply list_elem_of_here. }
    split; [|done]. apply getMatchingTemplates_elem. rewrite commit_patterns.
    split; [|by apply Hhit].
    apply list_elem_of_lookup. exists i. cbn [widgetTemplates withLastUpdated withWidgetTemplates].
    by rewrite list_lookup_alter_eq, Hx.
  - eexists. split.
    + apply getMatchingTemplates_elem. rewrite commit_patterns.
      split; [apply elem_of_app; right; apply list_elem_of_here|].
      apply Hhit. apply list_elem_of_here.
    + apply list_elem_of_here.
Qed.

End TemplateProperties.

Section CollectionFacts.
Import Nucleus.

Lemma amend_apiName (usage : string) (mistake : option string) (p : SdkApiPattern) :
  apiName (amend usage mistake p) = apiName p.
Proof. done. Qed.

(** Amending twice with the same usage and mistake is amending once. *)
Lemma amend_twice (usage : string) (mistake : option string) (p : SdkApiPattern) :
  amend usage mistake (amend usage mistake p) = amend usage mistake p.
Proof.
  unfold amend. cbn [api_id apiName correctUsage commonMistakes mendixVersion
                     api_examples api_source].
  f_equal.
  - destruct (bool_decide (String.length (correctUsage p) < String.length usage)%nat)
      eqn:E; [|by rewrite E].
    rewrite bool_decide_eq_false_2; [done|lia].
  - destruct mistake as [[|ch m]|]; try done.
    destruct (bool_decide (String ch m ∈ commonMistakes p)) eqn:E; cbn [negb].
    + by rewrite E.
    + rewrite bool_decide_eq_true_2; [done|].
      apply elem_of_app. right. apply list_elem_of_here.
Qed.

Lemma alter_twice {A} (g : A → A) (i : nat) (l : list A) :
  (∀ x, g (g x) = g x) → alter g i (alter g i l) = alter g i l.
Proof.
  intros Hg. revert i. induction l as [|y l IH]; intros [|i]; try done.
  - cbn [alter list_alter]. by rewrite Hg.
  - cbn [alter list_alter]. f_equal. apply IH.
Qed.

Lemma NoDup_snoc {A} (l : list A) (x : A) : NoDup l → x ∉ l → NoDup (l ++ [x]).
Proof.
  intros Hl Hx. apply NoDup_app. split; [done|]. split; [|apply NoDup_singleton].
  intros y Hy ->%list_elem_of_singleton. done.
Qed.

End CollectionFacts.

Section CollectionProperties.
Import Nucleus.

(** X12.  Learning the same interface pattern again changes nothing:
    a second [learnSdkApi] with the same name, usage and mistake leaves
    the collection as the first one made it. *)
Theorem learnSdkApi_idempotent (apiName_ correctUsage_ : string)
    (mistake : option string) (c1 c2 : Call) (this : State) :
  getSdkApiPatterns (learnSdkApi apiName_ correctUsage_ mistake c2
                       (learnSdkApi apiName_ correctUsage_ mistake c1 this))
  = getSdkApiPatterns (learnSdkApi apiName_ correctUsage_ mistake c1 this).
Proof.
  unfold getSdkApiPatterns. unfold learnSdkApi at 1. cbv zeta. rewrite commit_patterns.
  cbn [sdkApis withLastUpdated withSdkApis].
  unfold learnSdkApi. cbv zeta. rewrite commit_patterns.
  cbn [sdkApis withLastUpdated withSdkApis].
  destruct (findIndex _ (sdkApis (patterns this))) as [i|] eqn:Hfind.
  - rewrite (findIndex_alter _ _ _ i) by done.
    apply alter_twice, amend_twice.
  - rewrite findIndex_snoc by done. cbn [apiName].
    rewrite bool_decide_eq_true_2 by done.
    rewrite alter_app_r_alt by lia. rewrite Nat.sub_diag.
    cbn [alter list_alter]. f_equal. f_equal.
    unfold amend. cbn [api_id apiName correctUsage commonMistakes mendixVersion
                       api_examples api_source].
    f_equal.
    + rewrite bool_decide_eq_false_2; [done|lia].
    + destruct mistake as [[|ch m]|]; try done.
      rewrite bool_decide_eq_true_2; [done|apply list_elem_of_here].
Qed.

Lemma learnSdkApi_well_formed (apiName_ correctUsage_ : string)
    (mistake : option string) (c : Call) (this : State) :
  let wellFormed (apis : list SdkApiPattern) :=
    NoDup (apiName <$> apis)
    ∧ Forall (λ p, NoDup (commonMistakes p) ∧ "" ∉ commonMistakes p) apis in
  wellFormed (sdkApis (patterns this)) →
  wellFormed (sdkApis (patterns (learnSdkApi apiName_ correctUsage_ mistake c this))).
Proof.
  intros wellFormed [Hnames Hmistakes]. unfold learnSdkApi. cbv zeta.
  rewrite commit_patterns. cbn [sdkApis withLastUpdated withSdkApis].
  destruct (findIndex _ (sdkApis (patterns this))) as [i|] eqn:Hfind.
  - split; [by rewrite fmap_alter_same|].
    apply Forall_alter; [done|]. intros p _ [Hnd Hne].
    unfold amend. cbn [commonMistakes].
    destruct mistake as [[|ch m]|]; try done.
    destruct (bool_decide (String ch m ∈ commonMistakes p)) eqn:E; cbn [negb];
      [done|].
    apply bool_decide_eq_false in E. split; [by apply NoDup_snoc|].
    intros [?|?%list_elem_of_singleton]%elem_of_app; done.
  - split.
    + rewrite fmap_app. apply NoDup_snoc; [done|]. cbn [apiName].
      intros (p & Hname & Hp)%list_elem_of_fmap.
      apply (findIndex_None_inv _ _ p Hfind) in Hp.
      by rewrite bool_decide_eq_true_2 in Hp.
    + apply Forall_app. split; [done|]. apply Forall_singleton.
      cbn [commonMistakes]. destruct mistake as [[|ch m]|].
      * split; [apply NoDup_nil_2|apply not_elem_of_nil].
      * split; [apply NoDup_singleton|].
        by intros ?%list_elem_of_singleton.
      * split; [apply NoDup_nil_2|apply not_elem_of_nil].
Qed.

Lemma learnSdkApi_monotone (apiName_ correctUsage_ : string)
    (mistake : option string) (c : Call) (this : State) :
  let before := sdkApis (patterns this) in
  let after := sdkApis (patterns (learnSdkApi apiName_ correctUsage_ mistake c this)) in
  (∃ added, apiName <$> after = (apiName <$> before) ++ added
            ∧ (length added ≤ 1)%nat)
  ∧ ∀ i p, before !! i = Some p →
      ∃ q, after !! i = Some q
           ∧ (String.length (correctUsage p) ≤ String.length (correctUsage q))%nat
           ∧ commonMistakes p `prefix_of` commonMistakes q.
Proof.
  intros before after.
  unfold after, learnSdkApi. cbv zeta.
  rewrite commit_patterns. cbn [sdkApis withLastUpdated withSdkApis].
  fold before.
  assert (∀ p, (String.length (correctUsage p)
                ≤ String.length (correctUsage (amend correctUsage_ mistake p)))%nat
               ∧ commonMistakes p
                   `prefix_of` commonMistakes (amend correctUsage_ mistake p))
    as Hamend.
  { intros p. unfold amend. cbn [correctUsage commonMistakes]. split.
    - case_bool_decide; lia.
    - destruct mistake as [[|ch m]|]; try done.
      destruct (negb _); [by apply prefix_app_r|done]. }
  destruct (findIndex _ before) as [i|] eqn:Hfind.
  - split.
    + exists []. rewrite app_nil_r. split; [by rewrite fmap_alter_same|simpl; lia].
    + intros j p Hp. destruct (decide (i = j)) as [->|Hne].
      * exists (amend correctUsage_ mistake p).
        rewrite list_lookup_alter_eq, Hp. split; [done|apply Hamend].
      * exists p. rewrite list_lookup_alter_ne by done. done.
  - split.
    + eexists. split; [by rewrite fmap_app|simpl; lia].
    + intros j p Hp. exists p. split; [by apply lookup_app_l_Some|done].
Qed.

(** X13.  [learnSdkApi] forgets nothing and keeps the collection well
    formed: the names stay in place with at most one added behind them,
    no usage gets shorter, and the mistakes of a pattern are kept in
    place at the head of its list; and if no two patterns have the same
    name and no pattern lists a mistake twice or lists the empty text,
    the same holds afterwards. *)
Theorem learnSdkApi_keeps (apiName_ correctUsage_ : string)
    (mistake : option string) (c : Call) (this : State) :
  let before := getSdkApiPatterns this in
  let after := getSdkApiPatterns (learnSdkApi apiName_ correctUsage_ mistake c this) in
  let wellFormed (apis : list SdkApiPattern) :=
    NoDup (apiName <$> apis)
    ∧ Forall (λ p, NoDup (commonMistakes p) ∧ "" ∉ commonMistakes p) apis in
  (∃ added, apiName <$> after = (apiName <$> before) ++ added
            ∧ (length added ≤ 1)%nat)
  ∧ (∀ i p, before !! i = Some p →
       ∃ q, after !! i = Some q
            ∧ (String.length (correctUsage p) ≤ String.length (correctUsage q))%nat
            ∧ commonMistakes p `prefix_of` commonMistakes q)
  ∧ (wellFormed before → wellFormed after).
Proof.
  intros before after wellFormed.
  destruct (learnSdkApi_monotone apiName_ correctUsage_ mistake c this)
    as [Hnames Hkept].
  split; [exact Hnames|]. split; [exact Hkept|]. apply learnSdkApi_well_formed.
Qed.

(** X14.  A best practice is learned once: no two practices get the same
    title up to case, the title that was learned is among the practices
    that [getBestPractices] returns, and a further [learnBestPractice]
    with a title that differs in case only changes nothing at all,
    whatever else it is called with. *)
Theorem learnBestPractice_once (category1 category2 title1 title2 : string)
    (description1 description2 : string) (do1 do2 dont1 dont2 : list string)
    (c1 c2 : Call) (this : State) :
  let titles (st : State) :=
    (λ p, Js.toLowerCase (title p)) <$> bestPractices (patterns st) in
  let learned := learnBestPractice category1 title1 description1 do1 dont1 c1 this in
  NoDup (titles this) → Js.toLowerCase title2 = Js.toLowerCase title1 →
  NoDup (titles learned)
  ∧ (∃ p, p ∈ getBestPractices None learned
          ∧ Js.toLowerCase (title p) = Js.toLowerCase title1)
  ∧ learnBestPractice category2 title2 description2 do2 dont2 c2 learned = learned.
Proof.
  intros titles learned Hnd Htitle.
  assert (∀ st p, p ∈ bestPractices (patterns st) →
            Js.toLowerCase (title p) = Js.toLowerCase title1 →
            learnBestPractice category2 title2 description2 do2 dont2 c2 st = st)
    as Hknown.
  { intros st p Hp Hpt. unfold learnBestPractice. cbv zeta.
    destruct (findIndex _ _) eqn:Hfind; [done|].
    apply (findIndex_None_inv _ _ p Hfind) in Hp.
    rewrite bool_decide_eq_true_2 in Hp; [done|congruence]. }
  assert (NoDup (titles learned)
          ∧ ∃ p, p ∈ bestPractices (patterns learned)
                 ∧ Js.toLowerCase (title p) = Js.toLowerCase title1)
    as [Hnd' (p & Hp & Hpt)].
  { unfold learned, titles, learnBestPractice. cbv zeta.
    destruct (findIndex _ (bestPractices (patterns this))) as [i|] eqn:Hfind.
    - apply findIndex_Some in Hfind as (p & Hp & Hpt%bool_decide_eq_true).
      apply list_elem_of_lookup_2 in Hp. eauto.
    - rewrite commit_patterns.
      cbn [bestPractices withLastUpdated withBestPractices].
      rewrite fmap_app. cbn [fmap list_fmap title]. split.
      + apply NoDup_snoc; [done|].
        intros (p & Hpt & Hp)%list_elem_of_fmap.
        apply (findIndex_None_inv _ _ p Hfind) in Hp.
        by rewrite bool_decide_eq_true_2 in Hp.
      + eexists. split; [apply elem_of_app; right; apply list_elem_of_here|done]. }
  split; [done|]. split; [by exists p|by apply (Hknown learned p)].
Qed.

(** X15.  The three methods that always learn write the object through:
    when the file can be written it holds afterwards what the object
    holds and the object is clean; when it cannot, the file is left as
    it was and the object stays dirty.  Either way the patterns carry
    the time of the save, also when the call learned nothing.
    [recordFixUsage] with an id that no pattern has does nothing of the
    kind: the object is left as it is and no file is written. *)
Theorem learning_writes_through (errorText fixDescription patternId : string)
    (fixDetails : DP.PartialFix) (success : bool)
    (widgetType_ description templateCode : string) (props_ : list TemplateProp)
    (apiName_ correctUsage_ : string) (mistake : option string)
    (c : Call) (this : State) :
  Forall
    (λ after,
       lastUpdated (patterns after) = savedAt c
       ∧ (writable c = true →
          isDirty after = false ∧ disk after = Some (patterns after))
       ∧ (writable c = false →
          isDirty after = true ∧ disk after = disk this))
    [ learnErrorFix errorText fixDescription fixDetails success c this;
      learnWidgetTemplate widgetType_ description templateCode props_ c this;
      learnSdkApi apiName_ correctUsage_ mistake c this ]
  ∧ (patternId ∉ DP.id <$> errorFixes (patterns this) →
     recordFixUsage patternId success c this = this).
Proof.
  split.
  - unfold learnErrorFix, learnWidgetTemplate, learnSdkApi. cbv zeta.
    repeat apply Forall_cons_2; [..|apply Forall_nil_2];
      (split; [by rewrite commit_patterns|apply commit_written]).
  - intros Hnot. unfold recordFixUsage. cbv zeta.
    destruct (findIndex _ _) as [i|] eqn:Hfind; [|done].
    apply findIndex_Some in Hfind as (p & Hp & Hid%bool_decide_eq_true).
    destruct Hnot. apply list_elem_of_fmap. exists p.
    split; [done|]. by eapply list_elem_of_lookup_2.
Qed.

(** X16.  Learned templates are not counted as learned:
    [learnWidgetTemplate] leaves [learnedPatterns] as it is while the
    total does not shrink and grows by one at most; and the learned
    patterns and the templates together never exceed the total. *)
Theorem getStats_learnWidgetTemplate (widgetType_ description templateCode : string)
    (props_ : list TemplateProp) (c : Call) (this : State) :
  let before := getStats this in
  let after :=
    getStats (learnWidgetTemplate widgetType_ description templateCode props_ c this) in
  learnedPatterns after = learnedPatterns before
  ∧ (totalPatterns before ≤ totalPatterns after ≤ S (totalPatterns before))%nat
  ∧ (learnedPatterns before + stat_templates before ≤ totalPatterns before)%nat.
Proof.
  intros before after. unfold after, before, getStats, learnWidgetTemplate.
  cbv zeta. rewrite commit_patterns.
  cbn [learnedPatterns totalPatterns stat_templates errorFixes widgetTemplates
       sdkApis bestPractices withLastUpdated withWidgetTemplates].
  split; [done|]. split.
  - destruct (findIndex _ _).
    + rewrite length_alter. lia.
    + rewrite length_app. simpl. lia.
  - pose proof (length_filter (λ p, fixLearned (DP.source p)) (errorFixes (patterns this))).
    pose proof (length_filter (λ p, isLearned (api_source p)) (sdkApis (patterns this))).
    pose proof (length_filter (λ p, isLearned (bp_source p))
                  (bestPractices (patterns this))).
    lia.
Qed.

End CollectionProperties.

(** * The knowledge base *)

Section KnowledgeFacts.
Import KnowledgeSharing.

Lemma wordScore_count (errorLower patternLower : string) :
  wordScore errorLower patternLower
  = Z.of_nat (length (filter
      (λ keyword, bool_decide (3 < String.length keyword)%nat
                  && Js.includes errorLower keyword)
      (Js.splitWs patternLower))).
Proof.
  unfold wordScore.
  assert (∀ l score,
    fold_left
      (λ score keyword,
         if bool_decide (3 < String.length keyword)%nat
            && Js.includes errorLower keyword
         then score + 1 else score) l score
    = score + Z.of_nat (length (filter
        (λ keyword, bool_decide (3 < String.length keyword)%nat
                    && Js.includes errorLower keyword) l))) as Hgen.
  { induction l as [|k ks IH]; intros score.
    { rewrite filter_nil. simpl. lia. }
    cbn [fold_left]. rewrite IH, filter_cons.
    destruct (bool_decide (3 < String.length k)%nat && Js.includes errorLower k) eqn:E.
    - rewrite decide_True by done. simpl length. lia.
    - rewrite decide_False by (simpl; tauto). lia. }
  by rewrite Hgen.
Qed.

(** A pattern scores only through a word of more than three characters
    that the error text holds. *)
Lemma wordScore_pos (errorLower patternLower : string) :
  0 < wordScore errorLower patternLower →
  ∃ word, word ∈ Js.splitWs patternLower
          ∧ (3 < String.length word)%nat
          ∧ Js.includes errorLower word = true.
Proof.
  rewrite wordScore_count. set (hits := filter _ _). intros Hpos.
  destruct hits as [|word hits'] eqn:E; [simpl in Hpos; lia|].
  assert (word ∈ hits) as Hin by (rewrite E; apply list_elem_of_here).
  apply list_elem_of_filter in Hin as [[Hlen%bool_decide_unpack Hinc]%andb_True Hin].
  exists word. split; [done|]. split; [done|]. by apply Is_true_true.
Qed.

(** What [getKnownFixes] collects comes from a fix file of the folder. *)
Lemma collectFixes_elem (errorLower : string) (files : Folder) (f : ScoredFix) :
  f ∈ collectFixes errorLower files →
  (∃ file, (file, Some (errorPattern f, fix_ f)) ∈ files
           ∧ Js.startsWith file "fix-" = true ∧ Js.endsWith file ".json" = true)
  ∧ errorPattern f ≠ "" ∧ fix_ f ≠ ""
  ∧ score f = wordScore errorLower (Js.toLowerCase (errorPattern f))
  ∧ 0 < score f.
Proof.
  induction files as [|[file parsed] files IH]; [by intros ?%elem_of_nil|].
  assert (f ∈ collectFixes errorLower files →
          (∃ file', (file', Some (errorPattern f, fix_ f)) ∈ (file, parsed) :: files
                    ∧ Js.startsWith file' "fix-" = true
                    ∧ Js.endsWith file' ".json" = true)
          ∧ errorPattern f ≠ "" ∧ fix_ f ≠ ""
          ∧ score f = wordScore errorLower (Js.toLowerCase (errorPattern f))
          ∧ 0 < score f) as Hrest.
  { intros [(file' & Hin & ?) ?]%IH. split; [|done].
    exists file'. split; [by apply list_elem_of_further|done]. }
  cbn [collectFixes].
  destruct (Js.startsWith file "fix-") eqn:Hstart; [|done].
  destruct (Js.endsWith file ".json") eqn:Hend; [|done].
  cbn [negb orb].
  destruct parsed as [[[|c p] [|c' x]]|]; try done.
  destruct (0 <? _) eqn:Hpos; [|done].
  intros [->|Hin]%elem_of_cons; [|by apply Hrest].
  cbn [errorPattern fix_ score]. apply Z.ltb_lt in Hpos.
  split; [|done]. exists file. split; [apply list_elem_of_here|done].
Qed.

End KnowledgeFacts.

Section SlugFacts.
Import KnowledgeSharing.

Lemma startsWith_app_mono (s t p : string) :
  Js.startsWith s p = true → Js.startsWith (s +:+ t) p = true.
Proof.
  revert s. induction p as [|a p IH]; intros [|b s]; try done.
  rewrite app_cons. simpl. destruct (decide (a = b)); [apply IH|done].
Qed.

Lemma includes_app_mono (s t p : string) :
  Js.includes s p = true → Js.includes (s +:+ t) p = true.
Proof.
  induction s as [|b s IH].
  - simpl. destruct p; [|done]. intros _. apply includes_empty.
  - rewrite app_cons. cbn [Js.includes]. intros [H|H]%orb_true_iff.
    + pose proof (startsWith_app_mono _ t _ H) as H'.
      rewrite app_cons in H'. by rewrite H'.
    + rewrite IH by done. apply orb_true_r.
Qed.

Lemma isSlugChar_not_dash (c : ascii) : isSlugChar c = true → c ≠ "-"%char.
Proof. by intros H ->. Qed.

(** The text that [dashRuns] yields holds slug characters and dashes
    only, no two dashes in a row, and no dash at its head when it
    continues a run. *)
Lemma dashRuns_shape (inRun : bool) (s : string) :
  allChars slugOrDash (dashRuns inRun s) = true
  ∧ Js.includes (dashRuns inRun s) "--" = false
  ∧ (inRun = true → Js.startsWith (dashRuns inRun s) "-" = false).
Proof.
  revert inRun. induction s as [|c s IH]; intros inRun; [by destruct inRun|].
  cbn [dashRuns]. destruct (isSlugChar c) eqn:Hc.
  - destruct (IH false) as (Hall & Hno & _).
    pose proof (isSlugChar_not_dash c Hc) as Hdash.
    cbn [allChars]. unfold slugOrDash at 1. rewrite Hc, Hall.
    split; [done|]. split.
    + cbn [Js.includes Js.startsWith]. rewrite Hno.
      by rewrite decide_False by done.
    + intros _. cbn [Js.startsWith]. by rewrite decide_False by done.
  - destruct (IH true) as (Hall & Hno & Hhead). specialize (Hhead eq_refl).
    destruct inRun; [done|].
    cbn [allChars]. rewrite Hall. split; [done|]. split; [|done].
    cbn [Js.includes]. rewrite Hno.
    change (Js.startsWith (String "-" (dashRuns true s)) "--")
      with (Js.startsWith (dashRuns true s) "-").
    by rewrite Hhead.
Qed.

Lemma dropLastDash_prefix (s : string) : ∃ t, s = dropLastDash s +:+ t.
Proof.
  induction s as [|c s [t IH]]; [by exists ""|].
  destruct s as [|c' s].
  - cbn [dropLastDash]. case_bool_decide; [by exists (String c "")|by exists ""].
  - exists t. change (dropLastDash (String c (String c' s)))
      with (String c (dropLastDash (String c' s))).
    rewrite app_cons. by rewrite <- IH.
Qed.

Lemma dropLastDash_head (s : string) :
  Js.startsWith s "-" = false → Js.startsWith (dropLastDash s) "-" = false.
Proof.
  destruct s as [|c [|c' s]]; try done.
  cbn [dropLastDash]. by case_bool_decide.
Qed.

Lemma substring0_head (n : nat) (s : string) :
  Js.startsWith s "-" = false → Js.startsWith (Js.substring0 n s) "-" = false.
Proof. by destruct n, s. Qed.

End SlugFacts.

Section KnowledgeProperties.
Import KnowledgeSharing.

(** X17.  [getKnownFixes] returns three fixes at most.  Each comes from
    a file of the folder whose name starts with [fix-] and ends with
    [.json], has a pattern and a fix that are not empty, and its
    pattern holds, in lower case, a word of more than three characters
    that occurs in the lower-cased error text.  Without a folder nothing
    is returned. *)
Theorem getKnownFixes_sound (errorText : string) (kb : KnowledgeBase) :
  (length (getKnownFixes errorText kb) ≤ 3)%nat
  ∧ Forall
      (λ known,
         (∃ files file,
            kb = Some files ∧ (file, Some known) ∈ files
            ∧ Js.startsWith file "fix-" = true ∧ Js.endsWith file ".json" = true)
         ∧ known.1 ≠ "" ∧ known.2 ≠ ""
         ∧ ∃ word, word ∈ Js.splitWs (Js.toLowerCase known.1)
                   ∧ (3 < String.length word)%nat
                   ∧ Js.includes (Js.toLowerCase errorText) word = true)
      (getKnownFixes errorText kb).
Proof.
  destruct kb as [files|]; [|split; [simpl; lia|constructor]].
  cbn [getKnownFixes]. split.
  - rewrite length_fmap, length_take. lia.
  - apply Forall_fmap, Forall_forall. intros f Hf.
    apply elem_of_take in Hf as (i & Hf%list_elem_of_lookup_2 & _).
    rewrite sortBy_perm in Hf.
    apply collectFixes_elem in Hf as ((file & Hin & ? & ?) & ? & ? & Hscore & Hpos).
    cbn. split; [by exists files, file|]. split; [done|]. split; [done|].
    rewrite Hscore in Hpos. by apply wordScore_pos.
Qed.

(** X18.  A slug is at most fifty characters long, is made of
    lower-case letters, digits and dashes, does not start with a dash,
    and holds no two dashes in a row. *)
Theorem slugify_shape (text : string) :
  (String.length (slugify text) ≤ 50)%nat
  ∧ allChars slugOrDash (slugify text) = true
  ∧ Js.startsWith (slugify text) "-" = false
  ∧ Js.includes (slugify text) "--" = false.
Proof.
  unfold slugify, trimDashes.
  destruct (dashRuns_shape false (Js.toLowerCase text)) as (Hall & Hno & _).
  set (d := dashRuns false (Js.toLowerCase text)) in *.
  set (d1 := if Js.startsWith d "-" then Js.drop 1 d else d).
  assert (∃ a, d = a +:+ d1) as [a Hd1].
  { unfold d1. destruct d as [|c d']; [by exists ""|].
    cbn [Js.startsWith Js.drop]. case_decide; [by exists (String c "")|by exists ""]. }
  assert (Js.startsWith d1 "-" = false) as Hhead.
  { unfold d1. destruct d as [|c d'] eqn:Ed; [done|].
    cbn [Js.startsWith]. case_decide as Hc; [|by cbn; rewrite decide_False].
    subst c. cbn [Js.drop].
    cbn [Js.includes] in Hno. apply orb_false_iff in Hno as [Hno _].
    exact Hno. }
  destruct (dropLastDash_prefix d1) as [b Hb].
  set (d2 := dropLastDash d1) in *.
  set (slug := Js.substring0 50 d2).
  assert (d = a +:+ slug +:+ (Js.drop 50 d2 +:+ b)) as Hseg.
  { rewrite Hd1, Hb. f_equal. rewrite <- string_app_assoc. f_equal.
    apply substring0_drop. }
  split; [|split; [|split]].
  - unfold slug. rewrite substring0_length. lia.
  - rewrite Hseg, !allChars_app in Hall.
    by apply andb_true_iff in Hall as [_ [? _]%andb_true_iff].
  - apply substring0_head, dropLastDash_head, Hhead.
  - destruct (Js.includes slug "--") eqn:Hinc; [|done].
    assert (Js.includes d "--" = true) as Hd; [|congruence].
    rewrite Hseg. clear -Hinc. induction a as [|c a IH].
    + exact (includes_app_mono slug _ _ Hinc).
    + rewrite app_cons. cbn [Js.includes]. rewrite IH. apply orb_true_r.
Qed.

End KnowledgeProperties.

(** * Further properties of the build loop *)

Section CallFacts.
Import BuildLoop.
Variable pathJoin : string → string → string.

Lemma consulted_progress (updates : list string) :
  omap consulted (Progress <$> updates) = [].
Proof. by induction updates. Qed.

Lemma consulted_successUpdates (r : GenerationResult) :
  omap consulted (successUpdates r) = [].
Proof.
  unfold successUpdates.
  destruct (mpkPath r) as [[|??]|], (deployedTo r) as [[|??]|]; done.
Qed.

Lemma appliedFix_consulted (tr : list Event) :
  (length (omap appliedFix tr) ≤ length (omap consulted tr))%nat.
Proof.
  induction tr as [|[u|cfg folder r|errs path f] tr IH]; [done|..];
    cbn [omap list_omap appliedFix consulted]; try done.
  destruct (applied f); cbn [length]; lia.
Qed.

Lemma fedFrom_mono (config : WidgetConfig) (options : BuildLoopOptions)
    (tr tr' : list Event) (e : Event) :
  (∀ x, x ∈ tr → x ∈ tr') →
  fedFrom pathJoin config options tr e → fedFrom pathJoin config options tr' e.
Proof.
  intros Hsub. destruct e as [u|cfg folder r|errs path f]; try done.
  intros (cfg & folder & g & Hin & ?). exists cfg, folder, g.
  split; [by apply Hsub|done].
Qed.

Lemma fedFrom_progress (config : WidgetConfig) (options : BuildLoopOptions)
    (tr : list Event) (updates : list string) :
  Forall (fedFrom pathJoin config options tr) (Progress <$> updates).
Proof. apply Forall_fmap, Forall_forall. by intros. Qed.

Lemma fedFrom_successUpdates (config : WidgetConfig) (options : BuildLoopOptions)
    (tr : list Event) (r : GenerationResult) :
  Forall (fedFrom pathJoin config options tr) (successUpdates r).
Proof.
  unfold successUpdates.
  destruct (mpkPath r) as [[|??]|], (deployedTo r) as [[|??]|];
    repeat constructor.
Qed.

End CallFacts.

Section ExecuteCalls.
Import BuildLoop.
Context {World : Type}.
Variable isCancellationRequested : World → bool.
Variable getDefaultWorkFolder : World → string.
Variable ensureFolder : string → World → World.
Variable pathJoin : string → string → string.
Variable generate : WidgetConfig → string → World → GenerationResult * World.
Variable analyzeAndFix :
  list string → WidgetConfig → string → World → FixResult * list string * World.
Variable config : WidgetConfig.
Variable options : BuildLoopOptions.

Abbreviation loop' :=
  (attemptLoop isCancellationRequested getDefaultWorkFolder ensureFolder pathJoin
     generate analyzeAndFix config options).
Abbreviation exec' :=
  (execute isCancellationRequested getDefaultWorkFolder ensureFolder pathJoin
     generate analyzeAndFix config options).

Lemma orString_given (c : ascii) (f d : string) :
  orString (Some (String c f)) d = String c f.
Proof. done. Qed.

(** The calls that a run of the loop makes, whatever the collaborators
    do: the generator is called once for each attempt that is left at
    most, the fix chain once less; every result of the generator but
    the last is a failure, and the last is the result of the run when
    that is a success; and the collaborators are fed as [fedFrom]
    tells. *)
Lemma attemptLoop_calls (maxAttempts : Z) (fuel : nat) (attempt : Z)
    (fixes : list string) (w : World) (tr : list Event)
    (r : BuildLoopResult) (w' : World) (tr' : list Event) :
  loop' maxAttempts fuel attempt fixes (w, tr) = Some (r, (w', tr')) →
  ∃ ext, tr' = tr ++ ext
    ∧ Z.of_nat (length (omap generated ext)) <= Z.max 0 (maxAttempts - attempt)
    ∧ Z.of_nat (length (omap consulted ext)) <= Z.max 0 (maxAttempts - attempt - 1)
    ∧ (if success (base r)
       then ∃ earlier, omap generated ext = earlier ++ [base r]
                       ∧ Forall (λ g, success g = false) earlier
       else Forall (λ g, success g = false) (omap generated ext))
    ∧ Forall (fedFrom pathJoin config options ext) ext.
Proof.
  revert attempt fixes w tr.
  induction fuel as [|fuel IH]; intros attempt fixes w tr;
    cbn [attemptLoop]; destruct (attempt <? maxAttempts) eqn:Hlt;
    cbn [negb]; try done.
  - intros [= <- <- <-]. exists []. rewrite app_nil_r. simpl.
    repeat split; try lia; constructor.
  - apply Z.ltb_lt in Hlt. cbv zeta.
    destruct (isCancellationRequested w).
    { intros [= <- <- <-]. exists []. rewrite app_nil_r. simpl.
      repeat split; try lia; constructor. }
    destruct (generate _ _ _) as [result w1] eqn:Hgen. cbv beta iota zeta.
    assert (∀ tr0,
      fedFrom pathJoin config options tr0
        (Generate
           {| name := name config;
              mendixProjectPath :=
                if default false (autoDeploy options)
                then mendixProject options else None |}
           (orString (workFolder options) (getDefaultWorkFolder w)) result))
      as Hfed.
    { intros tr0. split; [done|]. by intros c f ->. }
    destruct (success result) eqn:Hok.
    { intros [= <- <- <-]. eexists. split; [by rewrite <- !app_assoc|].
      cbn [base].
      rewrite !omap_app, generated_successUpdates, consulted_successUpdates.
      cbn [omap list_omap generated consulted app length]. rewrite Hok.
      split; [lia|]. split; [lia|]. split; [by exists []|].
      assert (∀ tr0, Forall (fedFrom pathJoin config options tr0) (successUpdates result))
        as Hsu by (intros; apply fedFrom_successUpdates).
      set (su := successUpdates result) in *. clearbody su.
      repeat first [apply Forall_cons_2 | apply Forall_app; split
                   | apply Forall_nil_2];
        try done; try apply Hfed; apply Hsu. }
    destruct (attempt + 1 <? maxAttempts) eqn:Hlt2.
    + apply Z.ltb_lt in Hlt2.
      destruct (analyzeAndFix _ _ _ _) as [[fix_ updates] w2] eqn:Hfix.
      cbv beta iota zeta.
      assert (∀ tr0,
        Generate
          {| name := name config;
             mendixProjectPath :=
               if default false (autoDeploy options)
               then mendixProject options else None |}
          (orString (workFolder options) (getDefaultWorkFolder w)) result ∈ tr0 →
        fedFrom pathJoin config options tr0
          (AnalyzeAndFix (errors result)
             (orString (outputPath result)
                (pathJoin (orString (workFolder options) (getDefaultWorkFolder w))
                   (Js.toLowerCase (name config))))
             fix_)) as Hasked.
      { intros tr0 Hin. by eexists _, _, result. }
      destruct (applied fix_) eqn:Happ.
      * intros (ext & -> & Hg & Ha & Hlast & Hfeds)%IH.
        eexists. split; [by rewrite <- !app_assoc|].
        rewrite !omap_app, generated_progress, consulted_progress.
        cbn [omap list_omap generated consulted app length].
        split; [lia|]. split; [lia|]. split.
        { destruct (success (base r)).
          - destruct Hlast as (earlier & -> & Hall).
            exists (result :: earlier). split; [done|]. by constructor.
          - by constructor. }
        repeat first [apply Forall_cons_2 | apply Forall_app; split
                     | apply Forall_nil_2];
          try done; try apply Hfed; try apply fedFrom_progress.
        -- apply Hasked. in_goal.
        -- eapply Forall_impl; [exact Hfeds|]. intros e.
           apply fedFrom_mono. intros x Hx. in_goal.
      * intros [= <- <- <-].
        eexists. split; [by rewrite <- !app_assoc|].
        cbn [base success failedResult].
        rewrite !omap_app, generated_progress, consulted_progress.
        cbn [omap list_omap generated consulted app length].
        split; [lia|]. split; [lia|]. split; [by repeat constructor|].
        repeat first [apply Forall_cons_2 | apply Forall_app; split
                     | apply Forall_nil_2];
          try done; try apply Hfed; try apply fedFrom_progress.
        apply Hasked. in_goal.
    + apply Z.ltb_ge in Hlt2.
      intros (ext & -> & Hg & Ha & Hlast & Hfeds)%IH.
      eexists. split; [by rewrite <- !app_assoc|].
      rewrite !omap_app.
      cbn [omap list_omap generated consulted app length].
      split; [lia|]. split; [lia|]. split.
      { destruct (success (base r)).
        - destruct Hlast as (earlier & -> & Hall).
          exists (result :: earlier). split; [done|]. by constructor.
        - by constructor. }
      repeat first [apply Forall_cons_2 | apply Forall_app; split
                   | apply Forall_nil_2];
        try done; try apply Hfed.
      eapply Forall_impl; [exact Hfeds|]. intros e.
      apply fedFrom_mono. intros x Hx. in_goal.
  - intros [= <- <- <-]. exists []. rewrite app_nil_r. simpl.
    repeat split; try lia; constructor.
Qed.

(** X19.  Take [maxAttempts] a whole number, or a falsy value
    (undefined, 0 or NaN).  Whatever the generator, the fix chain and
    the token do, [execute] returns, and with [N] the bound of the loop
    (the whole number, or 3) it has called the generator [N] times at
    most and the fix chain [N - 1] times at most; the fixes it reports
    are no more than the consultations, and the attempts it reports lie
    between 0 and [N]. *)
Theorem execute_call_bounds (w : World) :
  (∃ z, maxAttempts options = Some (JsInt z))
  ∨ truthy (maxAttempts options) = false →
  let N := Z.max 0 (orNumber (maxAttempts options) 3) in
  ∃ r w' tr,
    exec' w = Some (r, (w', tr))
    ∧ Z.of_nat (length (omap generated tr)) <= N
    ∧ Z.of_nat (length (omap consulted tr)) <= Z.max 0 (N - 1)
    ∧ (length (fixesApplied r) ≤ length (omap consulted tr))%nat
    ∧ 0 <= attempts r <= N.
Proof.
  intros _ N.
  destruct (execute_total isCancellationRequested getDefaultWorkFolder
              ensureFolder pathJoin generate analyzeAndFix config options w)
    as [[r [w' tr]] Hrun].
  exists r, w', tr. split; [done|].
  pose proof Hrun as (ext & -> & Hg & Ha & _)%attemptLoop_calls.
  apply attemptLoop_run in Hrun as (ext' & Hext & Hfixes & _ & Hcls).
  rewrite !app_nil_l in *. subst ext'. rewrite Z.sub_0_r in *.
  split; [done|]. split; [lia|]. split.
  { rewrite Hfixes. apply appliedFix_consulted. }
  cbv zeta in Hcls. rewrite Z.add_0_l in Hcls.
  destruct Hcls as [[_ ->] | [[-> Hlt] | ->]];
    cbn [attempts cancelledResult failedResult]; lia.
Qed.

(** X20.  The loop gives up early: with a bound of two or more, when the
    first build fails and the fix chain applies nothing, [execute]
    returns after that one call of the generator and that one
    consultation, and the failure it returns counts one attempt. *)
Theorem execute_stops_without_fix (w : World) :
  2 <= orNumber (maxAttempts options) 3 →
  (∀ w, isCancellationRequested w = false) →
  (∀ cfg folder w, success (generate cfg folder w).1 = false) →
  (∀ errs cfg path w, applied (analyzeAndFix errs cfg path w).1.1 = false) →
  ∃ w' tr,
    exec' w = Some (failedResult 1 [], (w', tr))
    ∧ length (omap generated tr) = 1%nat
    ∧ length (omap consulted tr) = 1%nat.
Proof.
  intros HN Hc Hf Ha. unfold execute.
  set (N := orNumber (maxAttempts options) 3) in *.
  destruct (Z.to_nat N) as [|fuel] eqn:E; [lia|].
  cbn [attemptLoop].
  assert ((0 <? N) = true) as -> by (apply Z.ltb_lt; lia).
  cbn [negb]. cbv zeta. rewrite Hc.
  destruct (generate _ _ _) as [result w1] eqn:Hgen. cbv beta iota zeta.
  match type of Hgen with
  | generate ?c ?f ?w0 = _ => pose proof (Hf c f w0) as Hfail
  end. rewrite Hgen in Hfail. cbn [fst] in Hfail. rewrite Hfail.
  assert ((0 + 1 <? N) = true) as -> by (apply Z.ltb_lt; lia).
  destruct (analyzeAndFix _ _ _ _) as [[fix_ updates] w2] eqn:Hfix.
  cbv beta iota zeta.
  match type of Hfix with
  | analyzeAndFix ?e ?c ?p ?w0 = _ => pose proof (Ha e c p w0) as Happ
  end. rewrite Hfix in Happ. cbn [fst] in Happ. rewrite Happ.
  eexists _, _. split; [done|].
  rewrite !omap_app, generated_progress, consulted_progress. done.
Qed.

(** X21.  The result of a successful run is the last result of the
    generator, every earlier call having failed, and its attempts count
    the calls; after an unsuccessful run every call of the generator has
    failed. *)
Theorem execute_result_is_last (w : World) :
  ∃ r w' tr,
    exec' w = Some (r, (w', tr))
    ∧ if success (base r)
      then ∃ earlier,
             omap generated tr = earlier ++ [base r]
             ∧ Forall (λ g, success g = false) earlier
             ∧ attempts r = Z.of_nat (length earlier) + 1
      else Forall (λ g, success g = false) (omap generated tr).
Proof.
  destruct (execute_total isCancellationRequested getDefaultWorkFolder
              ensureFolder pathJoin generate analyzeAndFix config options w)
    as [[r [w' tr]] Hrun].
  exists r, w', tr. split; [done|].
  pose proof Hrun as (ext & -> & _ & _ & Hlast & _)%attemptLoop_calls.
  apply attemptLoop_run in Hrun as (ext' & Hext & _ & _ & Hcls).
  rewrite !app_nil_l in *. subst ext'.
  destruct (success (base r)) eqn:Hok; [|done].
  destruct Hlast as (earlier & Hgen & Hall). exists earlier.
  split; [done|]. split; [done|].
  cbv zeta in Hcls. rewrite Hgen, length_app in Hcls. simpl in Hcls.
  destruct Hcls as [[_ ->] | [[Hr _] | Hr]]; [lia|..];
    rewrite Hr in Hok; by cbn in Hok.
Qed.

(** X22.  A negative bound is taken as it is: the loop is not entered,
    no collaborator is called, and the result is the failure summary
    with no attempt. *)
Theorem execute_negative_maxAttempts (z : Z) (w : World) :
  maxAttempts options = Some (JsInt z) → z < 0 →
  exec' w = Some (failedResult 0 [], (w, [])).
Proof.
  intros Hmax Hz. unfold execute. rewrite Hmax.
  assert (orNumber (Some (JsInt z)) 3 = z) as ->.
  { simpl. destruct (z =? 0) eqn:E; [apply Z.eqb_eq in E; lia|done]. }
  destruct (Z.to_nat z) eqn:E; [|lia].
  cbn [attemptLoop]. by assert ((0 <? z) = false) as -> by (apply Z.ltb_ge; lia).
Qed.

(** X23.  What [execute] hands to its collaborators: the generator
    always gets the name of the widget with the project path set only
    under [autoDeploy], and the work folder of the options when there is
    one; the fix chain is consulted only with the diagnostics of a
    failed call of the generator, and with the folder that this call
    reported or else what [path.join] makes of the work folder and the
    name in lower case. *)
Theorem execute_feeds (w : World) :
  ∃ r w' tr,
    exec' w = Some (r, (w', tr)) ∧ Forall (fedFrom pathJoin config options tr) tr.
Proof.
  destruct (execute_total isCancellationRequested getDefaultWorkFolder
              ensureFolder pathJoin generate analyzeAndFix config options w)
    as [[r [w' tr]] Hrun].
  exists r, w', tr. split; [done|].
  by apply attemptLoop_calls in Hrun as (ext & -> & _ & _ & _ & ?).
Qed.

End ExecuteCalls.

(** * Further properties of the fix strategies *)

Section FolderFacts.
Import BuildLoop.

Lemma scriptMissing_insert (key value : string) (scripts : gmap string string) :
  value ≠ "" → scriptMissing key (<[key := value]> scripts) = false.
Proof.
  intros Hvalue. unfold scriptMissing. rewrite lookup_insert_eq.
  by destruct value.
Qed.

Lemma scriptMissing_insert_ne (key key' value : string)
    (scripts : gmap string string) :
  key ≠ key' →
  scriptMissing key (<[key' := value]> scripts) = scriptMissing key scripts.
Proof. intros Hne. unfold scriptMissing. by rewrite lookup_insert_ne. Qed.

Lemma startsWith_drop (s p : string) :
  Js.startsWith s p = true → s = p +:+ Js.drop (String.length p) s.
Proof.
  revert s. induction p as [|a p IH]; intros [|b s]; try done.
  cbn [Js.startsWith]. case_decide as Hab; [|done]. subst b.
  intros H. rewrite app_cons. cbn [String.length Js.drop]. by rewrite <- IH.
Qed.

Lemma spanNoQuote_spec (s : string) :
  s = (spanNoQuote s).1 +:+ (spanNoQuote s).2
  ∧ allChars (λ c, negb (isQuote c)) (spanNoQuote s).1 = true
  ∧ (∀ c rest, (spanNoQuote s).2 = String c rest → isQuote c = true).
Proof.
  induction s as [|c s (IH1 & IH2 & IH3)]; [done|].
  cbn [spanNoQuote]. destruct (isQuote c) eqn:Hc.
  { split; [done|]. split; [done|]. cbn [snd]. by intros c' rest [= <- _]. }
  destruct (spanNoQuote s) as [a b]. cbn [fst snd allChars] in *.
  rewrite app_cons, <- IH1, Hc, IH2. done.
Qed.

(** What the regular expression of [tryPatternFix] matches at the head
    of a text. *)
Lemma moduleNameAt_spec (s m : string) :
  moduleNameAt s = Some m →
  m ≠ "" ∧ allChars (λ c, negb (isQuote c)) m = true
  ∧ ∃ q q' rest,
      isQuote q = true ∧ isQuote q' = true
      ∧ s = "Cannot find module " +:+ String q m +:+ String q' rest.
Proof.
  unfold moduleNameAt.
  destruct (Js.startsWith s "Cannot find module ") eqn:Hstart; [|done].
  apply startsWith_drop in Hstart.
  change (String.length "Cannot find module ") with 19%nat in Hstart.
  destruct (Js.drop 19 s) as [|q rest]; [done|].
  destruct (isQuote q) eqn:Hq; [|done].
  destruct (spanNoQuote_spec rest) as (Hrest & Hall & Hclose).
  destruct (spanNoQuote rest) as [[|c m'] [|c' rest']]; try done.
  intros [= <-]. cbn [fst snd] in *.
  split; [done|]. split; [done|].
  exists q, c', rest'. split; [done|]. split; [by eapply Hclose|].
  by rewrite Hstart, Hrest.
Qed.

Lemma matchModuleName_spec (s m : string) :
  matchModuleName s = Some m →
  m ≠ "" ∧ allChars (λ c, negb (isQuote c)) m = true
  ∧ ∃ before q q' rest,
      isQuote q = true ∧ isQuote q' = true
      ∧ s = before +:+ "Cannot find module " +:+ String q m +:+ String q' rest.
Proof.
  induction s as [|c s IH].
  - cbn [matchModuleName]. by destruct (moduleNameAt "") eqn:E.
  - cbn [matchModuleName]. destruct (moduleNameAt (String c s)) as [m'|] eqn:E.
    + intros [= <-].
      apply moduleNameAt_spec in E as (? & ? & q & q' & rest & ? & ? & ->).
      split; [done|]. split; [done|]. by exists "", q, q', rest.
    + intros (? & ? & before & q & q' & rest & ? & ? & ->)%IH.
      split; [done|]. split; [done|]. by exists (String c before), q, q', rest.
Qed.

Lemma findIndex_unique (patternId : string) (store : DP.Store) (i : nat)
    (p : DP.ErrorFixPattern) :
  NoDup (DP.id <$> store) → store !! i = Some p →
  findIndex (λ q, bool_decide (DP.id q = DP.id p)) store = Some i.
Proof.
  revert i. induction store as [|q store IH]; intros i Hnd Hi; [done|].
  rewrite fmap_cons in Hnd. apply NoDup_cons in Hnd as [Hq Hnd].
  destruct i as [|i]; cbn [findIndex].
  - injection Hi as ->. by rewrite bool_decide_eq_true_2.
  - cbn in Hi. rewrite bool_decide_eq_false_2.
    + by rewrite (IH i).
    + intros Heq. destruct Hq. rewrite Heq. apply list_elem_of_fmap.
      exists p. split; [done|]. by eapply list_elem_of_lookup_2.
Qed.

End FolderFacts.

Section StrategyProperties.
Import BuildLoop.
Context {K X : Type}.
Variable npmInstall : string → WidgetDir → option WidgetDir.
Variable toISOString : Z → string.
Variable getKnownFixes : string → K → list (string * string).
Variable saveWorkingFix : string → string → K → K.
Variable applyKnownFix : string → WidgetDir → bool * list string * WidgetDir.
Variable aiFix : string → WidgetConfig → WidgetDir → X
                 → FixResult * list string * WidgetDir * X.

(** X24.  A nucleus fix of the type [dependency-add] or [manual] is
    never applied: whatever the pattern holds besides and whatever the
    widget folder, [applyNucleusFix] reports [false] and leaves the
    folder as it is. *)
Theorem applyNucleusFix_not_applied (pattern : DP.ErrorFixPattern) (d : WidgetDir) :
  DP.type (DP.fix_ pattern) = DP.DependencyAdd
  ∨ DP.type (DP.fix_ pattern) = DP.Manual →
  (applyNucleusFix pattern d).1.1 = false ∧ (applyNucleusFix pattern d).2 = d.
Proof.
  unfold applyNucleusFix. cbv zeta. intros [->| ->]; [|done].
  by destruct (DP.commands (DP.fix_ pattern)) as [[|??]|].
Qed.

(** X25.  Take a widget folder whose [package.json] is there, parses to
    an object whose [scripts] member is absent or an object of texts,
    and can be written.  A [config-change] fix on [package.json] is then
    reported as applied.  Afterwards the manifest has a [build] and a
    [dev] script; a script that was there and not empty is kept, also
    under those two names, and no other script is touched; and applying
    the fix again changes nothing. *)
Theorem applyNucleusFix_config_change (pattern : DP.ErrorFixPattern)
    (d : WidgetDir) (pkg : PackageJson) :
  DP.type (DP.fix_ pattern) = DP.ConfigChange →
  DP.file (DP.fix_ pattern) = Some "package.json" →
  packageJson d = Some pkg →
  let before := default ∅ (scripts pkg) in
  ∃ after,
    let d' := {| src := src d; packageJson := Some {| scripts := Some after |} |} in
    applyNucleusFix pattern d = (true, ["  Updated package.json" +:+ Js.nl], d')
    ∧ scriptMissing "build" after = false
    ∧ scriptMissing "dev" after = false
    ∧ (∀ key, scriptMissing key before = false → after !! key = before !! key)
    ∧ (∀ key, key ≠ "build" → key ≠ "dev" → after !! key = before !! key)
    ∧ applyNucleusFix pattern d' = (true, ["  Updated package.json" +:+ Js.nl], d').
Proof.
  intros Htype Hfile Hpkg before.
  set (s1 := if scriptMissing "build" before
             then <["build" := "pluggable-widgets-tools build:web"]> before
             else before).
  set (s2 := if scriptMissing "dev" s1
             then <["dev" := "pluggable-widgets-tools start:web"]> s1
             else s1).
  assert (scriptMissing "build" s1 = false) as Hb1.
  { unfold s1. destruct (scriptMissing "build" before) eqn:E; [|done].
    by apply scriptMissing_insert. }
  assert (scriptMissing "build" s2 = false) as Hb2.
  { unfold s2. destruct (scriptMissing "dev" s1); [|done].
    by rewrite scriptMissing_insert_ne. }
  assert (scriptMissing "dev" s2 = false) as Hd2.
  { unfold s2. destruct (scriptMissing "dev" s1) eqn:E; [|done].
    by apply scriptMissing_insert. }
  exists s2. cbv zeta.
  split; [|split; [done|split; [done|split; [|split]]]].
  - unfold applyNucleusFix. cbv zeta. by rewrite Htype, Hfile, Hpkg.
  - intros key Hkey. unfold s2, s1.
    destruct (decide (key = "build")) as [->|Hnb].
    + rewrite Hkey. destruct (scriptMissing "dev" before); [|done].
      by rewrite lookup_insert_ne.
    + destruct (decide (key = "dev")) as [->|Hnd].
      * destruct (scriptMissing "build" before).
        -- rewrite scriptMissing_insert_ne, Hkey by done.
           by rewrite lookup_insert_ne.
        -- by rewrite Hkey.
      * destruct (scriptMissing "build" before);
          destruct (scriptMissing "dev" _); by rewrite ?lookup_insert_ne.
  - intros key Hnb Hnd. unfold s2, s1.
    destruct (scriptMissing "build" before);
      destruct (scriptMissing "dev" _); by rewrite ?lookup_insert_ne.
  - unfold applyNucleusFix. cbv zeta. rewrite Htype, Hfile.
    cbn [packageJson scripts src default from_option id].
    by rewrite Hb2, Hd2.
Qed.

(** X26.  When the rules of [tryPatternFix] report that nothing was
    applied, the widget folder is as it was. *)
Theorem tryPatternFix_not_applied (errorText : string) (d : WidgetDir) :
  applied (tryPatternFix npmInstall errorText d).1 = false →
  (tryPatternFix npmInstall errorText d).2 = d.
Proof.
  unfold tryPatternFix. cbv zeta.
  destruct (missingModuleRule _ _ _ _) as [[r d']|] eqn:Hmodule.
  { intros Hnot. cbn in Hnot. revert Hmodule. unfold missingModuleRule.
    destruct (_ || _); [|done]. destruct (matchModuleName errorText); [|done].
    destruct (_ && _); [|done]. destruct (npmInstall _ d); [|done].
    intros [= <- <-]. done. }
  destruct (reactImportRule _ _) as [[r d']|] eqn:Hreact.
  { intros Hnot. cbn in Hnot. revert Hreact. unfold reactImportRule.
    destruct (_ || _); [|done]. destruct (src d); [|done].
    intros [= <- <-]. done. }
  destruct (nullSafetyRule _ _) as [[r d']|] eqn:Hnull.
  { intros _. revert Hnull. unfold nullSafetyRule.
    destruct (_ || _); [|done]. by intros [= <- <-]. }
  destruct (buildScriptRule _ _) as [[r d']|] eqn:Hbuild; [|done].
  intros Hnot. cbn in Hnot. revert Hbuild. unfold buildScriptRule.
  destruct (Js.includes _ _); [|done]. destruct (packageJson d); [|done].
  intros [= <- <-]. done.
Qed.

(** X27.  The module that the missing-module rule installs is the text
    between the quotes that follow the words [Cannot find module] in
    the diagnostics: the words and a space are followed by a quote
    (single or double), the name, and a quote again; the name is not
    empty, holds no quote, and occurs in the diagnostics. *)
Theorem matchModuleName_sound (errorText moduleName : string) :
  matchModuleName errorText = Some moduleName →
  moduleName ≠ ""
  ∧ allChars (λ c, negb (isQuote c)) moduleName = true
  ∧ (∃ before q q' rest,
       isQuote q = true ∧ isQuote q' = true
       ∧ errorText
         = before +:+ "Cannot find module " +:+ String q moduleName
             +:+ String q' rest)
  ∧ Js.includes errorText moduleName = true.
Proof.
  intros (Hne & Hquote & before & q & q' & rest & Hq & Hq' & Heq)%matchModuleName_spec.
  split; [done|]. split; [done|]. split; [by exists before, q, q', rest|].
  rewrite Heq.
  replace (before +:+ "Cannot find module " +:+ String q moduleName
             +:+ String q' rest)
    with ((before +:+ "Cannot find module " +:+ String q "")
          +:+ moduleName +:+ String q' rest)
    by (by rewrite !string_app_assoc).
  apply includes_segment.
Qed.

(** X28.  The missing-module rule looks for its trigger without regard
    to case but for the module name with it: diagnostics that do not
    hold the words [Cannot find module] as written, followed by a
    space, never make it install anything. *)
Theorem missingModuleRule_case_sensitive (errorText : string) (d : WidgetDir) :
  Js.includes errorText "Cannot find module " = false →
  missingModuleRule npmInstall errorText (Js.toLowerCase errorText) d = None.
Proof.
  intros Hnone. unfold missingModuleRule.
  destruct (matchModuleName errorText) as [m|] eqn:Hmatch;
    [|by destruct (_ || _)].
  apply matchModuleName_spec
    in Hmatch as (_ & _ & before & q & q' & rest & _ & _ & Heq).
  rewrite Heq, includes_segment in Hnone. done.
Qed.

Lemma recordFixUsage_ids (patternId now : string) (success : bool)
    (store : DP.Store) :
  DP.id <$> DP.recordFixUsage patternId success now store = DP.id <$> store.
Proof.
  unfold DP.recordFixUsage. destruct (findIndex _ store); [|done].
  apply fmap_alter_same. intros x. apply nudge_id.
Qed.

(** What the loop over the nucleus patterns leaves alone. *)
Lemma tryNucleusPatterns_keeps (refs : list nat) (env : Env (K := K) (X := X)) :
  let res := tryNucleusPatterns toISOString refs env in
  identity <$> nucleus res.2 = identity <$> nucleus env
  ∧ knowledge res.2 = knowledge env
  ∧ outside res.2 = outside env
  ∧ clock res.2 = clock env
  ∧ (Forall inRange (nucleus env) → Forall inRange (nucleus res.2))
  ∧ (∀ r, res.1.1 = Some r → applied r = true).
Proof.
  revert env. induction refs as [|i refs IH]; intros env; [done|].
  cbn [tryNucleusPatterns].
  destruct (nucleus env !! i) as [pattern|]; [|apply IH].
  destruct (Js.geb _ _); [|apply IH].
  destruct (applyNucleusFix pattern (dir env)) as [[ok updates] d].
  cbv beta iota zeta.
  set (env2 := withNucleus _ (withDir d env)).
  assert (identity <$> nucleus env2 = identity <$> nucleus env) as Hid
    by apply recordFixUsage_identity.
  assert (Forall inRange (nucleus env) → Forall inRange (nucleus env2)) as Hrange
    by apply recordFixUsage_inRange.
  destruct ok.
  - cbn [fst snd]. repeat split; try done. by intros r [= <-].
  - specialize (IH env2).
    destruct (tryNucleusPatterns toISOString refs env2) as [[r ups] env3].
    cbv zeta in IH. cbn [fst snd] in *.
    destruct IH as (Hid3 & Hk & Ho & Hc & Hrange3 & Happ).
    split; [congruence|]. split; [done|]. split; [done|]. split; [done|].
    split; [auto|done].
Qed.

(** Patterns of a confidence below 0.7 are passed over. *)
Lemma tryNucleusPatterns_low (refs : list nat) (env : Env (K := K) (X := X))
    (j : nat) (p : DP.ErrorFixPattern) :
  NoDup (DP.id <$> nucleus env) →
  nucleus env !! j = Some p →
  (Js.double (DP.confidence p) < Js.double (7 # 10))%Q →
  nucleus (tryNucleusPatterns toISOString refs env).2 !! j = Some p.
Proof.
  revert env. induction refs as [|i refs IH]; intros env Hnd Hj Hlow; [done|].
  cbn [tryNucleusPatterns].
  destruct (nucleus env !! i) as [pattern|] eqn:Hi; [|by apply IH].
  destruct (Js.geb _ _) eqn:Hconf; [|by apply IH].
  apply Qle_bool_iff in Hconf.
  destruct (applyNucleusFix pattern (dir env)) as [[ok updates] d].
  cbv beta iota zeta.
  set (env2 := withNucleus _ (withDir d env)).
  assert (nucleus env2 !! j = Some p) as Hj2.
  { unfold env2. cbn [nucleus withNucleus withDir]. unfold DP.recordFixUsage.
    rewrite (findIndex_unique (DP.id pattern) _ i pattern) by done.
    rewrite list_lookup_alter_ne; [done|].
    intros ->. rewrite Hi in Hj. injection Hj as ->. lra. }
  assert (NoDup (DP.id <$> nucleus env2)) as Hnd2.
  { unfold env2. cbn [nucleus withNucleus withDir]. by rewrite recordFixUsage_ids. }
  destruct ok; [done|].
  specialize (IH env2 Hnd2 Hj2 Hlow).
  by destruct (tryNucleusPatterns toISOString refs env2) as [[r ups] env3].
Qed.

Lemma nucleusStep_frame (errorText : string) (env : Env (K := K) (X := X)) :
  let res := nucleusStep toISOString errorText env in
  identity <$> nucleus res.2 = identity <$> nucleus env
  ∧ knowledge res.2 = knowledge env
  ∧ (Forall inRange (nucleus env) → Forall inRange (nucleus res.2))
  ∧ (∀ r, res.1.1 = Some r → applied r = true).
Proof.
  unfold nucleusStep. cbv zeta.
  destruct (DP.getMatchingErrorFixRefs errorText (nucleus env)) as [|i refs];
    [done|].
  pose proof (tryNucleusPatterns_keeps (i :: refs) env) as Hkeeps.
  destruct (tryNucleusPatterns toISOString (i :: refs) env) as [[r ups] env'].
  cbv zeta in Hkeeps. cbn [fst snd] in Hkeeps.
  destruct Hkeeps as (? & ? & ? & ? & ? & ?).
  by destruct r.
Qed.

(** What the loop over the known fixes leaves alone. *)
Lemma tryKnownFixes_keeps (knownFixes : list (string * string))
    (env : Env (K := K) (X := X)) :
  let res := tryKnownFixes toISOString applyKnownFix knownFixes env in
  (∃ added, identity <$> nucleus res.2 = (identity <$> nucleus env) ++ added
            ∧ (length added ≤ 1)%nat)
  ∧ knowledge res.2 = knowledge env
  ∧ (res.1.1 = None → nucleus res.2 = nucleus env).
Proof.
  revert env. induction knownFixes as [|[errorPattern fix_] rest IH]; intros env.
  { split; [|done]. exists []. rewrite app_nil_r. split; [done|simpl; lia]. }
  cbn [tryKnownFixes].
  destruct (applyKnownFix fix_ (dir env)) as [[ok updates] d].
  cbv beta iota zeta. destruct ok.
  - cbn [fst snd nucleus knowledge withNucleus withDir]. split; [|done].
    apply learnErrorFix_identity.
  - specialize (IH (withDir d env)).
    by destruct (tryKnownFixes toISOString applyKnownFix rest (withDir d env))
      as [[r ups] env3].
Qed.

Lemma knowledgeStep_frame (errorText : string) (env : Env (K := K) (X := X)) :
  let res := knowledgeStep toISOString getKnownFixes applyKnownFix errorText env in
  (∃ added, identity <$> nucleus res.2 = (identity <$> nucleus env) ++ added
            ∧ (length added ≤ 1)%nat)
  ∧ knowledge res.2 = knowledge env
  ∧ (res.1.1 = None → nucleus res.2 = nucleus env).
Proof.
  unfold knowledgeStep. cbv zeta.
  destruct (getKnownFixes errorText (knowledge env)) as [|known rest].
  { split; [|done]. exists []. rewrite app_nil_r. split; [done|simpl; lia]. }
  pose proof (tryKnownFixes_keeps (known :: rest) env) as Hkeeps.
  destruct (tryKnownFixes toISOString applyKnownFix (known :: rest) env)
    as [[r ups] env'].
  cbv zeta in Hkeeps. cbn [fst snd] in Hkeeps.
  by destruct r.
Qed.

Lemma patternStep_frame (errorText : string) (env : Env (K := K) (X := X)) :
  let res := patternStep npmInstall toISOString saveWorkingFix errorText env in
  (∃ added, identity <$> nucleus res.2 = (identity <$> nucleus env) ++ added
            ∧ (length added ≤ 1)%nat)
  ∧ (res.1.1 = None → knowledge res.2 = knowledge env)
  ∧ (∀ r, res.1.1 = Some r →
          applied r = true
          ∧ knowledge res.2 = saveWorkingFix errorText (description r) (knowledge env)).
Proof.
  unfold patternStep. cbv zeta.
  destruct (tryPatternFix npmInstall errorText (dir env)) as [patternFix d].
  destruct (applied patternFix) eqn:Happ.
  - cbn [fst snd nucleus knowledge withNucleus withKnowledge withDir].
    split; [apply learnErrorFix_identity|]. split; [done|].
    by intros r [= <-].
  - cbn [fst snd nucleus knowledge withDir]. split; [|done].
    exists []. rewrite app_nil_r. split; [done|simpl; lia].
Qed.

Lemma nucleusStep_low (errorText : string)
    (env : Env (K := K) (X := X)) (j : nat) (p : DP.ErrorFixPattern) :
  NoDup (DP.id <$> nucleus env) →
  nucleus env !! j = Some p →
  (Js.double (DP.confidence p) < Js.double (7 # 10))%Q →
  nucleus (nucleusStep toISOString errorText env).2 !! j = Some p.
Proof.
  intros Hnd Hj Hlow. unfold nucleusStep. cbv zeta.
  destruct (DP.getMatchingErrorFixRefs errorText (nucleus env)) as [|i refs];
    [done|].
  pose proof (tryNucleusPatterns_low (i :: refs) env j p Hnd Hj Hlow) as Hkept.
  destruct (tryNucleusPatterns toISOString (i :: refs) env) as [[r ups] env'].
  by destruct r.
Qed.

(** X29.  Step 0 of [analyzeAndFix] re-weights patterns and does
    nothing else to the nucleus: what identifies the patterns is kept in
    place, confidences stay within range, the knowledge base is not
    touched, and a fix that it returns is an applied one.  While no two
    patterns share an id, a pattern whose confidence is below 0.7 (as
    numbers of the machine) is left exactly as it is: it is neither
    applied nor re-weighted. *)
Theorem nucleusStep_keeps (errorText : string) (env : Env (K := K) (X := X)) :
  let res := nucleusStep toISOString errorText env in
  identity <$> nucleus res.2 = identity <$> nucleus env
  ∧ knowledge res.2 = knowledge env
  ∧ (Forall inRange (nucleus env) → Forall inRange (nucleus res.2))
  ∧ (∀ r, res.1.1 = Some r → applied r = true)
  ∧ (NoDup (DP.id <$> nucleus env) →
     ∀ j p, nucleus env !! j = Some p →
            (Js.double (DP.confidence p) < Js.double (7 # 10))%Q →
            nucleus res.2 !! j = Some p).
Proof.
  intros res.
  destruct (nucleusStep_frame errorText env) as (? & ? & ? & ?).
  repeat split; try done.
  intros Hnd j p Hj Hlow. by apply nucleusStep_low.
Qed.

(** X30.  One consultation of the fix chain learns one pattern at most:
    [analyzeAndFix] keeps what identifies the patterns of the nucleus in
    place and adds at most one behind them; and it writes to the
    knowledge base only when a rule of [tryPatternFix] was applied,
    saving the diagnostics with the description of that fix. *)
Theorem analyzeAndFix_learning (errs : list string) (config : WidgetConfig)
    (widgetPath : string) (env : Env (K := K) (X := X)) :
  let res :=
    analyzeAndFix npmInstall toISOString getKnownFixes saveWorkingFix
      applyKnownFix aiFix errs config widgetPath env in
  (∃ added, identity <$> nucleus res.2 = (identity <$> nucleus env) ++ added
            ∧ (length added ≤ 1)%nat)
  ∧ (knowledge res.2 = knowledge env
     ∨ (applied res.1.1 = true
        ∧ knowledge res.2
          = saveWorkingFix (Js.join Js.nl errs) (description res.1.1)
              (knowledge env))).
Proof.
  unfold analyzeAndFix. cbv zeta.
  set (errorText := Js.join Js.nl errs).
  pose proof (nucleusStep_frame errorText env) as H0.
  destruct (nucleusStep toISOString errorText env) as [[r0 ups0] env0].
  cbv zeta in H0. cbn [fst snd] in H0. destruct H0 as (Hid0 & Hk0 & _).
  destruct r0 as [r|].
  { cbn [fst snd]. split; [|by left]. exists []. rewrite app_nil_r. split; [done|simpl; lia]. }
  pose proof (knowledgeStep_frame errorText env0) as H1.
  destruct (knowledgeStep toISOString getKnownFixes applyKnownFix errorText env0)
    as [[r1 ups1] env1].
  cbv zeta in H1. cbn [fst snd] in H1. destruct H1 as (Hid1 & Hk1 & Hnone1).
  rewrite Hid0 in Hid1.
  destruct r1 as [r|].
  { cbn [fst snd]. split; [done|]. left. congruence. }
  specialize (Hnone1 eq_refl).
  pose proof (patternStep_frame errorText env1) as H2.
  destruct (patternStep npmInstall toISOString saveWorkingFix errorText env1)
    as [[r2 ups2] env2].
  cbv zeta in H2. cbn [fst snd] in H2. destruct H2 as (Hid2 & Hnone2 & Hsome2).
  rewrite Hnone1, Hid0 in Hid2. rewrite Hk1, Hk0 in Hnone2, Hsome2.
  destruct r2 as [r|].
  { cbn [fst snd]. split; [done|]. right. by apply Hsome2. }
  specialize (Hnone2 eq_refl).
  destruct (aiFix errorText config (dir env2) (outside env2)) as [[[r ups3] d] x].
  cbn [fst snd nucleus knowledge]. split; [done|]. by left.
Qed.

End StrategyProperties.

(** * The further properties at concrete inputs *)

Section MoreInstances.
Import BuildLoop Examples Samples.

Lemma learnErrorFix_relearn_witness :
  length (DP.learnErrorFix reactDiagnostic "import React again" noDetails false
            "later" 2
            (DP.learnErrorFix reactDiagnostic "import React" noDetails true
               "now" 1 builtinStore))
  = length (DP.learnErrorFix reactDiagnostic "import React" noDetails true
              "now" 1 builtinStore)
  ∧ identity <$> DP.learnErrorFix reactDiagnostic "import React again" noDetails
                   false "later" 2
                   (DP.learnErrorFix reactDiagnostic "import React" noDetails true
                      "now" 1 builtinStore)
    = identity <$> DP.learnErrorFix reactDiagnostic "import React" noDetails true
                     "now" 1 builtinStore.
Proof.
  apply (learnErrorFix_relearn reactDiagnostic "import React" "import React again"
           noDetails noDetails false "now" "later" 1 2 builtinStore).
  left. vm_compute. lia.
Defined.

Lemma learnErrorFix_long_text_duplicates_witness :
  length (DP.learnErrorFix noisyText "second" noDetails true "later" 2
            (DP.learnErrorFix noisyText "first" noDetails true "now" 1
               builtinStore))
  = (length builtinStore + 2)%nat.
Proof.
  apply (learnErrorFix_long_text_duplicates noisyText "first" "second"
           noDetails noDetails "now" "later" 1 2 builtinStore).
  - vm_compute. lia.
  - vm_compute. reflexivity.
  - vm_compute. reflexivity.
Defined.

Lemma confidence_range_kept_witness :
  Forall inRange
    (DP.learnErrorFix reactDiagnostic "import React" noDetails false "now" 1
       builtinStore)
  ∧ Forall inRange (DP.recordFixUsage "strict-null-checks" false "now" builtinStore).
Proof.
  apply (confidence_range_kept reactDiagnostic "import React" "strict-null-checks"
           "now" noDetails false 1 builtinStore).
  repeat constructor; unfold Qle; simpl; lia.
Defined.

Lemma recordFixUsage_score_witness :
  (∃ q, DP.recordFixUsage "missing-react-import" true "now" builtinStore !! 0%nat
        = Some q
        ∧ (DP.finalScore reactDiagnostic reactPattern
           <= DP.finalScore reactDiagnostic q)%Q)
  ∧ (∃ q, DP.recordFixUsage "missing-react-import" false "now" builtinStore !! 0%nat
          = Some q
          ∧ (DP.finalScore reactDiagnostic q
             <= DP.finalScore reactDiagnostic reactPattern)%Q).
Proof.
  apply (recordFixUsage_score reactDiagnostic "missing-react-import" "now"
           builtinStore 0%nat reactPattern eq_refl eq_refl).
  - split; unfold Qle; simpl; lia.
  - simpl. lia.
Defined.

(** The ranking of [twoTemplates]: the scores are 10.799999999999999
    and 10.8, and the second template comes first. *)
Example getMatchingTemplates_rounding :
  Nucleus.finalScore keywordDiagnostic
    <$> Nucleus.widgetTemplates (Nucleus.patterns twoTemplates)
  = [Js.double (10799999999999999 # 1000000000000000); Js.double (108 # 10)]
  ∧ Nucleus.tpl_id <$> Nucleus.getMatchingTemplates keywordDiagnostic twoTemplates
    = ["B"; "A"].
Proof. split; by vm_compute. Qed.

Lemma getMatchingTemplates_ranked_witness :
  Nucleus.getMatchingTemplates keywordDiagnostic twoTemplates
    ≡ₚ filter (λ p, Nucleus.rawScore keywordDiagnostic p ≠ 0)
         (Nucleus.widgetTemplates (Nucleus.patterns twoTemplates))
  ∧ StronglySorted
      (λ a b, (Nucleus.finalScore keywordDiagnostic b
               <= Nucleus.finalScore keywordDiagnostic a)%Q)
      (Nucleus.getMatchingTemplates keywordDiagnostic twoTemplates).
Proof.
  assert (Forall (λ p, 0 <= Nucleus.tpl_successCount p < 2 ^ 53)
            (Nucleus.widgetTemplates (Nucleus.patterns twoTemplates))) as Hcounts
    by (repeat constructor; by vm_compute).
  destruct (getMatchingTemplates_ranked keywordDiagnostic twoTemplates Hcounts)
    as (_ & _ & Hperm & Hsorted & _).
  by split.
Defined.

Lemma learnBestPractice_once_witness :
  NoDup ((λ p, Js.toLowerCase (Nucleus.title p))
           <$> Nucleus.bestPractices
                 (Nucleus.patterns
                    (Nucleus.learnBestPractice "react" "Use hooks"
                       "Prefer function components" ["useState"] ["this.setState"]
                       (callAt 1 true) freshNucleus)))
  ∧ (∃ p, p ∈ Nucleus.getBestPractices None
                  (Nucleus.learnBestPractice "react" "Use hooks"
                     "Prefer function components" ["useState"] ["this.setState"]
                     (callAt 1 true) freshNucleus)
          ∧ Js.toLowerCase (Nucleus.title p) = Js.toLowerCase "Use hooks")
  ∧ Nucleus.learnBestPractice "hooks" "USE HOOKS" "Another text" [] []
      (callAt 2 true)
      (Nucleus.learnBestPractice "react" "Use hooks"
         "Prefer function components" ["useState"] ["this.setState"]
         (callAt 1 true) freshNucleus)
    = Nucleus.learnBestPractice "react" "Use hooks"
        "Prefer function components" ["useState"] ["this.setState"]
        (callAt 1 true) freshNucleus.
Proof.
  apply (learnBestPractice_once "react" "hooks" "Use hooks" "USE HOOKS"
           "Prefer function components" "Another text"
           ["useState"] [] ["this.setState"] [] (callAt 1 true) (callAt 2 true)
           freshNucleus).
  - apply NoDup_nil_2.
  - reflexivity.
Defined.

Lemma execute_call_bounds_witness :
  ∃ r w' tr,
    execute neverCancelled tmpWorkFolder folderExists joinPath failingGenerate
      noopFixChain badgeConfig (optionsWith (Some (JsInt 2))) tt
    = Some (r, (w', tr))
    ∧ Z.of_nat (length (omap generated tr)) <= 2
    ∧ Z.of_nat (length (omap consulted tr)) <= 1
    ∧ (length (fixesApplied r) ≤ length (omap consulted tr))%nat
    ∧ 0 <= attempts r <= 2.
Proof.
  apply (execute_call_bounds neverCancelled tmpWorkFolder folderExists joinPath
           failingGenerate noopFixChain badgeConfig
           (optionsWith (Some (JsInt 2))) tt).
  left. by exists 2.
Defined.

Lemma execute_stops_without_fix_witness :
  ∃ w' tr,
    execute neverCancelled tmpWorkFolder folderExists joinPath failingGenerate
      idleFixChain badgeConfig (optionsWith (Some (JsInt 3))) tt
    = Some (failedResult 1 [], (w', tr))
    ∧ length (omap generated tr) = 1%nat
    ∧ length (omap consulted tr) = 1%nat.
Proof.
  apply (execute_stops_without_fix neverCancelled tmpWorkFolder folderExists joinPath
           failingGenerate idleFixChain badgeConfig
           (optionsWith (Some (JsInt 3))) tt).
  - simpl. lia.
  - reflexivity.
  - reflexivity.
  - reflexivity.
Defined.

Lemma execute_negative_maxAttempts_witness :
  runWith neverCancelled (Some (JsInt (-1))) = Some (failedResult 0 [], (tt, [])).
Proof.
  apply (execute_negative_maxAttempts neverCancelled tmpWorkFolder folderExists joinPath
           failingGenerate noopFixChain badgeConfig
           (optionsWith (Some (JsInt (-1)))) (-1) tt).
  - reflexivity.
  - lia.
Defined.

Lemma applyNucleusFix_not_applied_witness :
  (applyNucleusFix (weighted "A" [] 1 0) widgetWithImport).1.1 = false
  ∧ (applyNucleusFix (weighted "A" [] 1 0) widgetWithImport).2 = widgetWithImport.
Proof.
  apply (applyNucleusFix_not_applied (weighted "A" [] 1 0) widgetWithImport).
  right. reflexivity.
Defined.

Lemma applyNucleusFix_config_change_witness :
  ∃ after,
    applyNucleusFix buildScriptPattern customManifest
    = (true, ["  Updated package.json" +:+ Js.nl],
       {| src := None; packageJson := Some {| scripts := Some after |} |})
    ∧ after !! "build" = Some "rollup -c"
    ∧ scriptMissing "dev" after = false.
Proof.
  destruct (applyNucleusFix_config_change buildScriptPattern customManifest
              {| scripts := Some {[ "build" := "rollup -c" ]} |}
              eq_refl eq_refl eq_refl)
    as (after & Happly & _ & Hdev & Hkept & _).
  exists after. split; [exact Happly|]. split; [|exact Hdev].
  rewrite Hkept; reflexivity.
Defined.

Lemma tryPatternFix_not_applied_witness :
  (tryPatternFix npmSucceeds nullDiagnostic widgetWithoutImport).2
  = widgetWithoutImport.
Proof.
  apply (tryPatternFix_not_applied npmSucceeds nullDiagnostic widgetWithoutImport).
  vm_compute. reflexivity.
Defined.

Lemma matchModuleName_sound_witness :
  "lodash" ≠ ""
  ∧ allChars (λ c, negb (isQuote c)) "lodash" = true
  ∧ (∃ before q q' rest,
       isQuote q = true ∧ isQuote q' = true
       ∧ moduleAndReactDiagnostic
         = before +:+ "Cannot find module " +:+ String q "lodash"
             +:+ String q' rest)
  ∧ Js.includes moduleAndReactDiagnostic "lodash" = true.
Proof.
  apply (matchModuleName_sound moduleAndReactDiagnostic "lodash").
  vm_compute. reflexivity.
Defined.

Lemma missingModuleRule_case_sensitive_witness :
  missingModuleRule npmSucceeds lowerCaseModuleDiagnostic
    (Js.toLowerCase lowerCaseModuleDiagnostic) widgetWithImport
  = None.
Proof.
  apply (missingModuleRule_case_sensitive npmSucceeds lowerCaseModuleDiagnostic
           widgetWithImport).
  vm_compute. reflexivity.
Defined.

End MoreInstances.
